(** * A central pattern generator for a hexapod: coupled Hopf oscillators

    Shallow embedding of the Python classes

    - [HopfOscillator]            (cpg_single_hopf.py)            : [Module Hopf]
    - [CoupledOscillatorNetwork]  (cpg_network.py, plain)         : [Module Plain]
    - [CoupledOscillatorNetwork]  (extended with direction and turning);
      the parts that are textually identical in cpg_loconetwork.py,
      cpg_network_loco.py and ledlocotest.py                      : [Module Loco]
    - the gait and direction methods of cpg_network_loco.py        : [Module NetworkLoco]
    - the gait and direction methods and [reset] of
      cpg_loconetwork.py                                           : [Module LocoNetwork]
    - [reset] of ledlocotest.py                                    : [Module LedLocoTest]
    - [get_active_legs], [HexapodController] and
      [leg_command_translator] of ledlocotest.py                   : [Module Controller]

    Conventions of the embedding.

    - Python floats are idealised as real numbers ([R]); [np.pi] is [PI],
      [np.cos]/[np.sin] are [cos]/[sin], and [x % y] on floats is the floored
      remainder [Rfmod].
    - A numpy vector is a [list R], a numpy matrix a list of rows.  Indexed
      reads and writes inside the [for i in range(self.n)] loops are the
      total [!!!] and [<[i:=v]>] of stdpp: they are in range whenever the
      arrays have the shape the constructor gives them ([Loco.wf]), which
      every method preserves ([reachable_wf]); outside that shape Python
      would raise [IndexError] where the model reads 0 or leaves the list
      alone, so the statements below about array contents carry [Loco.wf].
    - Python's bounded call stack is a [fuel : nat], the number of nested
      calls still allowed; exhausting it is [Err RecursionError].
    - [time.time()] is an explicit argument [now].
    - [scipy.integrate.odeint] is not part of the repository: it is a
      parameter [odeint] of [update]. *)

From Stdlib Require Import Reals Lra Lia ZArith FunctionalExtensionality.
From stdpp Require Import base list strings gmap.

(** ** Numbers *)

#[global] Instance R_inhabited : Inhabited R := populate 0%R.

(** [x % y] for Python floats: the remainder of the floored division, with
    the sign of the divisor.  The code only divides by [2 * np.pi], for
    which the result lies in [0, 2π) ([Rfmod_range]). *)
Definition Rfmod (x y : R) : R := (x - y * IZR (Int_part (x / y)))%R.

(** The builtins [min(a, b)] and [max(a, b)] on two floats: the first
    argument wins ties. *)
Definition py_min (a b : R) : R := if Rlt_dec b a then b else a.

Definition py_max (a b : R) : R := if Rlt_dec a b then b else a.

(** ** Exceptions *)

Inductive error : Type := RecursionError | ValueError | IndexError.

Inductive result (A : Type) : Type :=
| Ok (a : A)
| Err (e : error).

Arguments Ok {A} a.
Arguments Err {A} e.

#[global] Instance result_ret : MRet result := fun A a => Ok a.

#[global] Instance result_bind : MBind result :=
  fun A B k r => match r with Ok a => k a | Err e => Err e end.

(** ** Enumerations: [current_gait] is "tripod" or "wave",
    [turning_direction] (when not [None]) "left" or "right" *)

Inductive Gait : Type := Tripod | Wave.

Inductive TurnDirection : Type := TurnLeft | TurnRight.

(** ** Arrays and loops *)

Abbreviation matrix := (list (list R)).

(** [np.zeros(k)] and [np.zeros((r, c))]. *)
Definition zeros (k : nat) : list R := replicate k 0%R.

Definition zeros2 (r c : nat) : matrix := replicate r (zeros c).

(** [M[i, j]] read ([None] out of range) and [M[i, j] = v]. *)
Definition mget (M : matrix) (i j : nat) : option R :=
  row ← M !! i; row !! j.

Definition mset (M : matrix) (i j : nat) (v : R) : matrix :=
  <[i := <[j := v]> (M !!! i)]> M.

(** [for i in range(k): body]. *)
Definition for_range {S : Type} (k : nat) (body : nat → S → S) (s : S) : S :=
  fold_left (fun s i => body i s) (seq 0 k) s.

(** The loop nest of [set_tripod_gait], the same text in the four files
    that define it. *)
Definition tripod_loops (n : nat) (coupling_strength : R)
    (cwpb : matrix * matrix) : matrix * matrix :=
  for_range n (fun i =>
    for_range n (fun j '(cw, pb) =>
      if negb (i =? j)%nat then
        let cw := mset cw i j coupling_strength in
        let same_tripod := (i mod 2 =? j mod 2)%nat in
        (cw, mset pb i j (if same_tripod then 0%R else PI))
      else (cw, pb))) cwpb.

(** The loop nest of [set_wave_gait]; [(j - i) % self.n] is integer
    arithmetic, whose remainder has the sign of the divisor as [Z.modulo]. *)
Definition wave_loops (n : nat) (coupling_strength : R)
    (cwpb : matrix * matrix) : matrix * matrix :=
  for_range n (fun i =>
    for_range n (fun j '(cw, pb) =>
      if negb (i =? j)%nat then
        let cw := mset cw i j coupling_strength in
        let phase_diff :=
          ((2 * PI / INR n) * IZR ((Z.of_nat j - Z.of_nat i) mod Z.of_nat n))%R in
        (cw, mset pb i j phase_diff)
      else (cw, pb))) cwpb.

(** The loop nest of [_update_phase_relationships]. *)
Definition direction_loops (n : nat) (direction_phase : R) (pb : matrix) : matrix :=
  for_range n (fun i =>
    for_range n (fun j pb =>
      if negb (i =? j)%nat then
        mset pb i j (Rfmod ((pb !!! i) !!! j + direction_phase) (2 * PI))
      else pb)) pb.

(** The common shape of the three loop nests on one matrix: every
    off-diagonal cell [(i, j)] is overwritten with [f i j] of its old
    value.  Used to state what the loops compute. *)
Definition cells (n : nat) (f : nat → nat → R → R) (M : matrix) : matrix :=
  for_range n (fun i =>
    for_range n (fun j M =>
      if negb (i =? j)%nat then mset M i j (f i j ((M !!! i) !!! j)) else M)) M.

(** Closed forms of the two gait rules, used in the statements. *)
Definition tripod_phase (i j : nat) : R :=
  if (i mod 2 =? j mod 2)%nat then 0%R else PI.

Definition wave_phase (n i j : nat) : R :=
  ((2 * PI / INR n) * IZR ((Z.of_nat j - Z.of_nat i) mod Z.of_nat n))%R.

(** The phase rule of a gait, and the matrices its loops build from
    [np.zeros((n, n))]. *)
Definition gait_phase (g : Gait) (k i j : nat) : R :=
  match g with Tripod => tripod_phase i j | Wave => wave_phase k i j end.

Definition gait_loops (g : Gait) (k : nat) (cs : R) : matrix * matrix :=
  match g with
  | Tripod => tripod_loops k cs (zeros2 k k, zeros2 k k)
  | Wave => wave_loops k cs (zeros2 k k, zeros2 k k)
  end.

(** [self.state = np.zeros(2 * self.n)] followed by the seeding loop. *)
Definition seed_state (n : nat) : list R :=
  for_range n (fun i state => <[(2 * i)%nat := 0.1%R]> state) (zeros (2 * n)).

(** [np.array([self.state[2*i] for i in range(self.n)])]. *)
Definition x_values (n : nat) (state : list R) : option (list R) :=
  mapM (fun i => state !! (2 * i)%nat) (seq 0 n).

(** ** The extended network: state and the methods shared by
    cpg_loconetwork.py, cpg_network_loco.py and ledlocotest.py *)

Module Loco.

Record CoupledOscillatorNetwork : Type := mkNetwork {
  n : nat;
  amplitude : R;
  base_frequency : R;
  omega : R;
  mu : R;
  state : list R;
  coupling_weights : matrix;
  phase_biases : matrix;
  frequencies : list R;
  amplitudes : list R;
  current_gait : Gait;
  direction_phase : R;
  turning : bool;
  turning_direction : option TurnDirection;
  turning_factor : R;
  last_update_time : R
}.

(** Attribute assignments [self.f = v]. *)
Definition set_state (v : list R) (net : CoupledOscillatorNetwork)
    : CoupledOscillatorNetwork :=
  mkNetwork (n net) (amplitude net) (base_frequency net) (omega net) (mu net)
    v (coupling_weights net) (phase_biases net) (frequencies net)
    (amplitudes net) (current_gait net) (direction_phase net) (turning net)
    (turning_direction net) (turning_factor net) (last_update_time net).

Definition set_matrices (cwpb : matrix * matrix) (net : CoupledOscillatorNetwork)
    : CoupledOscillatorNetwork :=
  mkNetwork (n net) (amplitude net) (base_frequency net) (omega net) (mu net)
    (state net) (fst cwpb) (snd cwpb) (frequencies net)
    (amplitudes net) (current_gait net) (direction_phase net) (turning net)
    (turning_direction net) (turning_factor net) (last_update_time net).

Definition set_phase_biases (v : matrix) (net : CoupledOscillatorNetwork)
    : CoupledOscillatorNetwork :=
  set_matrices (coupling_weights net, v) net.

Definition set_frequencies (v : list R) (net : CoupledOscillatorNetwork)
    : CoupledOscillatorNetwork :=
  mkNetwork (n net) (amplitude net) (base_frequency net) (omega net) (mu net)
    (state net) (coupling_weights net) (phase_biases net) v
    (amplitudes net) (current_gait net) (direction_phase net) (turning net)
    (turning_direction net) (turning_factor net) (last_update_time net).

Definition set_amplitudes (v : list R) (net : CoupledOscillatorNetwork)
    : CoupledOscillatorNetwork :=
  mkNetwork (n net) (amplitude net) (base_frequency net) (omega net) (mu net)
    (state net) (coupling_weights net) (phase_biases net) (frequencies net)
    v (current_gait net) (direction_phase net) (turning net)
    (turning_direction net) (turning_factor net) (last_update_time net).

Definition set_current_gait (v : Gait) (net : CoupledOscillatorNetwork)
    : CoupledOscillatorNetwork :=
  mkNetwork (n net) (amplitude net) (base_frequency net) (omega net) (mu net)
    (state net) (coupling_weights net) (phase_biases net) (frequencies net)
    (amplitudes net) v (direction_phase net) (turning net)
    (turning_direction net) (turning_factor net) (last_update_time net).

Definition set_direction_phase (v : R) (net : CoupledOscillatorNetwork)
    : CoupledOscillatorNetwork :=
  mkNetwork (n net) (amplitude net) (base_frequency net) (omega net) (mu net)
    (state net) (coupling_weights net) (phase_biases net) (frequencies net)
    (amplitudes net) (current_gait net) v (turning net)
    (turning_direction net) (turning_factor net) (last_update_time net).

(** The three assignments to [turning], [turning_direction] and
    [turning_factor] always come together. *)
Definition set_turn_state (t : bool) (d : option TurnDirection) (f : R)
    (net : CoupledOscillatorNetwork) : CoupledOscillatorNetwork :=
  mkNetwork (n net) (amplitude net) (base_frequency net) (omega net) (mu net)
    (state net) (coupling_weights net) (phase_biases net) (frequencies net)
    (amplitudes net) (current_gait net) (direction_phase net) t d f
    (last_update_time net).

Definition set_last_update_time (v : R) (net : CoupledOscillatorNetwork)
    : CoupledOscillatorNetwork :=
  mkNetwork (n net) (amplitude net) (base_frequency net) (omega net) (mu net)
    (state net) (coupling_weights net) (phase_biases net) (frequencies net)
    (amplitudes net) (current_gait net) (direction_phase net) (turning net)
    (turning_direction net) (turning_factor net) v.

(** The shape the constructor gives the arrays. *)
Definition dims (k : nat) (M : matrix) : Prop :=
  length M = k ∧ ∀ i row, M !! i = Some row → length row = k.

Definition wf (net : CoupledOscillatorNetwork) : Prop :=
  length (state net) = (2 * n net)%nat ∧
  length (frequencies net) = n net ∧
  length (amplitudes net) = n net ∧
  dims (n net) (coupling_weights net) ∧
  dims (n net) (phase_biases net).

(** Everything in [__init__] before the call [self.set_tripod_gait()];
    [np.zeros] refuses a negative size with [ValueError]. *)
Definition init_fields (n_oscillators : Z) (amplitude frequency mu now : R)
    : result CoupledOscillatorNetwork :=
  if (n_oscillators <? 0)%Z then Err ValueError
  else
    let n := Z.to_nat n_oscillators in
    Ok (mkNetwork n amplitude frequency (2 * PI * frequency)%R mu
          (seed_state n)
          (zeros2 n n) (zeros2 n n)
          (replicate n (1 * frequency)%R) (replicate n (1 * amplitude)%R)
          Tripod 0%R false None 0%R now).

(** [equations(self, state, t)] *)
Definition equations (net : CoupledOscillatorNetwork) (state : list R) (t : R)
    : list R :=
  let derivatives := zeros (length state) in
  for_range (n net) (fun i derivatives =>
    let x_i := state !!! (2 * i)%nat in
    let y_i := state !!! (2 * i + 1)%nat in
    let local_omega := (2 * PI * (frequencies net !!! i))%R in
    let local_amplitude := amplitudes net !!! i in
    let r_squared := (x_i ^ 2 + y_i ^ 2)%R in
    let dx_i := (mu net * (local_amplitude - r_squared) * x_i - local_omega * y_i)%R in
    let dy_i := (mu net * (local_amplitude - r_squared) * y_i + local_omega * x_i)%R in
    let '(dx_i, dy_i) :=
      for_range (n net) (fun j '(dx_i, dy_i) =>
        if negb (i =? j)%nat then
          if Req_dec_T ((coupling_weights net !!! i) !!! j) 0 then (dx_i, dy_i)
          else
            let x_j := state !!! (2 * j)%nat in
            let y_j := state !!! (2 * j + 1)%nat in
            let phase_bias := (phase_biases net !!! i) !!! j in
            let coupling_term_x := (x_j * cos phase_bias - y_j * sin phase_bias)%R in
            let coupling_term_y := (x_j * sin phase_bias + y_j * cos phase_bias)%R in
            ((dx_i + (coupling_weights net !!! i) !!! j * (coupling_term_x - x_i))%R,
             (dy_i + (coupling_weights net !!! i) !!! j * (coupling_term_y - y_i))%R)
        else (dx_i, dy_i)) (dx_i, dy_i) in
    <[(2 * i + 1)%nat := dy_i]> (<[(2 * i)%nat := dx_i]> derivatives)) derivatives.

(** [update(self, dt=None)]; [odeint func y0 t] is the trajectory
    [scipy.integrate.odeint] returns, one row per entry of [t]. *)
Definition update
    (odeint : (list R → R → list R) → list R → list R → list (list R))
    (dt : option R) (now : R) (net : CoupledOscillatorNetwork)
    : result (CoupledOscillatorNetwork * list R) :=
  let '(dt, net) :=
    match dt with
    | None => ((now - last_update_time net)%R, set_last_update_time now net)
    | Some dt => (dt, net)
    end in
  let t := [0%R; dt] in
  let state_trajectory := odeint (equations net) (state net) t in
  match last state_trajectory with
  | None => Err IndexError
  | Some s =>
      let net := set_state s net in
      match x_values (n net) (state net) with
      | None => Err IndexError
      | Some xs => Ok (net, xs)
      end
  end.

(** [turn_right(self, turning_factor=0.3)] *)
Definition turn_right (turning_factor : R) (net : CoupledOscillatorNetwork)
    : CoupledOscillatorNetwork :=
  let turning_factor := py_max 0 (py_min 1 turning_factor) in
  let net := set_turn_state true (Some TurnRight) turning_factor net in
  for_range (n net) (fun i net =>
    if (i mod 2 =? 0)%nat then
      let net := set_amplitudes
        (<[i := (amplitude net * (1 - turning_factor * 0.5))%R]> (amplitudes net)) net in
      set_frequencies
        (<[i := (base_frequency net * (1 - turning_factor * 0.3))%R]> (frequencies net)) net
    else
      let net := set_amplitudes
        (<[i := (amplitude net * (1 + turning_factor * 0.5))%R]> (amplitudes net)) net in
      set_frequencies
        (<[i := (base_frequency net * (1 + turning_factor * 0.3))%R]> (frequencies net)) net)
    net.

(** [turn_left(self, turning_factor=0.3)] *)
Definition turn_left (turning_factor : R) (net : CoupledOscillatorNetwork)
    : CoupledOscillatorNetwork :=
  let turning_factor := py_max 0 (py_min 1 turning_factor) in
  let net := set_turn_state true (Some TurnLeft) turning_factor net in
  for_range (n net) (fun i net =>
    if (i mod 2 =? 0)%nat then
      let net := set_amplitudes
        (<[i := (amplitude net * (1 + turning_factor * 0.5))%R]> (amplitudes net)) net in
      set_frequencies
        (<[i := (base_frequency net * (1 + turning_factor * 0.3))%R]> (frequencies net)) net
    else
      let net := set_amplitudes
        (<[i := (amplitude net * (1 - turning_factor * 0.5))%R]> (amplitudes net)) net in
      set_frequencies
        (<[i := (base_frequency net * (1 - turning_factor * 0.3))%R]> (frequencies net)) net)
    net.

(** The loop that ends [stop_turning] and [reset]. *)
Definition restore_base (net : CoupledOscillatorNetwork) : CoupledOscillatorNetwork :=
  for_range (n net) (fun i net =>
    let net := set_amplitudes (<[i := amplitude net]> (amplitudes net)) net in
    set_frequencies (<[i := base_frequency net]> (frequencies net)) net) net.

Definition stop_turning (net : CoupledOscillatorNetwork) : CoupledOscillatorNetwork :=
  let net := set_turn_state false None 0%R net in
  restore_base net.

(** [HexapodController.turn] of ledlocotest.py, on the two directions it
    knows. *)
Definition turn (direction : TurnDirection) (factor : R)
    (net : CoupledOscillatorNetwork)
    : CoupledOscillatorNetwork :=
  match direction with
  | TurnLeft => turn_left factor net
  | TurnRight => turn_right factor net
  end.

(** A run of ticks, as the demonstration loops
    [for i in range(len(t)): outputs[i] = cpg.update(dt)] make them: each
    tick is the [dt] passed (or [None]) and the clock reading. *)
Fixpoint run
    (odeint : (list R → R → list R) → list R → list R → list (list R))
    (ticks : list (option R * R)) (net : CoupledOscillatorNetwork)
    : result (CoupledOscillatorNetwork * list (list R)) :=
  match ticks with
  | [] => Ok (net, [])
  | (dt, now) :: ticks =>
      r ← update odeint dt now net;
      r' ← run odeint ticks (fst r);
      mret (fst r', snd r :: snd r')
  end.

End Loco.

(** ** cpg_network_loco.py: gait setters that only rebuild the matrices *)

Module NetworkLoco.
Import Loco.

(** [set_tripod_gait(self, coupling_strength=1.0, reset_direction=True)] *)
Definition set_tripod_gait (coupling_strength : R) (reset_direction : bool)
    (net : CoupledOscillatorNetwork) : CoupledOscillatorNetwork :=
  let net := set_current_gait Tripod net in
  let net := if reset_direction then set_direction_phase 0%R net else net in
  let net := set_matrices (zeros2 (n net) (n net), zeros2 (n net) (n net)) net in
  set_matrices
    (tripod_loops (n net) coupling_strength (coupling_weights net, phase_biases net))
    net.

(** [set_wave_gait(self, coupling_strength=1.0, reset_direction=True)] *)
Definition set_wave_gait (coupling_strength : R) (reset_direction : bool)
    (net : CoupledOscillatorNetwork) : CoupledOscillatorNetwork :=
  let net := set_current_gait Wave net in
  let net := if reset_direction then set_direction_phase 0%R net else net in
  let net := set_matrices (zeros2 (n net) (n net), zeros2 (n net) (n net)) net in
  set_matrices
    (wave_loops (n net) coupling_strength (coupling_weights net, phase_biases net))
    net.

(** [_update_phase_relationships(self)] *)
Definition _update_phase_relationships (net : CoupledOscillatorNetwork)
    : CoupledOscillatorNetwork :=
  let net :=
    match current_gait net with
    | Tripod => set_tripod_gait 1%R false net
    | Wave => set_wave_gait 1%R false net
    end in
  if Req_dec_T (direction_phase net) 0 then net
  else set_phase_biases
         (direction_loops (n net) (direction_phase net) (phase_biases net)) net.

(** [set_backward(self, backward=True)] and [set_forward(self)] *)
Definition set_backward (backward : bool) (net : CoupledOscillatorNetwork)
    : CoupledOscillatorNetwork :=
  let net := set_direction_phase (if backward then PI else 0%R) net in
  _update_phase_relationships net.

Definition set_forward (net : CoupledOscillatorNetwork)
    : CoupledOscillatorNetwork := set_backward false net.

(** [__init__] *)
Definition __init__ (n_oscillators : Z) (amplitude frequency mu now : R)
    : result CoupledOscillatorNetwork :=
  net ← init_fields n_oscillators amplitude frequency mu now;
  mret (set_tripod_gait 1%R true net).

End NetworkLoco.

(** ** cpg_loconetwork.py (and ledlocotest.py): gait setters that call
    [_update_phase_relationships], which calls them back *)

Module LocoNetwork.
Import Loco.

Fixpoint set_tripod_gait (fuel : nat) (coupling_strength : R)
    (reset_direction : bool) (net : CoupledOscillatorNetwork) {struct fuel}
    : result CoupledOscillatorNetwork :=
  match fuel with
  | O => Err RecursionError
  | S fuel =>
      let net := set_current_gait Tripod net in
      let net := if reset_direction then set_direction_phase 0%R net else net in
      let net := set_matrices (zeros2 (n net) (n net), zeros2 (n net) (n net)) net in
      let net := set_matrices
        (tripod_loops (n net) coupling_strength
           (coupling_weights net, phase_biases net)) net in
      if Req_dec_T (direction_phase net) 0 then Ok net
      else _update_phase_relationships fuel net
  end
with set_wave_gait (fuel : nat) (coupling_strength : R)
    (reset_direction : bool) (net : CoupledOscillatorNetwork) {struct fuel}
    : result CoupledOscillatorNetwork :=
  match fuel with
  | O => Err RecursionError
  | S fuel =>
      let net := set_current_gait Wave net in
      let net := if reset_direction then set_direction_phase 0%R net else net in
      let net := set_matrices (zeros2 (n net) (n net), zeros2 (n net) (n net)) net in
      let net := set_matrices
        (wave_loops (n net) coupling_strength
           (coupling_weights net, phase_biases net)) net in
      if Req_dec_T (direction_phase net) 0 then Ok net
      else _update_phase_relationships fuel net
  end
with _update_phase_relationships (fuel : nat) (net : CoupledOscillatorNetwork)
    {struct fuel} : result CoupledOscillatorNetwork :=
  match fuel with
  | O => Err RecursionError
  | S fuel =>
      net ← match current_gait net with
            | Tripod => set_tripod_gait fuel 1%R false net
            | Wave => set_wave_gait fuel 1%R false net
            end;
      if Req_dec_T (direction_phase net) 0 then Ok net
      else Ok (set_phase_biases
                 (direction_loops (n net) (direction_phase net) (phase_biases net))
                 net)
  end.

(** [set_backward(self, backward=True)] and [set_forward(self)] *)
Definition set_backward (fuel : nat) (backward : bool) (net : CoupledOscillatorNetwork)
    : result CoupledOscillatorNetwork :=
  match fuel with
  | O => Err RecursionError
  | S fuel =>
      let net := set_direction_phase (if backward then PI else 0%R) net in
      _update_phase_relationships fuel net
  end.

Definition set_forward (fuel : nat) (net : CoupledOscillatorNetwork)
    : result CoupledOscillatorNetwork :=
  match fuel with
  | O => Err RecursionError
  | S fuel => set_backward fuel false net
  end.

(** [__init__] *)
Definition __init__ (fuel : nat) (n_oscillators : Z)
    (amplitude frequency mu now : R) : result CoupledOscillatorNetwork :=
  match fuel with
  | O => Err RecursionError
  | S fuel =>
      net ← init_fields n_oscillators amplitude frequency mu now;
      set_tripod_gait fuel 1%R true net
  end.

(** [reset(self)] of cpg_loconetwork.py *)
Definition reset (now : R) (net : CoupledOscillatorNetwork)
    : CoupledOscillatorNetwork :=
  let net := set_state (seed_state (n net)) net in
  let net := set_last_update_time now net in
  let net := restore_base net in
  set_turn_state false None 0%R net.

(** The networks a caller can hold: what [__init__] returned, followed by
    any calls that returned.  [strength_ok] restricts the coupling strengths
    passed to the gait setters. *)
Inductive reachable
    (odeint : (list R → R → list R) → list R → list R → list (list R))
    (strength_ok : R → Prop) : CoupledOscillatorNetwork → Prop :=
| reach_init fuel n_oscillators amplitude frequency mu now net :
    __init__ fuel n_oscillators amplitude frequency mu now = Ok net →
    reachable odeint strength_ok net
| reach_update dt now net net' xs :
    reachable odeint strength_ok net →
    update odeint dt now net = Ok (net', xs) →
    reachable odeint strength_ok net'
| reach_set_tripod_gait fuel coupling_strength reset_direction net net' :
    reachable odeint strength_ok net →
    strength_ok coupling_strength →
    set_tripod_gait fuel coupling_strength reset_direction net = Ok net' →
    reachable odeint strength_ok net'
| reach_set_wave_gait fuel coupling_strength reset_direction net net' :
    reachable odeint strength_ok net →
    strength_ok coupling_strength →
    set_wave_gait fuel coupling_strength reset_direction net = Ok net' →
    reachable odeint strength_ok net'
| reach_set_backward fuel backward net net' :
    reachable odeint strength_ok net →
    set_backward fuel backward net = Ok net' →
    reachable odeint strength_ok net'
| reach_set_forward fuel net net' :
    reachable odeint strength_ok net →
    set_forward fuel net = Ok net' →
    reachable odeint strength_ok net'
| reach_turn direction factor net :
    reachable odeint strength_ok net →
    reachable odeint strength_ok (turn direction factor net)
| reach_stop_turning net :
    reachable odeint strength_ok net →
    reachable odeint strength_ok (stop_turning net)
| reach_reset now net :
    reachable odeint strength_ok net →
    reachable odeint strength_ok (reset now net).

End LocoNetwork.

(** ** ledlocotest.py: the same class, whose [reset] stops after the
    amplitudes and frequencies *)

Module LedLocoTest.
Import Loco.

(** [reset(self)] of ledlocotest.py *)
Definition reset (now : R) (net : CoupledOscillatorNetwork)
    : CoupledOscillatorNetwork :=
  let net := set_state (seed_state (n net)) net in
  let net := set_last_update_time now net in
  restore_base net.

End LedLocoTest.

(** ** cpg_network.py: the plain network *)

Module Plain.

Record CoupledOscillatorNetwork : Type := mkNetwork {
  n : nat;
  amplitude : R;
  omega : R;
  mu : R;
  state : list R;
  coupling_weights : matrix;
  phase_biases : matrix;
  last_update_time : R
}.

Definition set_state (v : list R) (net : CoupledOscillatorNetwork)
    : CoupledOscillatorNetwork :=
  mkNetwork (n net) (amplitude net) (omega net) (mu net) v
    (coupling_weights net) (phase_biases net) (last_update_time net).

Definition set_matrices (cwpb : matrix * matrix) (net : CoupledOscillatorNetwork)
    : CoupledOscillatorNetwork :=
  mkNetwork (n net) (amplitude net) (omega net) (mu net) (state net)
    (fst cwpb) (snd cwpb) (last_update_time net).

Definition set_last_update_time (v : R) (net : CoupledOscillatorNetwork)
    : CoupledOscillatorNetwork :=
  mkNetwork (n net) (amplitude net) (omega net) (mu net) (state net)
    (coupling_weights net) (phase_biases net) v.

(** [equations(self, state, t)] *)
Definition equations (net : CoupledOscillatorNetwork) (state : list R) (t : R)
    : list R :=
  let derivatives := zeros (length state) in
  for_range (n net) (fun i derivatives =>
    let x_i := state !!! (2 * i)%nat in
    let y_i := state !!! (2 * i + 1)%nat in
    let r_squared := (x_i ^ 2 + y_i ^ 2)%R in
    let dx_i := (mu net * (amplitude net - r_squared) * x_i - omega net * y_i)%R in
    let dy_i := (mu net * (amplitude net - r_squared) * y_i + omega net * x_i)%R in
    let '(dx_i, dy_i) :=
      for_range (n net) (fun j '(dx_i, dy_i) =>
        if negb (i =? j)%nat then
          if Req_dec_T ((coupling_weights net !!! i) !!! j) 0 then (dx_i, dy_i)
          else
            let x_j := state !!! (2 * j)%nat in
            let y_j := state !!! (2 * j + 1)%nat in
            let phase_bias := (phase_biases net !!! i) !!! j in
            let coupling_term_x := (x_j * cos phase_bias - y_j * sin phase_bias)%R in
            let coupling_term_y := (x_j * sin phase_bias + y_j * cos phase_bias)%R in
            ((dx_i + (coupling_weights net !!! i) !!! j * (coupling_term_x - x_i))%R,
             (dy_i + (coupling_weights net !!! i) !!! j * (coupling_term_y - y_i))%R)
        else (dx_i, dy_i)) (dx_i, dy_i) in
    <[(2 * i + 1)%nat := dy_i]> (<[(2 * i)%nat := dx_i]> derivatives)) derivatives.

(** [update(self, dt=None)] *)
Definition update
    (odeint : (list R → R → list R) → list R → list R → list (list R))
    (dt : option R) (now : R) (net : CoupledOscillatorNetwork)
    : result (CoupledOscillatorNetwork * list R) :=
  let '(dt, net) :=
    match dt with
    | None => ((now - last_update_time net)%R, set_last_update_time now net)
    | Some dt => (dt, net)
    end in
  let t := [0%R; dt] in
  let state_trajectory := odeint (equations net) (state net) t in
  match last state_trajectory with
  | None => Err IndexError
  | Some s =>
      let net := set_state s net in
      match x_values (n net) (state net) with
      | None => Err IndexError
      | Some xs => Ok (net, xs)
      end
  end.

(** [set_tripod_gait(self, coupling_strength=1.0)] and
    [set_wave_gait(self, coupling_strength=1.0)] *)
Definition set_tripod_gait (coupling_strength : R) (net : CoupledOscillatorNetwork)
    : CoupledOscillatorNetwork :=
  let net := set_matrices (zeros2 (n net) (n net), zeros2 (n net) (n net)) net in
  set_matrices
    (tripod_loops (n net) coupling_strength (coupling_weights net, phase_biases net))
    net.

Definition set_wave_gait (coupling_strength : R) (net : CoupledOscillatorNetwork)
    : CoupledOscillatorNetwork :=
  let net := set_matrices (zeros2 (n net) (n net), zeros2 (n net) (n net)) net in
  set_matrices
    (wave_loops (n net) coupling_strength (coupling_weights net, phase_biases net))
    net.

Fixpoint run
    (odeint : (list R → R → list R) → list R → list R → list (list R))
    (ticks : list (option R * R)) (net : CoupledOscillatorNetwork)
    : result (CoupledOscillatorNetwork * list (list R)) :=
  match ticks with
  | [] => Ok (net, [])
  | (dt, now) :: ticks =>
      r ← update odeint dt now net;
      r' ← run odeint ticks (fst r);
      mret (fst r', snd r :: snd r')
  end.

(** [__init__] of cpg_network.py; [np.zeros] refuses a negative size. *)
Definition __init__ (n_oscillators : Z) (amplitude frequency mu now : R)
    : result CoupledOscillatorNetwork :=
  if (n_oscillators <? 0)%Z then Err ValueError
  else
    let n := Z.to_nat n_oscillators in
    Ok (set_tripod_gait 1%R
          (mkNetwork n amplitude (2 * PI * frequency)%R mu (seed_state n)
             (zeros2 n n) (zeros2 n n) now)).

(** [reset(self)] of cpg_network.py *)
Definition reset (now : R) (net : CoupledOscillatorNetwork)
    : CoupledOscillatorNetwork :=
  let net := set_state (seed_state (n net)) net in
  set_last_update_time now net.

End Plain.

(** ** cpg_single_hopf.py: one oscillator *)

Module Hopf.

Record HopfOscillator : Type := mkHopf {
  amplitude : R;
  omega : R;
  mu : R;
  x : R;
  y : R;
  last_update_time : R
}.

(** [equations(self, state, t)] with [x, y = state] *)
Definition equations (osc : HopfOscillator) (state : R * R) (t : R) : R * R :=
  let '(x, y) := state in
  let dx := (mu osc * (amplitude osc - (x ^ 2 + y ^ 2)) * x - omega osc * y)%R in
  let dy := (mu osc * (amplitude osc - (x ^ 2 + y ^ 2)) * y + omega osc * x)%R in
  (dx, dy).

End Hopf.

(** ** ledlocotest.py: the leg names, [get_active_legs],
    [HexapodController] and [leg_command_translator]

    What the controller prints and what it writes to the serial port is
    kept, in order, in a log of events; opening the port and writing to it
    are taken to succeed. *)

Module Controller.

(** The line feed that ends a command on the serial line (character 10). *)
Definition newline : string :=
  String (Ascii.Ascii false true false true false false false false) EmptyString.

(** The exceptions of this part: the [KeyError] of [leg_names[i]], or an
    exception of the network. *)
Inductive exception : Type :=
| KeyError (key : nat)
| NetworkError (e : error).

Inductive outcome (A : Type) : Type :=
| Return (a : A)
| Raise (e : exception).

Arguments Return {A} a.
Arguments Raise {A} e.

#[global] Instance outcome_ret : MRet outcome := fun A a => Return a.

#[global] Instance outcome_bind : MBind outcome :=
  fun A B k r => match r with Return a => k a | Raise e => Raise e end.

(** The dictionary [leg_names], written out three times in the file. *)
Definition leg_names : gmap nat string :=
  list_to_map [(0, "frontright"); (1, "frontleft"); (2, "midright");
               (3, "midleft"); (4, "backright"); (5, "backleft")].

(** [leg_names[i]] *)
Definition leg_name (i : nat) : outcome string :=
  match leg_names !! i with
  | Some name => Return name
  | None => Raise (KeyError i)
  end.

(** [if value > threshold: active_legs.append(leg_names[i])], the body of
    the three loops that collect the active legs. *)
Definition append_if_active (threshold : R) (i : nat) (value : R)
    (active_legs : list string) : outcome (list string) :=
  if Rlt_dec threshold value then
    name ← leg_name i;
    mret (active_legs ++ [name])
  else mret active_legs.

(** [get_active_legs(self, threshold=0.5)] of the network. *)
Definition get_active_legs (threshold : R) (net : Loco.CoupledOscillatorNetwork)
    : outcome (list string) :=
  for_range (Loco.n net) (fun i acc =>
    active_legs ← acc;
    match Loco.state net !! (2 * i)%nat with
    | Some x => append_if_active threshold i x active_legs
    | None => Raise (NetworkError IndexError)
    end) (mret []).

(** [print(...)] and [self.ser.write(...)]. *)
Inductive event : Type :=
| Print (line : string)
| SerialWrite (data : string).

Record HexapodController : Type := mkController {
  cpg : Loco.CoupledOscillatorNetwork;
  last_active_legs : list string;
  serial_enabled : bool;
  log : list event
}.

Definition set_cpg (net : Loco.CoupledOscillatorNetwork) (c : HexapodController)
    : HexapodController :=
  mkController net (last_active_legs c) (serial_enabled c) (log c).

Definition set_last_active_legs (legs : list string) (c : HexapodController)
    : HexapodController :=
  mkController (cpg c) legs (serial_enabled c) (log c).

Definition emit (e : event) (c : HexapodController) : HexapodController :=
  mkController (cpg c) (last_active_legs c) (serial_enabled c) (log c ++ [e]).

(** [HexapodController(serial_port=None, baud_rate=9600)]; the network is
    the class of the same file, whose constructor is that of
    cpg_loconetwork.py. *)
Definition __init__ (fuel : nat) (serial_port : option string) (now : R)
    : outcome HexapodController :=
  match LocoNetwork.__init__ fuel 6 1 1 1 now with
  | Ok net =>
      Return (mkController net []
                (match serial_port with Some _ => true | None => false end) [])
  | Err e => Raise (NetworkError e)
  end.

(** [_send_command(self, command)] *)
Definition _send_command (command : string) (c : HexapodController)
    : HexapodController :=
  let c := emit (Print ("Command: " +:+ command)) c in
  if serial_enabled c then
    emit (SerialWrite (command +:+ newline)) c
  else c.

(** [update(self, dt=None)] *)
Definition update
    (odeint : (list R → R → list R) → list R → list R → list (list R))
    (dt : option R) (now : R) (c : HexapodController)
    : outcome (HexapodController * list string) :=
  match Loco.update odeint dt now (cpg c) with
  | Err e => Raise (NetworkError e)
  | Ok (net, outputs) =>
      let c := set_cpg net c in
      active_legs ←
        for_range (Loco.n (cpg c)) (fun i acc =>
          active_legs ← acc;
          match outputs !! i with
          | Some x => append_if_active 0.5 i x active_legs
          | None => Raise (NetworkError IndexError)
          end) (mret []);
      if decide (active_legs ≠ last_active_legs c) then
        let c :=
          fold_left (fun c leg =>
            if decide (leg ∉ last_active_legs c) then _send_command leg c
            else c) active_legs c in
        let c :=
          if decide (active_legs = []) then _send_command "off" c else c in
        let c := set_last_active_legs active_legs c in
        Return (c, active_legs)
      else Return (c, active_legs)
  end.

(** [stop_turning(self)] *)
Definition stop_turning (c : HexapodController) : HexapodController :=
  let c := set_cpg (Loco.stop_turning (cpg c)) c in
  emit (Print "Stopped turning") c.

(** [reset(self)] *)
Definition reset (now : R) (c : HexapodController) : HexapodController :=
  let c := set_cpg (LedLocoTest.reset now (cpg c)) c in
  let c := set_last_active_legs [] c in
  let c := _send_command "off" c in
  emit (Print "Controller reset") c.

(** [leg_command_translator(outputs, threshold=0.5)] *)
Definition leg_command_translator (outputs : list R) (threshold : R)
    : outcome string :=
  active_legs ←
    fold_left (fun acc '(i, output) =>
      active_legs ← acc;
      append_if_active threshold i output active_legs)
      (imap pair outputs) (mret []);
  if decide (active_legs = []) then mret "off"
  else if decide (length active_legs = size leg_names) then mret "all"
  else mret (String.concat "," active_legs).

End Controller.

(** ** Vocabulary of the statements *)

(** The matrix invariant of the data model: both matrices are [n × n], the
    diagonals are 0, the coupling weights off the diagonal are not
    negative, and every phase bias lies in [0, 2π). *)
Definition matrices_ok (net : Loco.CoupledOscillatorNetwork) : Prop :=
  Loco.dims (Loco.n net) (Loco.coupling_weights net) ∧
  Loco.dims (Loco.n net) (Loco.phase_biases net) ∧
  ∀ i j, i < Loco.n net → j < Loco.n net →
    ∃ w p,
      mget (Loco.coupling_weights net) i j = Some w ∧
      mget (Loco.phase_biases net) i j = Some p ∧
      (i = j → w = 0%R ∧ p = 0%R) ∧
      (i ≠ j → (0 <= w)%R) ∧
      (0 <= p < 2 * PI)%R.

(** The matrices are those a gait builds, for some gait and strength. *)
Definition gait_built (strength_ok : R → Prop)
    (net : Loco.CoupledOscillatorNetwork) : Prop :=
  ∃ g cs,
    strength_ok cs ∧
    Loco.coupling_weights net = fst (gait_loops g (Loco.n net) cs) ∧
    Loco.phase_biases net = snd (gait_loops g (Loco.n net) cs).

(** The values the loops of [turn_right] and [turn_left] assign at index
    [i], with [f] the clamped factor. *)
Definition right_amplitude (net : Loco.CoupledOscillatorNetwork) (f : R)
    (i : nat) : R :=
  if (i mod 2 =? 0)%nat then (Loco.amplitude net * (1 - f * 0.5))%R
  else (Loco.amplitude net * (1 + f * 0.5))%R.

Definition right_frequency (net : Loco.CoupledOscillatorNetwork) (f : R)
    (i : nat) : R :=
  if (i mod 2 =? 0)%nat then (Loco.base_frequency net * (1 - f * 0.3))%R
  else (Loco.base_frequency net * (1 + f * 0.3))%R.

Definition left_amplitude (net : Loco.CoupledOscillatorNetwork) (f : R) (i : nat) : R :=
  if (i mod 2 =? 0)%nat then (Loco.amplitude net * (1 + f * 0.5))%R
  else (Loco.amplitude net * (1 - f * 0.5))%R.

Definition left_frequency (net : Loco.CoupledOscillatorNetwork) (f : R) (i : nat) : R :=
  if (i mod 2 =? 0)%nat then (Loco.base_frequency net * (1 + f * 0.3))%R
  else (Loco.base_frequency net * (1 - f * 0.3))%R.

(** Every per-oscillator amplitude and frequency is at its base value. *)
Definition at_base (net : Loco.CoupledOscillatorNetwork) : Prop :=
  ∀ i, i < Loco.n net →
    Loco.amplitudes net !! i = Some (Loco.amplitude net) ∧
    Loco.frequencies net !! i = Some (Loco.base_frequency net).

(** A plain and an extended network with the same configuration, state
    and matrices; the plain one stores ω = 2π·frequency, the extended one
    the frequency. *)
Definition same_network (ext : Loco.CoupledOscillatorNetwork)
    (plain : Plain.CoupledOscillatorNetwork) : Prop :=
  Plain.n plain = Loco.n ext ∧
  Plain.amplitude plain = Loco.amplitude ext ∧
  Plain.omega plain = (2 * PI * Loco.base_frequency ext)%R ∧
  Plain.mu plain = Loco.mu ext ∧
  Plain.state plain = Loco.state ext ∧
  Plain.coupling_weights plain = Loco.coupling_weights ext ∧
  Plain.phase_biases plain = Loco.phase_biases ext ∧
  Plain.last_update_time plain = Loco.last_update_time ext.

(** What a run gives its caller: the outputs of the ticks, or the error. *)
Definition outputs {A : Type} (r : result (A * list (list R)))
    : result (list (list R)) :=
  match r with Ok (_, out) => Ok out | Err e => Err e end.

(** The plain network with the fields of an extended one. *)
Definition plain_view (ext : Loco.CoupledOscillatorNetwork)
    : Plain.CoupledOscillatorNetwork :=
  Plain.mkNetwork (Loco.n ext) (Loco.amplitude ext)
    (2 * PI * Loco.base_frequency ext)%R (Loco.mu ext) (Loco.state ext)
    (Loco.coupling_weights ext) (Loco.phase_biases ext)
    (Loco.last_update_time ext).

(** ** Sample inputs *)

(** One explicit Euler step, an integrator to run [update] with:
    [odeint func y0 [t0; t1]] is [[y0; y0 + (t1 - t0) * func y0 t0]]. *)
Definition euler_odeint (func : list R → R → list R) (y0 : list R)
    (t : list R) : list (list R) :=
  match t with
  | [t0; t1] =>
      [y0; imap (fun i y => (y + (t1 - t0) * (func y0 t0 !!! i))%R) y0]
  | _ => map (fun _ => y0) t
  end.

(** [CoupledOscillatorNetwork(n_oscillators=1)] at time 0. *)
Definition single_oscillator : Loco.CoupledOscillatorNetwork :=
  NetworkLoco.set_tripod_gait 1%R true
    (Loco.mkNetwork 1 1%R 1%R (2 * PI * 1)%R 1%R
       (seed_state 1) (zeros2 1 1) (zeros2 1 1)
       (replicate 1 (1 * 1)%R) (replicate 1 (1 * 1)%R)
       Tripod 0%R false None 0%R 0%R).

(** [CoupledOscillatorNetwork()] of cpg_network_loco.py at time 0: six
    oscillators, amplitude, frequency and mu 1. *)
Definition hexapod : Loco.CoupledOscillatorNetwork :=
  NetworkLoco.set_tripod_gait 1%R true
    (Loco.mkNetwork 6 1%R 1%R (2 * PI * 1)%R 1%R
       (seed_state 6) (zeros2 6 6) (zeros2 6 6)
       (replicate 6 (1 * 1)%R) (replicate 6 (1 * 1)%R)
       Tripod 0%R false None 0%R 0%R).

(** [CoupledOscillatorNetwork()] of cpg_network.py at time 0. *)
Definition plain_hexapod : Plain.CoupledOscillatorNetwork :=
  Plain.set_tripod_gait 1%R
    (Plain.mkNetwork 6 1%R (2 * PI * 1)%R 1%R (seed_state 6)
       (zeros2 6 6) (zeros2 6 6) 0%R).

(** ** Vocabulary of the further properties *)

(** The value [turn] assigns at index [i], by direction. *)
Definition turn_amplitude (d : TurnDirection) (net : Loco.CoupledOscillatorNetwork)
    (f : R) (i : nat) : R :=
  match d with
  | TurnLeft => left_amplitude net f i
  | TurnRight => right_amplitude net f i
  end.

Definition turn_frequency (d : TurnDirection) (net : Loco.CoupledOscillatorNetwork)
    (f : R) (i : nat) : R :=
  match d with
  | TurnLeft => left_frequency net f i
  | TurnRight => right_frequency net f i
  end.

(** The turn state and the per-leg arrays agree: without a turn every leg
    is at its base values, in a turn every leg holds what the recorded
    direction and factor assign to it. *)
Definition turn_consistent (net : Loco.CoupledOscillatorNetwork) : Prop :=
  match Loco.turning_direction net with
  | None =>
      Loco.turning net = false ∧ Loco.turning_factor net = 0%R ∧ at_base net
  | Some d =>
      Loco.turning net = true ∧
      (0 <= Loco.turning_factor net <= 1)%R ∧
      ∀ i, i < Loco.n net →
        Loco.amplitudes net !! i
        = Some (turn_amplitude d net (Loco.turning_factor net) i) ∧
        Loco.frequencies net !! i
        = Some (turn_frequency d net (Loco.turning_factor net) i)
  end.

(** What every network held by a caller of cpg_loconetwork.py satisfies:
    the direction is forward, the per-leg arrays have [n] entries and
    agree with the turn state, and the matrices are those of the gait
    named by [current_gait], for some admitted coupling strength. *)
Definition loco_invariant (strength_ok : R → Prop)
    (net : Loco.CoupledOscillatorNetwork) : Prop :=
  Loco.direction_phase net = 0%R ∧
  length (Loco.amplitudes net) = Loco.n net ∧
  length (Loco.frequencies net) = Loco.n net ∧
  turn_consistent net ∧
  ∃ cs, strength_ok cs ∧
    (Loco.coupling_weights net, Loco.phase_biases net)
    = gait_loops (Loco.current_gait net) (Loco.n net) cs.

(** [sum_below f k] is [f 0 + ... + f (k - 1)]. *)
Fixpoint sum_below (f : nat → R) (k : nat) : R :=
  match k with
  | O => 0%R
  | S k => (sum_below f k + f k)%R
  end.

(** The pull of oscillator [j] on oscillator [i], in x and in y: the
    weight times the difference between oscillator [j] rotated by the
    phase bias and oscillator [i]; nothing for [j = i]. *)
Definition coupling_x (net : Loco.CoupledOscillatorNetwork) (st : list R)
    (i j : nat) : R :=
  if decide (i = j) then 0%R
  else ((Loco.coupling_weights net !!! i) !!! j
        * (st !!! (2 * j)%nat * cos ((Loco.phase_biases net !!! i) !!! j)
           - st !!! (2 * j + 1)%nat * sin ((Loco.phase_biases net !!! i) !!! j)
           - st !!! (2 * i)%nat))%R.

Definition coupling_y (net : Loco.CoupledOscillatorNetwork) (st : list R)
    (i j : nat) : R :=
  if decide (i = j) then 0%R
  else ((Loco.coupling_weights net !!! i) !!! j
        * (st !!! (2 * j)%nat * sin ((Loco.phase_biases net !!! i) !!! j)
           + st !!! (2 * j + 1)%nat * cos ((Loco.phase_biases net !!! i) !!! j)
           - st !!! (2 * i + 1)%nat))%R.

(** The free Hopf field of oscillator [i] of a network at a state vector. *)
Definition free_x (net : Loco.CoupledOscillatorNetwork) (st : list R)
    (i : nat) : R :=
  (Loco.mu net
   * (Loco.amplitudes net !!! i - ((st !!! (2 * i)%nat) ^ 2 + (st !!! (2 * i + 1)%nat) ^ 2))
   * st !!! (2 * i)%nat
   - 2 * PI * (Loco.frequencies net !!! i) * st !!! (2 * i + 1)%nat)%R.

Definition free_y (net : Loco.CoupledOscillatorNetwork) (st : list R)
    (i : nat) : R :=
  (Loco.mu net
   * (Loco.amplitudes net !!! i - ((st !!! (2 * i)%nat) ^ 2 + (st !!! (2 * i + 1)%nat) ^ 2))
   * st !!! (2 * i + 1)%nat
   + 2 * PI * (Loco.frequencies net !!! i) * st !!! (2 * i)%nat)%R.

(** The flat vector [x 0, y 0, x 1, y 1, ...] of [k] oscillators. *)
Definition interleave (fx fy : nat → R) (k : nat) : list R :=
  flat_map (fun i => [fx i; fy i]) (seq 0 k).





(** Which values lie above the threshold, and the names of the legs a
    list of flags selects, the first flag being that of leg [k]. *)
Definition above (threshold : R) (values : list R) : list bool :=
  map (fun v => if Rlt_dec threshold v then true else false) values.

Fixpoint names_of (k : nat) (flags : list bool)
    : Controller.outcome (list string) :=
  match flags with
  | [] => Controller.Return []
  | b :: flags =>
      if b then
        name ← Controller.leg_name k;
        names ← names_of (S k) flags;
        mret (name :: names)
      else names_of (S k) flags
  end.

(** The command that stands for the legs a list of flags selects. *)
Definition command_of (flags : list bool) : Controller.outcome string :=
  active_legs ← names_of 0 flags;
  if decide (active_legs = []) then mret "off"
  else if decide (length active_legs = 6) then mret "all"
  else mret (String.concat "," active_legs).

(** Oscillator [i] of [values] is above the threshold. *)
Definition active (threshold : R) (values : list R) (i : nat) : Prop :=
  ∃ v, values !! i = Some v ∧ (threshold < v)%R.

(** The events of sending a list of commands. *)
Definition send_events (serial : bool) (commands : list string)
    : list Controller.event :=
  flat_map (fun command =>
    Controller.Print ("Command: " +:+ command)
    :: (if serial
        then [Controller.SerialWrite (command +:+ Controller.newline)]
        else [])) commands.

(** All lists of [k] flags. *)
Fixpoint all_flags (k : nat) : list (list bool) :=
  match k with
  | O => [[]]
  | S k => flat_map (fun m => [true :: m; false :: m]) (all_flags k)
  end.

#[global] Instance error_eq_dec : EqDecision error.
Proof. solve_decision. Defined.

#[global] Instance exception_eq_dec : EqDecision Controller.exception.
Proof. solve_decision. Defined.

#[global] Instance outcome_eq_dec {A : Type} `{EqDecision A}
  : EqDecision (Controller.outcome A).
Proof. solve_decision. Defined.

(** A controller as [HexapodController()] builds it at time 0. *)
Definition hexapod_controller : Controller.HexapodController :=
  Controller.mkController hexapod [] false [].

(** * Properties *)

(** ** Floored remainder *)

Lemma Rfmod_range (x y : R) : (0 < y)%R → (0 <= Rfmod x y < y)%R.
Proof.
  intros Hy. unfold Rfmod.
  destruct (base_Int_part (x / y)) as [Hlo Hhi].
  assert (Hx : x = (y * (x / y))%R) by (field; lra).
  set (q := IZR (Int_part (x / y))) in *.
  set (r := (x / y)%R) in *.
  split; nra.
Qed.

Lemma Rfmod_small (x y : R) : (0 <= x < y)%R → Rfmod x y = x.
Proof.
  intros [Hx Hy]. unfold Rfmod.
  assert (Hq : (0 <= x / y < 1)%R).
  { split.
    - apply Rmult_le_pos; [lra|]. left. apply Rinv_0_lt_compat. lra.
    - apply (Rmult_lt_reg_r y); [lra|]. field_simplify; lra. }
  rewrite <- (Int_part_spec (x / y) 0); simpl; lra.
Qed.


Lemma two_PI_pos : (0 < 2 * PI)%R.
Proof. pose proof PI_RGT_0. lra. Qed.

(** ** Loops *)

Lemma for_range_S {St : Type} (k : nat) (body : nat → St → St) (s : St) :
  for_range (S k) body s = body k (for_range k body s).
Proof. unfold for_range. rewrite seq_S, fold_left_app. reflexivity. Qed.

(** Loop invariants: [P i] holds before iteration [i]. *)
Lemma for_range_ind {St : Type} (P : nat → St → Prop) (k : nat)
    (body : nat → St → St) (s : St) :
  P 0%nat s →
  (∀ i s, i < k → P i s → P (S i) (body i s)) →
  P k (for_range k body s).
Proof.
  intros H0 Hstep. induction k as [|k IH]; [exact H0|].
  rewrite for_range_S. apply Hstep; [lia|].
  apply IH. intros i s' Hi. apply Hstep. lia.
Qed.

Lemma for_range_ext {St : Type} (k : nat) (f g : nat → St → St) (s : St) :
  (∀ i s, i < k → f i s = g i s) → for_range k f s = for_range k g s.
Proof.
  intros Hfg. induction k as [|k IH]; [reflexivity|].
  rewrite !for_range_S, IH by (intros; apply Hfg; lia). apply Hfg. lia.
Qed.

(** A loop on a pair whose body treats the components separately. *)
Lemma for_range_pair {A B : Type} (k : nat) (f : nat → A → A)
    (g : nat → B → B) (a : A) (b : B) :
  for_range k (fun i '(a, b) => (f i a, g i b)) (a, b)
  = (for_range k f a, for_range k g b).
Proof.
  induction k as [|k IH]; [reflexivity|].
  rewrite !for_range_S, IH. reflexivity.
Qed.

(** ** Matrices *)

Lemma dims_zeros2 (k : nat) : Loco.dims k (zeros2 k k).
Proof.
  split; [apply length_replicate|].
  intros i row Hi. apply lookup_replicate in Hi as [-> _]. apply length_replicate.
Qed.

Lemma zeros2_lookup (k a b : nat) :
  a < k → b < k → (zeros2 k k !!! a) !!! b = 0%R.
Proof.
  intros Ha Hb. unfold zeros2, zeros.
  rewrite lookup_total_replicate_2 by done. by rewrite lookup_total_replicate_2.
Qed.

Lemma dims_row (k : nat) (M : matrix) (i : nat) :
  Loco.dims k M → i < k → length (M !!! i) = k.
Proof.
  intros [Hlen Hrows] Hi. apply (Hrows i).
  apply list_lookup_lookup_total_lt. lia.
Qed.

Lemma dims_mget (k : nat) (M : matrix) (i j : nat) :
  Loco.dims k M → i < k → j < k → mget M i j = Some ((M !!! i) !!! j).
Proof.
  intros HM Hi Hj. unfold mget.
  rewrite (list_lookup_lookup_total_lt M i) by (destruct HM; lia). simpl.
  apply list_lookup_lookup_total_lt. rewrite (dims_row k) by done. lia.
Qed.

Lemma dims_mset (k : nat) (M : matrix) (i j : nat) (v : R) :
  Loco.dims k M → Loco.dims k (mset M i j v).
Proof.
  intros HM. pose proof HM as [Hlen Hrows]. unfold mset. split.
  - by rewrite length_insert.
  - intros a row Ha. destruct (decide (i = a)) as [->|Hne].
    + destruct (decide (a < length M)) as [Hlt|Hge].
      * rewrite list_lookup_insert_eq in Ha by done. injection Ha as <-.
        rewrite length_insert. apply (dims_row k); [done|lia].
      * rewrite list_insert_ge in Ha by lia. eauto.
    + rewrite list_lookup_insert_ne in Ha by done. eauto.
Qed.

Lemma mset_lookup (k : nat) (M : matrix) (i j : nat) (v : R) (a b : nat) :
  Loco.dims k M → i < k → j < k →
  (mset M i j v !!! a) !!! b
  = if decide (a = i ∧ b = j) then v else (M !!! a) !!! b.
Proof.
  intros HM Hi Hj. unfold mset.
  destruct (decide (a = i)) as [->|Hne].
  - rewrite list_lookup_total_insert_eq by (destruct HM; lia).
    destruct (decide (b = j)) as [->|Hb].
    + rewrite decide_True by done.
      apply list_lookup_total_insert_eq. rewrite (dims_row k) by done. lia.
    + rewrite decide_False by (intros []; done).
      by rewrite list_lookup_total_insert_ne.
  - rewrite decide_False by (intros []; done).
    by rewrite list_lookup_total_insert_ne.
Qed.

(** One row of a [cells] loop nest: row [i] is rewritten, cell by cell,
    from the values it holds when the row starts. *)
Lemma cells_row_spec (k : nat) (g : nat → R → R) (i : nat) (M : matrix) :
  Loco.dims k M → i < k →
  Loco.dims k (for_range k (fun j M' =>
     if negb (i =? j)%nat then mset M' i j (g j ((M' !!! i) !!! j)) else M') M) ∧
  ∀ a b, a < k → b < k →
    (for_range k (fun j M' =>
       if negb (i =? j)%nat then mset M' i j (g j ((M' !!! i) !!! j)) else M') M
     !!! a) !!! b
    = if decide (a = i ∧ a ≠ b) then g b ((M !!! a) !!! b) else (M !!! a) !!! b.
Proof.
  intros HM Hi.
  pose proof (for_range_ind (fun j M2 =>
    Loco.dims k M2 ∧
    ∀ a b, a < k → b < k →
      (M2 !!! a) !!! b
      = if decide (a = i ∧ b < j ∧ a ≠ b) then g b ((M !!! a) !!! b)
        else (M !!! a) !!! b) k
    (fun j M' =>
       if negb (i =? j)%nat then mset M' i j (g j ((M' !!! i) !!! j)) else M') M)
    as Hloop.
  destruct Hloop as [Hd Hg].
  - split; [done|]. intros a b _ _. rewrite decide_False by lia. done.
  - intros j M2 Hj [HM2 H2]. destruct (Nat.eqb_spec i j) as [->|Hij]; simpl.
    + split; [done|]. intros a b Ha Hb. rewrite H2 by done.
      destruct (decide (a = j ∧ b < j ∧ a ≠ b));
        destruct (decide (a = j ∧ b < S j ∧ a ≠ b)); try done; lia.
    + split; [by apply dims_mset|]. intros a b Ha Hb.
      rewrite (mset_lookup k) by done.
      destruct (decide (a = i ∧ b = j)) as [[-> ->]|Hne].
      * rewrite decide_True by lia. f_equal.
        rewrite H2 by done. rewrite decide_False by lia. done.
      * rewrite H2 by done.
        destruct (decide (a = i ∧ b < j ∧ a ≠ b));
          destruct (decide (a = i ∧ b < S j ∧ a ≠ b)); try done; lia.
  - split; [done|]. intros a b Ha Hb. rewrite Hg by done.
    destruct (decide (a = i ∧ b < k ∧ a ≠ b));
      destruct (decide (a = i ∧ a ≠ b)); try done; lia.
Qed.

(** What a loop nest of the [cells] shape computes on an [n × n] matrix:
    the shape is kept, the diagonal is kept, and every other cell holds
    [f i j] of the value it had before the loops. *)
Lemma cells_spec (k : nat) (f : nat → nat → R → R) (M : matrix) :
  Loco.dims k M →
  Loco.dims k (cells k f M) ∧
  ∀ a b, a < k → b < k →
    (cells k f M !!! a) !!! b
    = if decide (a = b) then (M !!! a) !!! b else f a b ((M !!! a) !!! b).
Proof.
  intros HM. unfold cells.
  pose proof (for_range_ind (fun i M' =>
    Loco.dims k M' ∧
    ∀ a b, a < k → b < k →
      (M' !!! a) !!! b
      = if decide (a < i ∧ a ≠ b) then f a b ((M !!! a) !!! b)
        else (M !!! a) !!! b) k
    (fun i => for_range k (fun j M' =>
       if negb (i =? j)%nat then mset M' i j (f i j ((M' !!! i) !!! j)) else M')) M)
    as Hloop.
  destruct Hloop as [Hd Hg].
  - split; [done|]. intros a b _ _. rewrite decide_False by lia. done.
  - intros i M1 Hi [HM1 H1].
    destruct (cells_row_spec k (f i) i M1 HM1 Hi) as [Hd Hr].
    split; [done|]. intros a b Ha Hb. rewrite Hr by done.
    destruct (decide (a = i ∧ a ≠ b)) as [[-> ?]|Hne].
    + rewrite decide_True by lia. rewrite H1 by done.
      rewrite decide_False by lia. done.
    + rewrite H1 by done.
      destruct (decide (a < i ∧ a ≠ b));
        destruct (decide (a < S i ∧ a ≠ b)); try done; lia.
  - split; [done|]. intros a b Ha Hb. rewrite Hg by done.
    destruct (decide (a < k ∧ a ≠ b)); destruct (decide (a = b)); try done; lia.
Qed.

(** The gait loops write the two matrices independently of each other. *)
Lemma pair_loops_cells (k : nat) (fc fp : nat → nat → R → R) (cw pb : matrix) :
  for_range k (fun i =>
    for_range k (fun j '(cw, pb) =>
      if negb (i =? j)%nat then
        (mset cw i j (fc i j ((cw !!! i) !!! j)),
         mset pb i j (fp i j ((pb !!! i) !!! j)))
      else (cw, pb))) (cw, pb)
  = (cells k fc cw, cells k fp pb).
Proof.
  unfold cells.
  rewrite <- (for_range_pair k
    (fun i => for_range k (fun j M =>
       if negb (i =? j)%nat then mset M i j (fc i j ((M !!! i) !!! j)) else M))
    (fun i => for_range k (fun j M =>
       if negb (i =? j)%nat then mset M i j (fp i j ((M !!! i) !!! j)) else M))).
  apply for_range_ext. intros i [a b] _.
  rewrite <- for_range_pair.
  apply for_range_ext. intros j [a' b'] _.
  destruct (negb (i =? j)%nat); reflexivity.
Qed.

Lemma tripod_loops_cells (k : nat) (cs : R) (cw pb : matrix) :
  tripod_loops k cs (cw, pb)
  = (cells k (fun _ _ _ => cs) cw, cells k (fun i j _ => tripod_phase i j) pb).
Proof.
  exact (pair_loops_cells k (fun _ _ _ => cs) (fun i j _ => tripod_phase i j) cw pb).
Qed.

Lemma wave_loops_cells (k : nat) (cs : R) (cw pb : matrix) :
  wave_loops k cs (cw, pb)
  = (cells k (fun _ _ _ => cs) cw, cells k (fun i j _ => wave_phase k i j) pb).
Proof.
  exact (pair_loops_cells k (fun _ _ _ => cs) (fun i j _ => wave_phase k i j) cw pb).
Qed.

Lemma direction_loops_cells (k : nat) (dp : R) (pb : matrix) :
  direction_loops k dp pb = cells k (fun _ _ v => Rfmod (v + dp) (2 * PI)) pb.
Proof. reflexivity. Qed.

Lemma gait_loops_cells (g : Gait) (k : nat) (cs : R) :
  gait_loops g k cs
  = (cells k (fun _ _ _ => cs) (zeros2 k k),
     cells k (fun i j _ => gait_phase g k i j) (zeros2 k k)).
Proof. destruct g; [apply tripod_loops_cells|apply wave_loops_cells]. Qed.

Lemma gait_loops_spec (g : Gait) (k : nat) (cs : R) :
  Loco.dims k (fst (gait_loops g k cs)) ∧
  Loco.dims k (snd (gait_loops g k cs)) ∧
  ∀ a b, a < k → b < k →
    (fst (gait_loops g k cs) !!! a) !!! b = (if decide (a = b) then 0%R else cs) ∧
    (snd (gait_loops g k cs) !!! a) !!! b
    = (if decide (a = b) then 0%R else gait_phase g k a b).
Proof.
  rewrite gait_loops_cells. simpl.
  destruct (cells_spec k (fun _ _ _ => cs) (zeros2 k k) (dims_zeros2 k))
    as [Hc1 Hc2].
  destruct (cells_spec k (fun i j _ => gait_phase g k i j) (zeros2 k k)
              (dims_zeros2 k)) as [Hp1 Hp2].
  split; [done|]. split; [done|]. intros a b Ha Hb.
  rewrite Hc2, Hp2 by done. rewrite zeros2_lookup by done. done.
Qed.

(** ** Ranges of the phase biases *)

Lemma tripod_phase_decide (i j : nat) :
  tripod_phase i j = if decide (i mod 2 = j mod 2) then 0%R else PI.
Proof.
  unfold tripod_phase.
  destruct (Nat.eqb_spec (i mod 2) (j mod 2)); destruct (decide _); done.
Qed.

Lemma tripod_phase_range (i j : nat) : (0 <= tripod_phase i j < 2 * PI)%R.
Proof.
  pose proof PI_RGT_0. unfold tripod_phase.
  destruct (i mod 2 =? j mod 2)%nat; lra.
Qed.

Lemma wave_phase_range (k i j : nat) :
  0 < k → (0 <= wave_phase k i j < 2 * PI)%R.
Proof.
  intros Hk. pose proof PI_RGT_0 as Hpi. unfold wave_phase.
  assert (Hn : (0 < INR k)%R) by (apply lt_0_INR; lia).
  destruct (Z.mod_pos_bound (Z.of_nat j - Z.of_nat i) (Z.of_nat k)) as [Hlo Hhi];
    [lia|].
  set (m := ((Z.of_nat j - Z.of_nat i) mod Z.of_nat k)%Z) in *.
  assert (Hm0 : (0 <= IZR m)%R) by (apply IZR_le; lia).
  assert (Hm1 : (IZR m < INR k)%R).
  { rewrite INR_IZR_INZ. apply IZR_lt. lia. }
  assert (Heq : (2 * PI / INR k * IZR m = 2 * PI * (IZR m / INR k))%R)
    by (field; lra).
  rewrite Heq.
  assert (Hq0 : (0 <= IZR m / INR k)%R).
  { apply Rmult_le_pos; [done|]. left. by apply Rinv_0_lt_compat. }
  assert (Hq1 : (IZR m / INR k < 1)%R).
  { apply (Rmult_lt_reg_r (INR k)); [done|]. field_simplify; lra. }
  split; nra.
Qed.

Lemma gait_phase_range (g : Gait) (k i j : nat) :
  0 < k → (0 <= gait_phase g k i j < 2 * PI)%R.
Proof.
  destruct g; simpl; [intros _; apply tripod_phase_range|apply wave_phase_range].
Qed.

(** ** cpg_network_loco.py: gaits and direction *)

Section NetworkLocoFacts.
Import Loco.

(** A gait setter stores the tag, clears the direction on request and
    replaces both matrices by the ones its loops build. *)
Lemma nl_set_tripod_gait_eq (cs : R) (rd : bool) (net : CoupledOscillatorNetwork) :
  NetworkLoco.set_tripod_gait cs rd net
  = set_matrices (gait_loops Tripod (n net) cs)
      (if rd then set_direction_phase 0%R (set_current_gait Tripod net)
       else set_current_gait Tripod net).
Proof. destruct net, rd; reflexivity. Qed.

Lemma nl_set_wave_gait_eq (cs : R) (rd : bool) (net : CoupledOscillatorNetwork) :
  NetworkLoco.set_wave_gait cs rd net
  = set_matrices (gait_loops Wave (n net) cs)
      (if rd then set_direction_phase 0%R (set_current_gait Wave net)
       else set_current_gait Wave net).
Proof. destruct net, rd; reflexivity. Qed.

(** [_update_phase_relationships] rebuilds the current gait with the
    default coupling strength 1 and then shifts the phases when the
    direction phase is not 0. *)
Lemma nl_update_phase_relationships_eq (net : CoupledOscillatorNetwork) :
  NetworkLoco._update_phase_relationships net
  = let base := gait_loops (current_gait net) (n net) 1%R in
    set_matrices
      (fst base,
       if Req_dec_T (direction_phase net) 0 then snd base
       else direction_loops (n net) (direction_phase net) (snd base))
      net.
Proof.
  unfold NetworkLoco._update_phase_relationships.
  destruct net as [k A f w m st cw pb fr am g dp tu td tf lu].
  destruct g; simpl; destruct (Req_dec_T dp 0); reflexivity.
Qed.

Lemma nl_set_backward_eq (backward : bool) (net : CoupledOscillatorNetwork) :
  NetworkLoco.set_backward backward net
  = let base := gait_loops (current_gait net) (n net) 1%R in
    set_matrices
      (fst base,
       if backward then direction_loops (n net) PI (snd base) else snd base)
      (set_direction_phase (if backward then PI else 0%R) net).
Proof.
  unfold NetworkLoco.set_backward. rewrite nl_update_phase_relationships_eq.
  destruct net as [k A f w m st cw pb fr am g dp tu td tf lu]. simpl.
  destruct backward.
  - destruct (Req_dec_T PI 0) as [Hpi|_]; [|reflexivity].
    pose proof PI_RGT_0. lra.
  - destruct (Req_dec_T 0 0) as [_|Hne]; [reflexivity|done].
Qed.

(** The direction shift on a gait's matrix: shape, diagonal and cells. *)
Lemma direction_loops_spec (k : nat) (dp : R) (pb : matrix) :
  dims k pb →
  dims k (direction_loops k dp pb) ∧
  ∀ a b, a < k → b < k →
    (direction_loops k dp pb !!! a) !!! b
    = if decide (a = b) then (pb !!! a) !!! b
      else Rfmod ((pb !!! a) !!! b + dp) (2 * PI).
Proof.
  intros Hpb. rewrite direction_loops_cells.
  exact (cells_spec k (fun _ _ v => Rfmod (v + dp) (2 * PI)) pb Hpb).
Qed.

(** In cpg_network_loco.py [set_backward] does what the direction
    modulator is meant to do: the phase biases are those of the current
    gait, shifted by the direction phase modulo 2π off the diagonal; the
    coupling weights are those of the default strength 1. *)
Lemma nl_set_backward_spec (backward : bool) (net : CoupledOscillatorNetwork) :
  let net' := NetworkLoco.set_backward backward net in
  direction_phase net' = (if backward then PI else 0%R) ∧
  current_gait net' = current_gait net ∧
  n net' = n net ∧
  dims (n net) (coupling_weights net') ∧
  dims (n net) (phase_biases net') ∧
  ∀ a b, a < n net → b < n net →
    mget (coupling_weights net') a b = Some (if decide (a = b) then 0%R else 1%R) ∧
    mget (phase_biases net') a b
    = Some (if decide (a = b) then 0%R
            else Rfmod (gait_phase (current_gait net) (n net) a b
                        + (if backward then PI else 0%R)) (2 * PI)).
Proof.
  intros net'. subst net'. rewrite nl_set_backward_eq.
  destruct (gait_loops_spec (current_gait net) (n net) 1%R) as (Hcw & Hpb & Hcells).
  destruct (direction_loops_spec (n net) PI _ Hpb) as [Hd Hshift].
  destruct net as [k A f w m st cw pb fr am g dp tu td tf lu]. simpl in *.
  split; [done|]. split; [done|]. split; [done|]. split; [done|].
  split; [by destruct backward|].
  intros a b Ha Hb. destruct (Hcells a b Ha Hb) as [Hc Hp]. split.
  - rewrite (dims_mget k) by done. by rewrite Hc.
  - destruct backward.
    + rewrite (dims_mget k) by done. rewrite Hshift by done. rewrite Hp.
      destruct (decide (a = b)); done.
    + rewrite (dims_mget k) by done. rewrite Hp.
      destruct (decide (a = b)); [done|].
      rewrite Rplus_0_r, Rfmod_small; [done|].
      apply gait_phase_range. lia.
Qed.

(** Backward and forward again: the phase biases are exactly the matrix
    the gait's own loops build. *)
Lemma nl_set_backward_round_trip (net : CoupledOscillatorNetwork) :
  phase_biases (NetworkLoco.set_backward false (NetworkLoco.set_backward true net))
  = snd (gait_loops (current_gait net) (n net) 1%R).
Proof.
  rewrite !nl_set_backward_eq. destruct net; reflexivity.
Qed.

End NetworkLocoFacts.

(** ** cpg_loconetwork.py: gaits and direction *)

Section LocoNetworkFacts.
Import Loco.

(** With the direction forward the gait setters return after one call, and
    do what the setters of cpg_network_loco.py do. *)
Lemma ln_set_tripod_gait_forward (fuel : nat) (cs : R) (rd : bool)
    (net : CoupledOscillatorNetwork) :
  rd = true ∨ direction_phase net = 0%R →
  LocoNetwork.set_tripod_gait (S fuel) cs rd net
  = Ok (NetworkLoco.set_tripod_gait cs rd net).
Proof.
  intros Hfwd. destruct net as [k A f w m st cw pb fr am g dp tu td tf lu].
  simpl in *. destruct rd; simpl.
  - destruct (Req_dec_T 0 0); [reflexivity|done].
  - destruct Hfwd as [Hrd | ->]; [done|].
    destruct (Req_dec_T 0 0); [reflexivity|done].
Qed.

Lemma ln_set_wave_gait_forward (fuel : nat) (cs : R) (rd : bool)
    (net : CoupledOscillatorNetwork) :
  rd = true ∨ direction_phase net = 0%R →
  LocoNetwork.set_wave_gait (S fuel) cs rd net
  = Ok (NetworkLoco.set_wave_gait cs rd net).
Proof.
  intros Hfwd. destruct net as [k A f w m st cw pb fr am g dp tu td tf lu].
  simpl in *. destruct rd; simpl.
  - destruct (Req_dec_T 0 0); [reflexivity|done].
  - destruct Hfwd as [Hrd | ->]; [done|].
    destruct (Req_dec_T 0 0); [reflexivity|done].
Qed.

(** With a direction phase other than 0 the three methods call each other
    without end: whatever the depth allowed, the stack runs out. *)
Lemma ln_backward_recursion (fuel : nat) :
  (∀ cs net, direction_phase net ≠ 0%R →
     LocoNetwork.set_tripod_gait fuel cs false net = Err RecursionError) ∧
  (∀ cs net, direction_phase net ≠ 0%R →
     LocoNetwork.set_wave_gait fuel cs false net = Err RecursionError) ∧
  (∀ net, direction_phase net ≠ 0%R →
     LocoNetwork._update_phase_relationships fuel net = Err RecursionError).
Proof.
  induction fuel as [|fuel (IHt & IHw & IHu)]; [done|].
  split; [|split].
  - intros cs net Hdp. simpl.
    destruct (Req_dec_T _ _) as [H0|_]; [by destruct net|].
    apply IHu. by destruct net.
  - intros cs net Hdp. simpl.
    destruct (Req_dec_T _ _) as [H0|_]; [by destruct net|].
    apply IHu. by destruct net.
  - intros net Hdp. simpl.
    destruct (current_gait net); [rewrite IHt by done|rewrite IHw by done]; done.
Qed.

End LocoNetworkFacts.

(** ** The sample network *)

Example hexapod_constructed_network_loco :
  NetworkLoco.__init__ 6 1 1 1 0 = Ok hexapod.
Proof. reflexivity. Qed.

Example hexapod_constructed_loconetwork (fuel : nat) :
  LocoNetwork.__init__ (S (S fuel)) 6 1 1 1 0 = Ok hexapod.
Proof.
  change (LocoNetwork.__init__ (S (S fuel)) 6 1 1 1 0)
    with (LocoNetwork.set_tripod_gait (S fuel) 1%R true
            (Loco.mkNetwork 6 1%R 1%R (2 * PI * 1)%R 1%R
               (seed_state 6) (zeros2 6 6) (zeros2 6 6)
               (replicate 6 (1 * 1)%R) (replicate 6 (1 * 1)%R)
               Tripod 0%R false None 0%R 0%R)).
  rewrite ln_set_tripod_gait_forward by (left; reflexivity). reflexivity.
Qed.

Lemma hexapod_n : Loco.n hexapod = 6.
Proof. reflexivity. Qed.

Lemma hexapod_amplitude : Loco.amplitude hexapod = 1%R.
Proof. reflexivity. Qed.

Lemma hexapod_base_frequency : Loco.base_frequency hexapod = 1%R.
Proof. reflexivity. Qed.

Lemma hexapod_direction_phase : Loco.direction_phase hexapod = 0%R.
Proof. reflexivity. Qed.

Lemma hexapod_current_gait : Loco.current_gait hexapod = Tripod.
Proof. reflexivity. Qed.

(** ** Direction (C1, C2) and gait matrices (C3) *)

Lemma ln_set_backward_true_diverges (fuel : nat) (net : Loco.CoupledOscillatorNetwork) :
  LocoNetwork.set_backward fuel true net = Err RecursionError.
Proof.
  destruct fuel as [|fuel]; [reflexivity|]. simpl.
  apply ln_backward_recursion.
  destruct net; simpl. pose proof PI_RGT_0. lra.
Qed.

(** C1 (defect of cpg_loconetwork.py and ledlocotest.py).  The claim wants
    [set_backward(True)] to return with the phase biases of the current
    gait shifted by π.  In cpg_loconetwork.py it never returns:
    [_update_phase_relationships] calls the gait setter, the gait setter
    sees a direction phase other than 0 and calls
    [_update_phase_relationships] again, and so on; whatever the depth
    allowed, the call ends in [RecursionError], on every network.  Only
    [set_backward(False)] returns (three nested calls are enough), with
    the result of cpg_network_loco.py. *)
Theorem set_backward_true_recursion_error (fuel : nat)
    (net : Loco.CoupledOscillatorNetwork) :
  LocoNetwork.set_backward fuel true net = Err RecursionError ∧
  LocoNetwork.set_backward (S (S (S fuel))) false net
  = Ok (NetworkLoco.set_backward false net).
Proof.
  split; [apply ln_set_backward_true_diverges|].
  change (LocoNetwork.set_backward (S (S (S fuel))) false net)
    with (match Loco.current_gait net with
          | Tripod => LocoNetwork.set_tripod_gait (S fuel) 1%R false
                        (Loco.set_direction_phase 0%R net)
          | Wave => LocoNetwork.set_wave_gait (S fuel) 1%R false
                      (Loco.set_direction_phase 0%R net)
          end ≫= fun net =>
          if Req_dec_T (Loco.direction_phase net) 0 then Ok net
          else Ok (Loco.set_phase_biases
                     (direction_loops (Loco.n net) (Loco.direction_phase net)
                        (Loco.phase_biases net)) net)).
  unfold NetworkLoco.set_backward, NetworkLoco._update_phase_relationships.
  destruct net as [k A f w m st cw pb fr am g dp tu td tf lu].
  destruct g; simpl Loco.current_gait; cbv iota.
  - rewrite ln_set_tripod_gait_forward by (by right). simpl.
    destruct (Req_dec_T 0 0); done.
  - rewrite ln_set_wave_gait_forward by (by right). simpl.
    destruct (Req_dec_T 0 0); done.
Qed.

(** C2 (defect).  The claim wants a gait applied with
    [reset_direction=False] while the direction phase is π to leave the new
    gait's matrix shifted by π.  In cpg_network_loco.py the setter stops
    after the base matrix: on the default network, [set_backward(True)] then
    [set_wave_gait(reset_direction=False)] leaves the direction phase π and
    the entry (0, 1) at the unshifted π/3.  In cpg_loconetwork.py the same
    setter, on a network whose direction phase is π, ends in
    [RecursionError] at every depth. *)
Theorem gait_switch_drops_backward_shift :
  let net :=
    NetworkLoco.set_wave_gait 1 false (NetworkLoco.set_backward true hexapod) in
  Loco.direction_phase net = PI ∧
  mget (Loco.phase_biases net) 0 1 = Some (wave_phase 6 0 1) ∧
  wave_phase 6 0 1 ≠ Rfmod (wave_phase 6 0 1 + PI) (2 * PI) ∧
  ∀ fuel cs,
    LocoNetwork.set_wave_gait fuel cs false (Loco.set_direction_phase PI hexapod)
    = Err RecursionError ∧
    LocoNetwork.set_tripod_gait fuel cs false (Loco.set_direction_phase PI hexapod)
    = Err RecursionError.
Proof.
  pose proof PI_RGT_0 as Hpi.
  assert (Hw : wave_phase 6 0 1 = (PI / 3)%R).
  { unfold wave_phase.
    change ((Z.of_nat 1 - Z.of_nat 0) mod Z.of_nat 6)%Z with 1%Z.
    replace (INR 6) with 6%R by (simpl; lra). lra. }
  intros net. subst net. rewrite nl_set_wave_gait_eq, nl_set_backward_eq.
  split; [reflexivity|]. split; [|split].
  - destruct (gait_loops_spec Wave 6 1%R) as (_ & Hpb & Hcells).
    destruct (Hcells 0 1) as [_ Hp]; [lia|lia|].
    change (mget (snd (gait_loops Wave 6 1%R)) 0 1 = Some (wave_phase 6 0 1)).
    rewrite (dims_mget 6) by (done || lia). by rewrite Hp.
  - rewrite Hw, Rfmod_small; lra.
  - intros fuel cs.
    destruct (ln_backward_recursion fuel) as (Ht & Hwv & _).
    split; [apply Hwv|apply Ht]; simpl; lra.
Qed.

(** C3.  Applying a gait with the direction forward (the direction is
    reset, or it is already 0) returns; the coupling weights are the
    coupling strength off the diagonal and 0 on it; the phase biases are 0
    on the diagonal and, off it, under Tripod 0 for indices of equal parity
    and π otherwise, under Wave (2π/n)·((j − i) mod n). *)
Theorem gait_forward_matrices (fuel : nat) (cs : R) (rd : bool)
    (net : Loco.CoupledOscillatorNetwork) (i j : nat) :
  rd = true ∨ Loco.direction_phase net = 0%R →
  i < Loco.n net → j < Loco.n net →
  (∃ net',
     LocoNetwork.set_tripod_gait (S fuel) cs rd net = Ok net' ∧
     Loco.current_gait net' = Tripod ∧
     Loco.direction_phase net' = 0%R ∧
     mget (Loco.coupling_weights net') i j
     = Some (if decide (i = j) then 0%R else cs) ∧
     mget (Loco.phase_biases net') i j
     = Some (if decide (i = j) then 0%R
             else if decide (i mod 2 = j mod 2) then 0%R else PI)) ∧
  (∃ net',
     LocoNetwork.set_wave_gait (S fuel) cs rd net = Ok net' ∧
     Loco.current_gait net' = Wave ∧
     Loco.direction_phase net' = 0%R ∧
     mget (Loco.coupling_weights net') i j
     = Some (if decide (i = j) then 0%R else cs) ∧
     mget (Loco.phase_biases net') i j
     = Some (if decide (i = j) then 0%R
             else (2 * PI / INR (Loco.n net)
                   * IZR ((Z.of_nat j - Z.of_nat i) mod Z.of_nat (Loco.n net)))%R)).
Proof.
  intros Hfwd Hi Hj. split.
  - eexists. split; [by apply ln_set_tripod_gait_forward|].
    rewrite nl_set_tripod_gait_eq.
    destruct (gait_loops_spec Tripod (Loco.n net) cs) as (Hcw & Hpb & Hcells).
    destruct (Hcells i j Hi Hj) as [Hc Hp].
    unfold gait_phase in Hp. rewrite tripod_phase_decide in Hp.
    destruct net as [k A f w m st cw pb fr am g dp tu td tf lu]. simpl in *.
    split; [by destruct rd|]. split; [by destruct rd, Hfwd|].
    destruct rd; simpl; rewrite !(dims_mget k), Hc, Hp by done; done.
  - eexists. split; [by apply ln_set_wave_gait_forward|].
    rewrite nl_set_wave_gait_eq.
    destruct (gait_loops_spec Wave (Loco.n net) cs) as (Hcw & Hpb & Hcells).
    destruct (Hcells i j Hi Hj) as [Hc Hp].
    destruct net as [k A f w m st cw pb fr am g dp tu td tf lu]. simpl in *.
    split; [by destruct rd|]. split; [by destruct rd, Hfwd|].
    destruct rd; simpl; rewrite !(dims_mget k), Hc, Hp by done; done.
Qed.

Lemma gait_forward_matrices_witness :
  (true = true ∨ Loco.direction_phase hexapod = 0%R) ∧
  0 < Loco.n hexapod ∧ 1 < Loco.n hexapod ∧
  (∃ net',
     LocoNetwork.set_tripod_gait 1 2 true hexapod = Ok net' ∧
     Loco.current_gait net' = Tripod ∧
     Loco.direction_phase net' = 0%R ∧
     mget (Loco.coupling_weights net') 0 1 = Some 2%R ∧
     mget (Loco.phase_biases net') 0 1 = Some PI) ∧
  (∃ net',
     LocoNetwork.set_wave_gait 1 2 true hexapod = Ok net' ∧
     Loco.current_gait net' = Wave ∧
     Loco.direction_phase net' = 0%R ∧
     mget (Loco.coupling_weights net') 0 1 = Some 2%R ∧
     mget (Loco.phase_biases net') 0 1
     = Some (2 * PI / INR 6 * IZR ((1 - 0) mod 6))%R).
Proof.
  split; [left; reflexivity|].
  split; [rewrite hexapod_n; lia|].
  split; [rewrite hexapod_n; lia|].
  apply (gait_forward_matrices 0 2 true hexapod 0 1).
  - left; reflexivity.
  - rewrite hexapod_n; lia.
  - rewrite hexapod_n; lia.
Defined.

(** ** Per-leg arrays: turning, stop and reset *)

(** [for i in range(k): l[i] = f i] *)
Lemma fill_loop_spec (k : nat) (f : nat → R) (l : list R) :
  k ≤ length l →
  length (for_range k (fun i l => <[i := f i]> l) l) = length l ∧
  ∀ i, for_range k (fun i l => <[i := f i]> l) l !! i
       = if decide (i < k) then Some (f i) else l !! i.
Proof.
  induction k as [|k IH]; intros Hk.
  - split; [done|]. intros i. rewrite decide_False by lia. done.
  - destruct IH as [Hlen Hget]; [lia|]. rewrite for_range_S. split.
    + by rewrite length_insert.
    + intros i. destruct (decide (i = k)) as [->|Hne].
      * rewrite list_lookup_insert_eq by lia. rewrite decide_True by lia. done.
      * rewrite list_lookup_insert_ne by done. rewrite Hget.
        destruct (decide (i < k)); destruct (decide (i < S k)); try done; lia.
Qed.

Lemma fill_loop_replicate (k : nat) (v : R) (l : list R) :
  length l = k → for_range k (fun i l => <[i := v]> l) l = replicate k v.
Proof.
  intros Hl. destruct (fill_loop_spec k (fun _ => v) l) as [Hlen Hget]; [lia|].
  apply list_eq. intros i. rewrite Hget.
  destruct (decide (i < k)).
  - by rewrite lookup_replicate_2.
  - rewrite (proj1 (lookup_replicate_None k v i)) by lia.
    apply lookup_ge_None. lia.
Qed.

Section LegLoops.
Import Loco.

Lemma set_legs_id (net : CoupledOscillatorNetwork) :
  set_frequencies (frequencies net) (set_amplitudes (amplitudes net) net) = net.
Proof. by destruct net. Qed.

(** A loop whose body assigns [amplitudes[i]] and [frequencies[i]] and
    nothing else is a loop on the two arrays. *)
Lemma leg_loop_eq
    (body : nat → CoupledOscillatorNetwork → CoupledOscillatorNetwork)
    (fa ff : nat → R)
    (net : CoupledOscillatorNetwork) (k : nat) :
  (∀ i a f,
     body i (set_frequencies f (set_amplitudes a net))
     = set_frequencies (<[i := ff i]> f) (set_amplitudes (<[i := fa i]> a) net)) →
  for_range k body net
  = set_frequencies (for_range k (fun i l => <[i := ff i]> l) (frequencies net))
      (set_amplitudes (for_range k (fun i l => <[i := fa i]> l) (amplitudes net))
         net).
Proof.
  intros Hbody. induction k as [|k IH].
  - symmetry. apply set_legs_id.
  - rewrite !for_range_S, IH. apply Hbody.
Qed.

Lemma turn_right_eq (factor : R) (net : CoupledOscillatorNetwork) :
  let f := py_max 0 (py_min 1 factor) in
  turn_right factor net
  = set_frequencies
      (for_range (n net) (fun i l => <[i := right_frequency net f i]> l)
         (frequencies net))
      (set_amplitudes
         (for_range (n net) (fun i l => <[i := right_amplitude net f i]> l)
            (amplitudes net))
         (set_turn_state true (Some TurnRight) f net)).
Proof.
  intros f. unfold turn_right. fold f.
  change (n (set_turn_state true (Some TurnRight) f net)) with (n net).
  rewrite (leg_loop_eq _ (right_amplitude net f) (right_frequency net f)).
  - by destruct net.
  - intros i a fr. unfold right_amplitude, right_frequency.
    destruct net; simpl. destruct (_ =? _)%nat; reflexivity.
Qed.

Lemma turn_left_eq (factor : R) (net : CoupledOscillatorNetwork) :
  let f := py_max 0 (py_min 1 factor) in
  turn_left factor net
  = set_frequencies
      (for_range (n net) (fun i l => <[i := left_frequency net f i]> l)
         (frequencies net))
      (set_amplitudes
         (for_range (n net) (fun i l => <[i := left_amplitude net f i]> l)
            (amplitudes net))
         (set_turn_state true (Some TurnLeft) f net)).
Proof.
  intros f. unfold turn_left. fold f.
  change (n (set_turn_state true (Some TurnLeft) f net)) with (n net).
  rewrite (leg_loop_eq _ (left_amplitude net f) (left_frequency net f)).
  - by destruct net.
  - intros i a fr. unfold left_amplitude, left_frequency.
    destruct net; simpl. destruct (_ =? _)%nat; reflexivity.
Qed.

Lemma restore_base_eq (net : CoupledOscillatorNetwork) :
  restore_base net
  = set_frequencies
      (for_range (n net) (fun i l => <[i := base_frequency net]> l)
         (frequencies net))
      (set_amplitudes
         (for_range (n net) (fun i l => <[i := amplitude net]> l) (amplitudes net))
         net).
Proof.
  unfold restore_base.
  rewrite (leg_loop_eq _ (fun _ => amplitude net) (fun _ => base_frequency net)).
  - done.
  - intros i a fr. by destruct net.
Qed.

End LegLoops.

(** The clamp [max(0.0, min(1.0, factor))]. *)
Lemma clamp_spec (factor : R) :
  py_max 0 (py_min 1 factor) = Rmax 0 (Rmin 1 factor) ∧
  (0 <= py_max 0 (py_min 1 factor) <= 1)%R.
Proof.
  unfold py_max, py_min, Rmax, Rmin.
  repeat (destruct (Rlt_dec _ _) || destruct (Rle_dec _ _)); split; lra.
Qed.

Lemma seed_state_spec (k : nat) :
  length (seed_state k) = 2 * k ∧
  ∀ i, i < k →
    seed_state k !! (2 * i) = Some 0.1%R ∧ seed_state k !! (2 * i + 1) = Some 0%R.
Proof.
  unfold seed_state.
  pose proof (for_range_ind (fun m st =>
    length st = 2 * k ∧
    ∀ j, j < 2 * k →
      st !! j = Some (if decide (j < 2 * m ∧ j mod 2 = 0) then 0.1%R else 0%R)) k
    (fun i state => <[2 * i := 0.1%R]> state) (zeros (2 * k))) as Hloop.
  destruct Hloop as [Hlen Hget].
  - split; [apply length_replicate|]. intros j Hj.
    rewrite decide_False by lia. by apply lookup_replicate_2.
  - intros m st Hm [Hlen Hget]. split; [by rewrite length_insert|].
    intros j Hj. destruct (decide (j = 2 * m)) as [->|Hne].
    + rewrite list_lookup_insert_eq by lia.
      rewrite decide_True; [done|]. split; [lia|].
      rewrite Nat.mul_comm. apply Nat.Div0.mod_mul.
    + rewrite list_lookup_insert_ne by done. rewrite Hget by done.
      destruct (decide (j < 2 * m ∧ j mod 2 = 0)) as [[? ?]|Hn1];
        destruct (decide (j < 2 * S m ∧ j mod 2 = 0)) as [[? Hmod]|Hn2];
        try done.
      * exfalso. apply Hn2. split; [lia|done].
      * exfalso. apply Hn1. split; [|done].
        assert (j ≠ 2 * m + 1); [|lia]. intros ->.
        rewrite Nat.add_comm, Nat.mul_comm, Nat.Div0.mod_add in Hmod. done.
  - split; [done|]. intros i Hi. split.
    + rewrite Hget by lia. rewrite decide_True; [done|]. split; [lia|].
      rewrite Nat.mul_comm. apply Nat.Div0.mod_mul.
    + rewrite Hget by lia. rewrite decide_False; [done|]. intros [_ Hmod].
      rewrite Nat.add_comm, Nat.mul_comm, Nat.Div0.mod_add in Hmod. done.
Qed.

Lemma hexapod_wf : Loco.wf hexapod.
Proof.
  destruct (gait_loops_spec Tripod 6 1%R) as (Hcw & Hpb & _).
  repeat split; try reflexivity; try apply Hcw; try apply Hpb.
Qed.

(** ** Turning (C4) *)

(** C4.  [turn(direction, factor)] first clamps the factor into [0, 1];
    with [f] the clamped value, an even index gets amplitude
    base·(1 − 0.5·f) and frequency base·(1 − 0.3·f) under a right turn and
    the (1 + 0.5·f), (1 + 0.3·f) formulas under a left turn, an odd index
    the opposite; the turn state records (direction, f); gait, direction
    phase, both matrices and the oscillator state are untouched. *)
Theorem turn_sets_per_leg_values (direction : TurnDirection) (factor : R)
    (net : Loco.CoupledOscillatorNetwork) (i : nat) :
  Loco.wf net → i < Loco.n net →
  let f := py_max 0 (py_min 1 factor) in
  let net' := Loco.turn direction factor net in
  f = Rmax 0 (Rmin 1 factor) ∧ (0 <= f <= 1)%R ∧
  (Loco.turning net' = true ∧
   Loco.turning_direction net' = Some direction ∧
   Loco.turning_factor net' = f) ∧
  (let inner :=
     match direction with
     | TurnRight => bool_decide (i mod 2 = 0)
     | TurnLeft => bool_decide (i mod 2 ≠ 0)
     end in
   Loco.amplitudes net' !! i
   = Some (if inner then Loco.amplitude net * (1 - 0.5 * f)
           else Loco.amplitude net * (1 + 0.5 * f))%R ∧
   Loco.frequencies net' !! i
   = Some (if inner then Loco.base_frequency net * (1 - 0.3 * f)
           else Loco.base_frequency net * (1 + 0.3 * f))%R) ∧
  (Loco.current_gait net' = Loco.current_gait net ∧
   Loco.direction_phase net' = Loco.direction_phase net ∧
   Loco.coupling_weights net' = Loco.coupling_weights net ∧
   Loco.phase_biases net' = Loco.phase_biases net ∧
   Loco.state net' = Loco.state net ∧
   Loco.n net' = Loco.n net ∧
   Loco.amplitude net' = Loco.amplitude net ∧
   Loco.base_frequency net' = Loco.base_frequency net).
Proof.
  intros (Hst & Hfr & Ham & _) Hi f net'.
  destruct (clamp_spec factor) as [Hclamp Hrange]. fold f in Hclamp, Hrange.
  split; [done|]. split; [done|]. subst net'.
  destruct direction; simpl Loco.turn.
  - pose proof (turn_left_eq factor net) as Heq. simpl in Heq. fold f in Heq.
    rewrite Heq.
    destruct (fill_loop_spec (Loco.n net) (left_amplitude net f)
                (Loco.amplitudes net)) as [_ Ha]; [lia|].
    destruct (fill_loop_spec (Loco.n net) (left_frequency net f)
                (Loco.frequencies net)) as [_ Hf]; [lia|].
    split; [by destruct net|]. split; [|by destruct net].
    replace (Loco.amplitudes _) with
      (for_range (Loco.n net) (fun i l => <[i := left_amplitude net f i]> l)
         (Loco.amplitudes net)) by (by destruct net).
    replace (Loco.frequencies _) with
      (for_range (Loco.n net) (fun i l => <[i := left_frequency net f i]> l)
         (Loco.frequencies net)) by (by destruct net).
    rewrite Ha, Hf, !decide_True by done.
    unfold left_amplitude, left_frequency.
    destruct (Nat.eqb_spec (i mod 2) 0) as [He|He].
    + rewrite bool_decide_false by (intros Hn; by apply Hn).
      split; f_equal; ring.
    + rewrite bool_decide_true by done. split; f_equal; ring.
  - pose proof (turn_right_eq factor net) as Heq. simpl in Heq. fold f in Heq.
    rewrite Heq.
    destruct (fill_loop_spec (Loco.n net) (right_amplitude net f)
                (Loco.amplitudes net)) as [_ Ha]; [lia|].
    destruct (fill_loop_spec (Loco.n net) (right_frequency net f)
                (Loco.frequencies net)) as [_ Hf]; [lia|].
    split; [by destruct net|]. split; [|by destruct net].
    replace (Loco.amplitudes _) with
      (for_range (Loco.n net) (fun i l => <[i := right_amplitude net f i]> l)
         (Loco.amplitudes net)) by (by destruct net).
    replace (Loco.frequencies _) with
      (for_range (Loco.n net) (fun i l => <[i := right_frequency net f i]> l)
         (Loco.frequencies net)) by (by destruct net).
    rewrite Ha, Hf, !decide_True by done.
    unfold right_amplitude, right_frequency.
    destruct (Nat.eqb_spec (i mod 2) 0) as [He|He].
    + rewrite bool_decide_true by done. split; f_equal; ring.
    + rewrite bool_decide_false by done. split; f_equal; ring.
Qed.

Lemma turn_sets_per_leg_values_witness :
  Loco.wf hexapod ∧ 0 < Loco.n hexapod ∧
  Loco.turning_direction (Loco.turn TurnRight 2 hexapod) = Some TurnRight ∧
  Loco.amplitudes (Loco.turn TurnRight 2 hexapod) !! 0
  = Some (Loco.amplitude hexapod
          * (1 - 0.5 * py_max 0 (py_min 1 2)))%R.
Proof.
  assert (H0 : 0 < Loco.n hexapod) by (rewrite hexapod_n; lia).
  split; [exact hexapod_wf|]. split; [exact H0|].
  pose proof (turn_sets_per_leg_values TurnRight 2 hexapod 0 hexapod_wf H0)
    as (_ & _ & (_ & Hdir & _) & (Hamp & _) & _).
  split; [exact Hdir|exact Hamp].
Defined.

(** ** Ticks (C5, C6) *)

Lemma x_values_is_Some (k : nat) (st : list R) :
  2 * k ≤ length st → is_Some (x_values k st).
Proof.
  intros Hlen. unfold x_values. apply mapM_is_Some_2.
  apply Forall_forall. intros i Hi. apply list_elem_of_In, in_seq in Hi. simpl.
  apply lookup_lt_is_Some_2. lia.
Qed.

(** The sample integrator: a step of length 0 goes nowhere, and the
    trajectory has the shape [odeint] promises. *)
Lemma euler_odeint_zero_step (func : list R → R → list R) (y0 : list R) :
  last (euler_odeint func y0 [0%R; 0%R]) = Some y0.
Proof.
  simpl. f_equal. apply list_eq. intros i. rewrite list_lookup_imap.
  destruct (y0 !! i) as [y|]; simpl; [|done]. f_equal. ring.
Qed.

Lemma euler_odeint_shape (func : list R → R → list R) (y0 : list R) (t0 t1 : R) :
  ∃ s, last (euler_odeint func y0 [t0; t1]) = Some s ∧ length s = length y0.
Proof. eexists. split; [reflexivity|]. apply length_imap. Qed.

Section Tick.
Import Loco.

Variable odeint : (list R → R → list R) → list R → list R → list (list R).

(** What a tick returns is read off the state it stores. *)
Lemma update_output (dt : option R) (now : R)
    (net net' : CoupledOscillatorNetwork) (xs : list R) :
  update odeint dt now net = Ok (net', xs) →
  x_values (n net') (state net') = Some xs.
Proof.
  unfold update. destruct dt as [dt|];
    (destruct (last _) as [s|]; [|done]); simpl;
    (destruct (x_values _ s) as [ys|] eqn:Hx; [|done]);
    intros [= <- <-]; by destruct net.
Qed.

(** A tick touches the state vector, and the time of the last update when
    no [dt] is given; nothing else. *)
Lemma update_frame (dt : option R) (now : R)
    (net net' : CoupledOscillatorNetwork) (xs : list R) :
  update odeint dt now net = Ok (net', xs) →
  net' = set_state (state net')
           (set_last_update_time
              (match dt with None => now | Some _ => last_update_time net end) net).
Proof.
  unfold update. destruct dt as [dt|];
    (destruct (last _) as [s|]; [|done]); simpl;
    (destruct (x_values _ s) as [ys|] eqn:Hx; [|done]);
    intros [= <- <-]; by destruct net.
Qed.

(** The contract of the integrator for an empty time span: the last row
    of [odeint func y0 [0, 0]] is [y0].  (LSODA, behind scipy's [odeint],
    returns at once when the requested time is the initial time.) *)
Hypothesis odeint_zero_step :
  ∀ func y0, last (odeint func y0 [0%R; 0%R]) = Some y0.

(** C5.  A tick with [dt = 0] is a no-op: it returns, the network it
    leaves is the network it found (state vector and every other field),
    and the x-values it returns are those of the stored state, so they are
    the output of the tick before it. *)
Theorem update_zero_dt_noop (net : CoupledOscillatorNetwork) (now : R) :
  length (state net) = 2 * n net →
  ∃ xs,
    update odeint (Some 0%R) now net = Ok (net, xs) ∧
    x_values (n net) (state net) = Some xs ∧
    ∀ dt0 now0 net0 xs0,
      update odeint dt0 now0 net0 = Ok (net, xs0) → xs0 = xs.
Proof.
  intros Hlen.
  destruct (x_values_is_Some (n net) (state net)) as [xs Hxs]; [lia|].
  exists xs. split; [|split; [done|]].
  - unfold update. rewrite odeint_zero_step. simpl.
    replace (n (set_state (state net) net)) with (n net) by (by destruct net).
    replace (state (set_state (state net) net)) with (state net)
      by (by destruct net).
    rewrite Hxs. by destruct net.
  - intros dt0 now0 net0 xs0 Hprev. apply update_output in Hprev. congruence.
Qed.

End Tick.

Lemma update_zero_dt_noop_witness :
  (∀ func y0, last (euler_odeint func y0 [0%R; 0%R]) = Some y0) ∧
  length (Loco.state hexapod) = 2 * Loco.n hexapod ∧
  ∃ xs,
    Loco.update euler_odeint (Some 0%R) 1 hexapod = Ok (hexapod, xs) ∧
    x_values (Loco.n hexapod) (Loco.state hexapod) = Some xs ∧
    ∀ dt0 now0 net0 xs0,
      Loco.update euler_odeint dt0 now0 net0 = Ok (hexapod, xs0) → xs0 = xs.
Proof.
  split; [exact euler_odeint_zero_step|].
  split; [reflexivity|].
  apply (update_zero_dt_noop euler_odeint euler_odeint_zero_step hexapod 1).
  reflexivity.
Defined.

(** The default network with a single oscillator. *)
Lemma single_oscillator_constructed (fuel : nat) :
  LocoNetwork.__init__ (S (S fuel)) 1 1 1 1 0 = Ok single_oscillator.
Proof.
  change (LocoNetwork.__init__ (S (S fuel)) 1 1 1 1 0)
    with (LocoNetwork.set_tripod_gait (S fuel) 1%R true
            (Loco.mkNetwork 1 1%R 1%R (2 * PI * 1)%R 1%R
               (seed_state 1) (zeros2 1 1) (zeros2 1 1)
               (replicate 1 (1 * 1)%R) (replicate 1 (1 * 1)%R)
               Tripod 0%R false None 0%R 0%R)).
  rewrite ln_set_tripod_gait_forward by (left; reflexivity). reflexivity.
Qed.

(** C6, as stated, fails: nothing validates [n] or [dt].  Constructing
    with [n = 0] returns a network (an empty one), and a tick with
    [dt = -1] returns and moves the state: with the Euler step the first
    oscillator of the one-oscillator network goes from x = 0.1 to
    x = 0.001. *)
Lemma invalid_configuration_accepted :
  LocoNetwork.__init__ 2 0 1 1 1 0
  = Ok (Loco.mkNetwork 0 1 1 (2 * PI * 1) 1 [] [] [] [] [] Tripod 0 false None 0 0) ∧
  ∃ net' xs,
    Loco.update euler_odeint (Some (-1)%R) 0 single_oscillator = Ok (net', xs) ∧
    Loco.state single_oscillator !! 0 = Some 0.1%R ∧
    Loco.state net' !! 0 = Some 0.001%R ∧
    ¬ (∃ e, LocoNetwork.__init__ 2 0 1 1 1 0 = Err e) ∧
    ¬ (∃ e, Loco.update euler_odeint (Some (-1)%R) 0 single_oscillator = Err e).
Proof.
  split.
  - change (LocoNetwork.__init__ 2 0 1 1 1 0)
      with (LocoNetwork.set_tripod_gait 1 1%R true
              (Loco.mkNetwork 0 1%R 1%R (2 * PI * 1)%R 1%R
                 [] [] [] [] [] Tripod 0%R false None 0%R 0%R)).
    rewrite ln_set_tripod_gait_forward by (left; reflexivity). reflexivity.
  - eexists _, _. split; [reflexivity|]. split; [reflexivity|].
    split; [simpl; f_equal; lra|]. split.
    + change (LocoNetwork.__init__ 2 0 1 1 1 0)
        with (LocoNetwork.set_tripod_gait 1 1%R true
                (Loco.mkNetwork 0 1%R 1%R (2 * PI * 1)%R 1%R
                   [] [] [] [] [] Tripod 0%R false None 0%R 0%R)).
      rewrite ln_set_tripod_gait_forward by (left; reflexivity).
      intros [e He]. discriminate He.
    + intros [e He]. discriminate He.
Qed.

Section TickAnyDt.
Import Loco.

Variable odeint : (list R → R → list R) → list R → list R → list (list R).

(** The shape of what [odeint] returns for two time points: a last row as
    long as the initial state. *)
Hypothesis odeint_shape :
  ∀ func y0 t0 t1,
    ∃ s, last (odeint func y0 [t0; t1]) = Some s ∧ length s = length y0.

(** C6, amended.  Neither [n = 0] nor a negative [dt] is rejected.  The
    constructor accepts [n = 0] and returns the empty network; only a
    negative [n] fails, in [np.zeros], before any network exists.  A tick
    accepts every [dt], negative ones included: it returns, stores the
    last row the integrator computed for [[0, dt]] as the new state and
    leaves every other field as it was. *)
Theorem no_validation_of_n_and_dt (dt now : R) (net : CoupledOscillatorNetwork) :
  length (state net) = 2 * n net →
  (∀ fuel a f m t,
     LocoNetwork.__init__ (S (S fuel)) 0 a f m t
     = Ok (mkNetwork 0 a f (2 * PI * f) m [] [] [] [] [] Tripod 0 false None 0 t)) ∧
  (∀ fuel p a f m t,
     LocoNetwork.__init__ (S fuel) (Z.neg p) a f m t = Err ValueError) ∧
  ∃ s xs,
    last (odeint (equations net) (state net) [0%R; dt]) = Some s ∧
    update odeint (Some dt) now net = Ok (set_state s net, xs).
Proof.
  intros Hlen. split; [|split].
  - intros fuel a f m t.
    change (LocoNetwork.__init__ (S (S fuel)) 0 a f m t)
      with (LocoNetwork.set_tripod_gait (S fuel) 1%R true
              (mkNetwork 0 a f (2 * PI * f)%R m
                 [] [] [] [] [] Tripod 0%R false None 0%R t)).
    rewrite ln_set_tripod_gait_forward by (left; reflexivity). reflexivity.
  - reflexivity.
  - destruct (odeint_shape (equations net) (state net) 0%R dt) as (s & Hs & Hls).
    destruct (x_values_is_Some (n net) s) as [xs Hxs]; [lia|].
    exists s, xs. split; [done|].
    unfold update. rewrite Hs. simpl.
    replace (n (set_state s net)) with (n net) by (by destruct net).
    replace (state (set_state s net)) with s by (by destruct net).
    by rewrite Hxs.
Qed.

End TickAnyDt.

Lemma no_validation_of_n_and_dt_witness :
  (∀ func y0 t0 t1,
     ∃ s, last (euler_odeint func y0 [t0; t1]) = Some s ∧ length s = length y0) ∧
  length (Loco.state hexapod) = 2 * Loco.n hexapod ∧
  ∃ s xs,
    last (euler_odeint (Loco.equations hexapod) (Loco.state hexapod) [0%R; (-1)%R])
    = Some s ∧
    Loco.update euler_odeint (Some (-1)%R) 0 hexapod = Ok (Loco.set_state s hexapod, xs).
Proof.
  split; [exact euler_odeint_shape|]. split; [reflexivity|].
  exact (proj2 (proj2
    (no_validation_of_n_and_dt euler_odeint euler_odeint_shape (-1) 0 hexapod
       eq_refl))).
Defined.

(** ** Reset (C7) *)

Section ResetFacts.
Import Loco.

(** [reset] of cpg_loconetwork.py does what C7 says. *)
Lemma ln_reset_spec (now : R) (net : CoupledOscillatorNetwork) :
  length (amplitudes net) = n net → length (frequencies net) = n net →
  let net' := LocoNetwork.reset now net in
  length (state net') = 2 * n net ∧
  (∀ i, i < n net →
     state net' !! (2 * i) = Some 0.1%R ∧ state net' !! (2 * i + 1) = Some 0%R) ∧
  amplitudes net' = replicate (n net) (amplitude net) ∧
  frequencies net' = replicate (n net) (base_frequency net) ∧
  (turning net' = false ∧ turning_direction net' = None ∧
   turning_factor net' = 0%R) ∧
  (current_gait net' = current_gait net ∧
   direction_phase net' = direction_phase net ∧
   coupling_weights net' = coupling_weights net ∧
   phase_biases net' = phase_biases net ∧
   n net' = n net ∧ amplitude net' = amplitude net ∧
   base_frequency net' = base_frequency net).
Proof.
  intros Ham Hfr net'. subst net'. unfold LocoNetwork.reset.
  rewrite restore_base_eq.
  destruct (seed_state_spec (n net)) as [Hlen Hseed].
  destruct net as [k A f w m st cw pb fr am g dp tu td tf lu]. simpl in *.
  rewrite !fill_loop_replicate by done. done.
Qed.

(** [reset] of ledlocotest.py restores the arrays and leaves the turn
    state as it found it. *)
Lemma led_reset_turn_state (now : R) (net : CoupledOscillatorNetwork) :
  turning (LedLocoTest.reset now net) = turning net ∧
  turning_direction (LedLocoTest.reset now net) = turning_direction net ∧
  turning_factor (LedLocoTest.reset now net) = turning_factor net.
Proof.
  unfold LedLocoTest.reset. rewrite restore_base_eq. by destruct net.
Qed.

Lemma led_reset_arrays (now : R) (net : CoupledOscillatorNetwork) :
  length (amplitudes net) = n net → length (frequencies net) = n net →
  amplitudes (LedLocoTest.reset now net) = replicate (n net) (amplitude net) ∧
  frequencies (LedLocoTest.reset now net) = replicate (n net) (base_frequency net).
Proof.
  intros Ham Hfr. unfold LedLocoTest.reset. rewrite restore_base_eq.
  destruct net as [k A f w m st cw pb fr am g dp tu td tf lu]. simpl in *.
  rewrite !fill_loop_replicate by done. done.
Qed.

End ResetFacts.

Lemma clamp_half : py_max 0 (py_min 1 0.5) = 0.5%R.
Proof.
  unfold py_max, py_min. repeat destruct (Rlt_dec _ _); lra.
Qed.

Lemma turn_right_fields (factor : R) (net : Loco.CoupledOscillatorNetwork) :
  Loco.turning (Loco.turn_right factor net) = true ∧
  Loco.turning_direction (Loco.turn_right factor net) = Some TurnRight ∧
  Loco.turning_factor (Loco.turn_right factor net) = py_max 0 (py_min 1 factor) ∧
  Loco.n (Loco.turn_right factor net) = Loco.n net ∧
  Loco.amplitude (Loco.turn_right factor net) = Loco.amplitude net ∧
  Loco.base_frequency (Loco.turn_right factor net) = Loco.base_frequency net.
Proof.
  pose proof (turn_right_eq factor net) as Heq. simpl in Heq. rewrite Heq.
  by destruct net.
Qed.

Lemma turn_preserves_wf (direction : TurnDirection) (factor : R)
    (net : Loco.CoupledOscillatorNetwork) :
  Loco.wf net → Loco.wf (Loco.turn direction factor net).
Proof.
  intros (Hst & Hfr & Ham & Hcw & Hpb).
  destruct direction; simpl.
  - pose proof (turn_left_eq factor net) as Heq. simpl in Heq. rewrite Heq.
    destruct (fill_loop_spec (Loco.n net)
      (left_amplitude net (py_max 0 (py_min 1 factor))) (Loco.amplitudes net))
      as [Ha _]; [lia|].
    destruct (fill_loop_spec (Loco.n net)
      (left_frequency net (py_max 0 (py_min 1 factor))) (Loco.frequencies net))
      as [Hf _]; [lia|].
    unfold Loco.wf. destruct net; simpl in *.
    repeat split; try done; try congruence; try apply Hcw; apply Hpb.
  - pose proof (turn_right_eq factor net) as Heq. simpl in Heq. rewrite Heq.
    destruct (fill_loop_spec (Loco.n net)
      (right_amplitude net (py_max 0 (py_min 1 factor))) (Loco.amplitudes net))
      as [Ha _]; [lia|].
    destruct (fill_loop_spec (Loco.n net)
      (right_frequency net (py_max 0 (py_min 1 factor))) (Loco.frequencies net))
      as [Hf _]; [lia|].
    unfold Loco.wf. destruct net; simpl in *.
    repeat split; try done; try congruence; try apply Hcw; apply Hpb.
Qed.

Lemma reset_after_turn_right (now factor : R) (net : Loco.CoupledOscillatorNetwork) :
  Loco.wf net →
  Loco.turning (LedLocoTest.reset now (Loco.turn_right factor net)) = true ∧
  Loco.turning_direction (LedLocoTest.reset now (Loco.turn_right factor net))
  = Some TurnRight ∧
  Loco.turning_factor (LedLocoTest.reset now (Loco.turn_right factor net))
  = py_max 0 (py_min 1 factor) ∧
  Loco.amplitudes (LedLocoTest.reset now (Loco.turn_right factor net))
  = replicate (Loco.n net) (Loco.amplitude net) ∧
  Loco.frequencies (LedLocoTest.reset now (Loco.turn_right factor net))
  = replicate (Loco.n net) (Loco.base_frequency net) ∧
  Loco.turning (LocoNetwork.reset now (Loco.turn_right factor net)) = false ∧
  Loco.turning_direction (LocoNetwork.reset now (Loco.turn_right factor net)) = None.
Proof.
  intros Hwf.
  destruct (led_reset_turn_state now (Loco.turn_right factor net)) as (Ht & Hd & Hf).
  pose proof (turn_preserves_wf TurnRight factor net Hwf) as (_ & Hfr & Ham & _).
  simpl Loco.turn in Hfr, Ham.
  destruct (led_reset_arrays now _ Ham Hfr) as [Ha Hq].
  destruct (ln_reset_spec now _ Ham Hfr) as (_ & _ & _ & _ & (Ht' & Hd' & _) & _).
  destruct (turn_right_fields factor net) as (Tt & Td & Tf & Tn & Ta & Tb).
  rewrite Ht, Hd, Hf, Ha, Hq, Ht', Hd', Tt, Td, Tf, Tn, Ta, Tb. done.
Qed.

(** C7 (defect of ledlocotest.py).  The claim wants [reset()] to clear the
    turn state.  [reset] of cpg_loconetwork.py does; [reset] of
    ledlocotest.py ends after restoring the arrays: after
    [turn_right(0.5)] on the default network, [reset()] leaves
    [turning = True], [turning_direction = "right"] and
    [turning_factor = 0.5] although every amplitude and frequency is back
    at its base value. *)
Theorem ledlocotest_reset_keeps_turn_state :
  Loco.turning (LedLocoTest.reset 0 (Loco.turn_right 0.5 hexapod)) = true ∧
  Loco.turning_direction (LedLocoTest.reset 0 (Loco.turn_right 0.5 hexapod))
  = Some TurnRight ∧
  Loco.turning_factor (LedLocoTest.reset 0 (Loco.turn_right 0.5 hexapod))
  = 0.5%R ∧
  Loco.amplitudes (LedLocoTest.reset 0 (Loco.turn_right 0.5 hexapod))
  = replicate 6 1%R ∧
  Loco.frequencies (LedLocoTest.reset 0 (Loco.turn_right 0.5 hexapod))
  = replicate 6 1%R ∧
  Loco.turning (LocoNetwork.reset 0 (Loco.turn_right 0.5 hexapod)) = false ∧
  Loco.turning_direction (LocoNetwork.reset 0 (Loco.turn_right 0.5 hexapod)) = None.
Proof.
  pose proof (reset_after_turn_right 0 0.5 hexapod hexapod_wf) as H.
  rewrite clamp_half, hexapod_n, hexapod_amplitude, hexapod_base_frequency in H.
  exact H.
Qed.

(** ** The matrix invariant (C8) *)

Section Invariant.
Import Loco.

(** A gait setter of cpg_loconetwork.py that returns did what the setter
    of cpg_network_loco.py does. *)
Lemma ln_set_tripod_gait_Ok (fuel : nat) (cs : R) (rd : bool)
    (net net' : CoupledOscillatorNetwork) :
  LocoNetwork.set_tripod_gait fuel cs rd net = Ok net' →
  net' = NetworkLoco.set_tripod_gait cs rd net ∧ direction_phase net' = 0%R.
Proof.
  destruct fuel as [|fuel]; [done|]. simpl.
  destruct (Req_dec_T _ _) as [H0|Hne].
  - intros [= <-]. split; [by destruct net, rd|done].
  - destruct (ln_backward_recursion fuel) as (_ & _ & Hu).
    rewrite Hu by done. done.
Qed.

Lemma ln_set_wave_gait_Ok (fuel : nat) (cs : R) (rd : bool)
    (net net' : CoupledOscillatorNetwork) :
  LocoNetwork.set_wave_gait fuel cs rd net = Ok net' →
  net' = NetworkLoco.set_wave_gait cs rd net ∧ direction_phase net' = 0%R.
Proof.
  destruct fuel as [|fuel]; [done|]. simpl.
  destruct (Req_dec_T _ _) as [H0|Hne].
  - intros [= <-]. split; [by destruct net, rd|done].
  - destruct (ln_backward_recursion fuel) as (_ & _ & Hu).
    rewrite Hu by done. done.
Qed.

(** [set_backward] of cpg_loconetwork.py returns only for
    [backward = False], and then rebuilds the current gait with strength 1. *)
Lemma ln_set_backward_Ok (fuel : nat) (backward : bool)
    (net net' : CoupledOscillatorNetwork) :
  LocoNetwork.set_backward fuel backward net = Ok net' →
  backward = false ∧
  net' = set_matrices (gait_loops (current_gait net) (n net) 1%R)
           (set_direction_phase 0%R net).
Proof.
  destruct backward.
  { by rewrite ln_set_backward_true_diverges. }
  destruct fuel as [|[|fuel]]; [done|done|]. intros Hok. split; [done|].
  change (LocoNetwork.set_backward (S (S fuel)) false net)
    with (match current_gait net with
          | Tripod => LocoNetwork.set_tripod_gait fuel 1%R false
                        (set_direction_phase 0%R net)
          | Wave => LocoNetwork.set_wave_gait fuel 1%R false
                      (set_direction_phase 0%R net)
          end ≫= fun net =>
          if Req_dec_T (direction_phase net) 0 then Ok net
          else Ok (set_phase_biases
                     (direction_loops (n net) (direction_phase net)
                        (phase_biases net)) net)) in Hok.
  destruct (current_gait net) eqn:Hg.
  - destruct (LocoNetwork.set_tripod_gait fuel 1 false _) as [net1|] eqn:H1;
      [|done].
    apply ln_set_tripod_gait_Ok in H1 as [-> Hdp]. simpl in Hok.
    destruct (Req_dec_T _ _); [|done]. injection Hok as <-.
    rewrite nl_set_tripod_gait_eq. destruct net; simpl in *. by subst.
  - destruct (LocoNetwork.set_wave_gait fuel 1 false _) as [net1|] eqn:H1;
      [|done].
    apply ln_set_wave_gait_Ok in H1 as [-> Hdp]. simpl in Hok.
    destruct (Req_dec_T _ _); [|done]. injection Hok as <-.
    rewrite nl_set_wave_gait_eq. destruct net; simpl in *. by subst.
Qed.

Lemma gait_built_matrices_ok (net : CoupledOscillatorNetwork) :
  gait_built (fun cs => (0 <= cs)%R) net → matrices_ok net.
Proof.
  intros (g & cs & Hcs & Hcw & Hpb).
  destruct (gait_loops_spec g (n net) cs) as (Hd1 & Hd2 & Hcells).
  unfold matrices_ok. rewrite Hcw, Hpb.
  split; [done|]. split; [done|]. intros i j Hi Hj.
  destruct (Hcells i j Hi Hj) as [Hc Hp].
  eexists _, _. rewrite !(dims_mget (n net)) by done.
  split; [reflexivity|]. split; [reflexivity|]. rewrite Hc, Hp.
  pose proof (gait_phase_range g (n net) i j) as Hrange.
  pose proof two_PI_pos.
  destruct (decide (i = j)); repeat split; try done; try lra;
    apply Hrange; lia.
Qed.

(** Calls that leave [n] and the two matrices alone. *)
Lemma gait_built_frame (P : R → Prop) (net net' : CoupledOscillatorNetwork) :
  n net' = n net → coupling_weights net' = coupling_weights net →
  phase_biases net' = phase_biases net →
  gait_built P net → gait_built P net'.
Proof.
  intros Hn Hcw Hpb (g & cs & Hcs & H1 & H2). exists g, cs.
  by rewrite Hn, Hcw, Hpb.
Qed.

Lemma gait_built_after_gait (P : R → Prop) (g : Gait) (cs : R)
    (net : CoupledOscillatorNetwork) :
  P cs → gait_built P (set_matrices (gait_loops g (n net) cs) net).
Proof. intros Hcs. exists g, cs. by destruct net. Qed.

Lemma turn_frame (direction : TurnDirection) (factor : R)
    (net : CoupledOscillatorNetwork) :
  n (turn direction factor net) = n net ∧
  coupling_weights (turn direction factor net) = coupling_weights net ∧
  phase_biases (turn direction factor net) = phase_biases net ∧
  current_gait (turn direction factor net) = current_gait net ∧
  direction_phase (turn direction factor net) = direction_phase net ∧
  state (turn direction factor net) = state net.
Proof.
  destruct direction; simpl.
  - pose proof (turn_left_eq factor net) as Heq. simpl in Heq. rewrite Heq.
    by destruct net.
  - pose proof (turn_right_eq factor net) as Heq. simpl in Heq. rewrite Heq.
    by destruct net.
Qed.

Lemma stop_turning_frame (net : CoupledOscillatorNetwork) :
  n (stop_turning net) = n net ∧
  coupling_weights (stop_turning net) = coupling_weights net ∧
  phase_biases (stop_turning net) = phase_biases net.
Proof. unfold stop_turning. rewrite restore_base_eq. by destruct net. Qed.

Lemma ln_reset_frame (now : R) (net : CoupledOscillatorNetwork) :
  n (LocoNetwork.reset now net) = n net ∧
  coupling_weights (LocoNetwork.reset now net) = coupling_weights net ∧
  phase_biases (LocoNetwork.reset now net) = phase_biases net.
Proof. unfold LocoNetwork.reset. rewrite restore_base_eq. by destruct net. Qed.

Lemma ln_init_Ok (fuel : nat) (k : Z) (a f m now : R) (net : CoupledOscillatorNetwork) :
  LocoNetwork.__init__ fuel k a f m now = Ok net →
  ∃ net0, init_fields k a f m now = Ok net0 ∧
          net = NetworkLoco.set_tripod_gait 1%R true net0.
Proof.
  destruct fuel as [|fuel]; [done|]. unfold LocoNetwork.__init__.
  destruct (init_fields k a f m now) as [net0|] eqn:H0; [|done]. simpl.
  intros Hok. apply ln_set_tripod_gait_Ok in Hok as [-> _]. eauto.
Qed.

Lemma reachable_gait_built
    (odeint : (list R → R → list R) → list R → list R → list (list R))
    (P : R → Prop) (net : CoupledOscillatorNetwork) :
  P 1%R → LocoNetwork.reachable odeint P net → gait_built P net.
Proof.
  intros H1. induction 1 as
    [fuel k a f m now net Hinit
    |dt now net net' xs _ IH Hup
    |fuel cs rd net net' _ IH Hcs Hset
    |fuel cs rd net net' _ IH Hcs Hset
    |fuel b net net' _ IH Hset
    |fuel net net' _ IH Hset
    |d factor net _ IH
    |net _ IH
    |now net _ IH].
  - apply ln_init_Ok in Hinit as (net0 & _ & ->).
    rewrite nl_set_tripod_gait_eq.
    apply (gait_built_after_gait P Tripod 1%R
             (set_direction_phase 0%R (set_current_gait Tripod net0)) H1).
  - apply update_frame in Hup. rewrite Hup.
    apply (gait_built_frame P net); try done; by destruct net.
  - apply ln_set_tripod_gait_Ok in Hset as [-> _].
    rewrite nl_set_tripod_gait_eq.
    destruct rd;
      [apply (gait_built_after_gait P Tripod cs
                (set_direction_phase 0%R (set_current_gait Tripod net)) Hcs)
      |apply (gait_built_after_gait P Tripod cs (set_current_gait Tripod net) Hcs)].
  - apply ln_set_wave_gait_Ok in Hset as [-> _].
    rewrite nl_set_wave_gait_eq.
    destruct rd;
      [apply (gait_built_after_gait P Wave cs
                (set_direction_phase 0%R (set_current_gait Wave net)) Hcs)
      |apply (gait_built_after_gait P Wave cs (set_current_gait Wave net) Hcs)].
  - apply ln_set_backward_Ok in Hset as [_ ->].
    apply (gait_built_after_gait P (current_gait net) 1%R
             (set_direction_phase 0%R net) H1).
  - destruct fuel as [|fuel]; [done|]. simpl in Hset.
    apply ln_set_backward_Ok in Hset as [_ ->].
    apply (gait_built_after_gait P (current_gait net) 1%R
             (set_direction_phase 0%R net) H1).
  - destruct (turn_frame d factor net) as (Hn & Hcw & Hpb & _).
    by apply (gait_built_frame P net).
  - destruct (stop_turning_frame net) as (Hn & Hcw & Hpb).
    by apply (gait_built_frame P net).
  - destruct (ln_reset_frame now net) as (Hn & Hcw & Hpb).
    by apply (gait_built_frame P net).
Qed.

End Invariant.

(** C8, as stated, fails: a gait may be applied with a negative coupling
    strength, which goes into the matrix as it is.  After
    [set_tripod_gait(coupling_strength=-1.0)] on the default network the
    weight at (0, 1) is −1. *)
Lemma negative_coupling_weight_reachable :
  ∃ net,
    LocoNetwork.reachable euler_odeint (fun _ => True) net ∧
    mget (Loco.coupling_weights net) 0 1 = Some (-1)%R ∧
    ¬ matrices_ok net.
Proof.
  exists (NetworkLoco.set_tripod_gait (-1) true hexapod).
  assert (Hw : mget (Loco.coupling_weights
                       (NetworkLoco.set_tripod_gait (-1) true hexapod)) 0 1
               = Some (-1)%R).
  { rewrite nl_set_tripod_gait_eq.
    destruct (gait_loops_spec Tripod 6 (-1)%R) as (Hcw & _ & Hcells).
    destruct (Hcells 0 1) as [Hc _]; [lia|lia|].
    change (mget (fst (gait_loops Tripod 6 (-1)%R)) 0 1 = Some (-1)%R).
    rewrite (dims_mget 6) by (done || lia). by rewrite Hc. }
  split; [|split; [exact Hw|]].
  - apply (LocoNetwork.reach_set_tripod_gait _ _ 1 (-1)%R true hexapod); [|done|].
    + apply (LocoNetwork.reach_init _ _ 2 6 1 1 1 0)%R.
      apply hexapod_constructed_loconetwork.
    + apply ln_set_tripod_gait_forward. by left.
  - intros (_ & _ & Hcells).
    destruct (Hcells 0 1) as (w & p & Hw' & _ & _ & Hpos & _).
    + change (0 < 6). lia.
    + change (1 < 6). lia.
    + rewrite Hw in Hw'. injection Hw' as <-.
      assert (0 <= -1)%R by (apply Hpos; lia). lra.
Qed.

(** C8, amended.  In every state reached by construction, ticks, gait
    applications whose coupling strength is not negative, direction
    changes, turns, stop and reset, both matrices are [n × n] with zero
    diagonal, every coupling weight off the diagonal is ≥ 0 and every
    phase bias lies in [0, 2π). *)
Theorem reachable_matrices_ok
    (odeint : (list R → R → list R) → list R → list R → list (list R))
    (net : Loco.CoupledOscillatorNetwork) :
  LocoNetwork.reachable odeint (fun cs => (0 <= cs)%R) net → matrices_ok net.
Proof.
  intros Hreach. apply gait_built_matrices_ok.
  apply (reachable_gait_built odeint); [lra|done].
Qed.

Lemma reachable_matrices_ok_witness :
  LocoNetwork.reachable euler_odeint (fun cs => (0 <= cs)%R) hexapod ∧
  matrices_ok hexapod.
Proof.
  assert (Hreach : LocoNetwork.reachable euler_odeint (fun cs => (0 <= cs)%R) hexapod).
  { apply (LocoNetwork.reach_init _ _ 2 6 1 1 1 0)%R.
    apply hexapod_constructed_loconetwork. }
  split; [exact Hreach|].
  exact (reachable_matrices_ok euler_odeint hexapod Hreach).
Defined.

(** ** The shape of the arrays *)

Section WellFormed.
Import Loco.

Variable odeint : (list R → R → list R) → list R → list R → list (list R).

(** The rows [odeint] returns are as long as the initial state. *)
Hypothesis odeint_rows :
  ∀ func y0 t s, last (odeint func y0 t) = Some s → length s = length y0.

Lemma update_state_length (dt : option R) (now : R)
    (net net' : CoupledOscillatorNetwork) (xs : list R) :
  update odeint dt now net = Ok (net', xs) →
  length (state net') = length (state net).
Proof.
  unfold update. destruct dt as [dt|];
    (destruct (last _) as [s|] eqn:Hs; [|done]); simpl;
    (destruct (x_values _ s) as [ys|]; [|done]);
    intros [= <- <-]; apply odeint_rows in Hs; by destruct net.
Qed.

Lemma wf_after_gait (g : Gait) (cs : R) (net : CoupledOscillatorNetwork) :
  length (state net) = 2 * n net → length (frequencies net) = n net →
  length (amplitudes net) = n net →
  wf (set_matrices (gait_loops g (n net) cs) net).
Proof.
  intros Hs Hf Ha.
  destruct (gait_loops_spec g (n net) cs) as (Hcw & Hpb & _).
  unfold wf. by destruct net.
Qed.

Lemma wf_init_fields (k : Z) (a f m now : R) (net : CoupledOscillatorNetwork) :
  init_fields k a f m now = Ok net → wf net.
Proof.
  unfold init_fields. destruct (k <? 0)%Z; [done|]. intros [= <-].
  destruct (seed_state_spec (Z.to_nat k)) as [Hlen _].
  unfold wf. simpl. rewrite !length_replicate.
  repeat split; try done; apply dims_zeros2.
Qed.

Lemma restore_base_wf (net : CoupledOscillatorNetwork) :
  wf net → wf (restore_base net).
Proof.
  intros (Hst & Hfr & Ham & Hcw & Hpb). rewrite restore_base_eq.
  unfold wf. destruct net as [k A f w m st cw pb fr am g dp tu td tf lu].
  simpl in *. rewrite !fill_loop_replicate, !length_replicate by done. done.
Qed.

(** Every network a caller can hold has arrays of the constructor's shape:
    the indexed reads and writes of the methods are in range. *)
Lemma reachable_wf (P : R → Prop) (net : CoupledOscillatorNetwork) :
  LocoNetwork.reachable odeint P net → wf net.
Proof.
  induction 1 as
    [fuel k a f m now net Hinit
    |dt now net net' xs _ IH Hup
    |fuel cs rd net net' _ IH Hcs Hset
    |fuel cs rd net net' _ IH Hcs Hset
    |fuel b net net' _ IH Hset
    |fuel net net' _ IH Hset
    |d factor net _ IH
    |net _ IH
    |now net _ IH].
  - apply ln_init_Ok in Hinit as (net0 & H0 & ->).
    apply wf_init_fields in H0 as (Hs & Hf & Ha & _).
    rewrite nl_set_tripod_gait_eq.
    by apply (wf_after_gait Tripod 1%R
                (set_direction_phase 0%R (set_current_gait Tripod net0))).
  - pose proof (update_state_length _ _ _ _ _ Hup) as Hlen.
    apply update_frame in Hup. rewrite Hup.
    destruct IH as (Hs & Hf & Ha & Hcw & Hpb).
    unfold wf. destruct net; simpl in *. repeat split; try done; try lia;
      try apply Hcw; apply Hpb.
  - apply ln_set_tripod_gait_Ok in Hset as [-> _].
    destruct IH as (Hs & Hf & Ha & _). rewrite nl_set_tripod_gait_eq.
    destruct rd;
      [by apply (wf_after_gait Tripod cs
                   (set_direction_phase 0%R (set_current_gait Tripod net)))
      |by apply (wf_after_gait Tripod cs (set_current_gait Tripod net))].
  - apply ln_set_wave_gait_Ok in Hset as [-> _].
    destruct IH as (Hs & Hf & Ha & _). rewrite nl_set_wave_gait_eq.
    destruct rd;
      [by apply (wf_after_gait Wave cs
                   (set_direction_phase 0%R (set_current_gait Wave net)))
      |by apply (wf_after_gait Wave cs (set_current_gait Wave net))].
  - apply ln_set_backward_Ok in Hset as [_ ->].
    destruct IH as (Hs & Hf & Ha & _).
    by apply (wf_after_gait (current_gait net) 1%R (set_direction_phase 0%R net)).
  - destruct fuel as [|fuel]; [done|]. simpl in Hset.
    apply ln_set_backward_Ok in Hset as [_ ->].
    destruct IH as (Hs & Hf & Ha & _).
    by apply (wf_after_gait (current_gait net) 1%R (set_direction_phase 0%R net)).
  - by apply turn_preserves_wf.
  - unfold stop_turning. apply restore_base_wf.
    destruct IH as (Hs & Hf & Ha & Hcw & Hpb). unfold wf. by destruct net.
  - unfold LocoNetwork.reset.
    assert (Hwf : wf (restore_base (set_last_update_time now
                        (set_state (seed_state (n net)) net)))).
    { apply restore_base_wf. destruct IH as (Hs & Hf & Ha & Hcw & Hpb).
      destruct (seed_state_spec (n net)) as [Hlen _].
      unfold wf. by destruct net. }
    destruct Hwf as (Hs & Hf & Ha & Hcw & Hpb). unfold wf.
    by destruct (restore_base _).
Qed.

End WellFormed.

(** In cpg_network_loco.py, where [set_backward] returns, the shifted
    matrix keeps the invariant: the remainder modulo 2π lies in [0, 2π). *)
Lemma nl_set_backward_matrices_ok (backward : bool)
    (net : Loco.CoupledOscillatorNetwork) :
  matrices_ok (NetworkLoco.set_backward backward net).
Proof.
  destruct (nl_set_backward_spec backward net)
    as (_ & _ & Hn & Hcw & Hpb & Hcells).
  unfold matrices_ok. rewrite Hn.
  split; [done|]. split; [done|]. intros i j Hi Hj.
  destruct (Hcells i j Hi Hj) as [Hc Hp].
  eexists _, _. split; [exact Hc|]. split; [exact Hp|].
  pose proof two_PI_pos as H2pi.
  pose proof (Rfmod_range
    (gait_phase (Loco.current_gait net) (Loco.n net) i j
     + (if backward then PI else 0)) (2 * PI) H2pi) as Hr.
  destruct (decide (i = j)); repeat split; try done; lra.
Qed.

(** ** One oscillator *)

(** The radial part of the Hopf field: along the field, half the
    derivative of x² + y² is μ·(amplitude − r²)·r², which vanishes on the
    circle r² = amplitude and pushes towards it from both sides when μ > 0.
    (What the integrator makes of it over many ticks is outside this
    model.) *)
Lemma hopf_radial (osc : Hopf.HopfOscillator) (x y t : R) :
  let '(dx, dy) := Hopf.equations osc (x, y) t in
  (x * dx + y * dy
   = Hopf.mu osc * (Hopf.amplitude osc - (x ^ 2 + y ^ 2)) * (x ^ 2 + y ^ 2))%R.
Proof. simpl. ring. Qed.

(** ** The extended and the plain network (C10) *)

Section Refinement.

Variable odeint : (list R → R → list R) → list R → list R → list (list R).

Lemma equations_pointwise (ext : Loco.CoupledOscillatorNetwork)
    (plain : Plain.CoupledOscillatorNetwork)
    (st : list R) (t : R) :
  same_network ext plain → at_base ext →
  Loco.equations ext st t = Plain.equations plain st t.
Proof.
  intros (Hn & Ha & Hw & Hm & _ & Hcw & Hpb & _) Hbase.
  unfold Loco.equations, Plain.equations.
  rewrite Hn, Ha, Hw, Hm, Hcw, Hpb.
  apply for_range_ext. intros i d Hi.
  destruct (Hbase i Hi) as [Hai Hfi].
  rewrite (list_lookup_total_correct _ _ _ Hai).
  rewrite (list_lookup_total_correct _ _ _ Hfi).
  reflexivity.
Qed.

Lemma equations_equal (ext : Loco.CoupledOscillatorNetwork)
    (plain : Plain.CoupledOscillatorNetwork) :
  same_network ext plain → at_base ext →
  Loco.equations ext = Plain.equations plain.
Proof.
  intros Hsame Hbase.
  apply functional_extensionality. intros st.
  apply functional_extensionality. intros t.
  by apply equations_pointwise.
Qed.

Lemma same_network_tick (ext : Loco.CoupledOscillatorNetwork)
    (plain : Plain.CoupledOscillatorNetwork)
    (s : list R) (t : R) :
  same_network ext plain →
  same_network (Loco.set_state s (Loco.set_last_update_time t ext))
    (Plain.set_state s (Plain.set_last_update_time t plain)).
Proof.
  intros (Hn & Ha & Hw & Hm & Hs & Hcw & Hpb & Ht).
  destruct ext, plain; simpl in *. by repeat split.
Qed.

Lemma at_base_tick (ext : Loco.CoupledOscillatorNetwork) (s : list R) (t : R) :
  at_base ext → at_base (Loco.set_state s (Loco.set_last_update_time t ext)).
Proof. by destruct ext. Qed.

(** One tick on both sides: the same outcome. *)
Lemma update_coincides (dt : option R) (now : R)
    (ext : Loco.CoupledOscillatorNetwork) (plain : Plain.CoupledOscillatorNetwork) :
  same_network ext plain → at_base ext →
  match Loco.update odeint dt now ext, Plain.update odeint dt now plain with
  | Ok (ext', xs), Ok (plain', ys) =>
      same_network ext' plain' ∧ at_base ext' ∧ xs = ys
  | Err e, Err e' => e = e'
  | _, _ => False
  end.
Proof.
  intros Hsame Hbase.
  set (t' := match dt with None => now | Some _ => Loco.last_update_time ext end).
  set (d := match dt with
            | None => (now - Loco.last_update_time ext)%R
            | Some d => d
            end).
  pose proof Hsame as (Hn & Ha & Hw & Hm & Hs & Hcw & Hpb & Ht).
  assert (He : Loco.update odeint dt now ext
    = match last (odeint (Loco.equations ext) (Loco.state ext) [0%R; d]) with
      | None => Err IndexError
      | Some s =>
          match x_values (Loco.n ext) s with
          | None => Err IndexError
          | Some xs =>
              Ok (Loco.set_state s (Loco.set_last_update_time t' ext), xs)
          end
      end).
  { unfold Loco.update, t', d. destruct dt; destruct ext; simpl;
      destruct (last _); try done; destruct (x_values _ _); done. }
  assert (Hp : Plain.update odeint dt now plain
    = match last (odeint (Plain.equations plain) (Plain.state plain) [0%R; d]) with
      | None => Err IndexError
      | Some s =>
          match x_values (Plain.n plain) s with
          | None => Err IndexError
          | Some xs =>
              Ok (Plain.set_state s (Plain.set_last_update_time t' plain), xs)
          end
      end).
  { unfold Plain.update, t', d. rewrite <- Ht.
    destruct dt; destruct plain; simpl;
      destruct (last _); try done; destruct (x_values _ _); done. }
  rewrite He, Hp, <- (equations_equal ext plain Hsame Hbase), Hs, Hn.
  destruct (last _) as [s|]; [|done].
  destruct (x_values _ s) as [xs|]; [|done].
  split; [by apply same_network_tick|]. split; [by apply at_base_tick|done].
Qed.

(** C10.  When every per-oscillator amplitude and frequency is at its
    base value, the derivative function of the extended network is that of
    the plain network with the same configuration and matrices, at every
    state vector and time; hence every run of ticks from the same state
    gives the same outputs (or the same error) on both. *)
Theorem extended_refines_plain (ext : Loco.CoupledOscillatorNetwork)
    (plain : Plain.CoupledOscillatorNetwork) :
  same_network ext plain → at_base ext →
  (∀ st t, Loco.equations ext st t = Plain.equations plain st t) ∧
  (∀ ticks,
     outputs (Loco.run odeint ticks ext) = outputs (Plain.run odeint ticks plain)).
Proof.
  intros Hsame Hbase. split.
  - intros st t. by apply equations_pointwise.
  - intros ticks. revert ext plain Hsame Hbase.
    induction ticks as [|[dt now] ticks IH]; intros ext plain Hsame Hbase.
    + reflexivity.
    + pose proof (update_coincides dt now ext plain Hsame Hbase) as Hstep.
      simpl.
      destruct (Loco.update odeint dt now ext) as [[ext' xs]|e];
        destruct (Plain.update odeint dt now plain) as [[plain' ys]|e'];
        try done.
      * destruct Hstep as (Hsame' & Hbase' & ->). simpl.
        specialize (IH ext' plain' Hsame' Hbase').
        destruct (Loco.run odeint ticks ext') as [[e1 o1]|e1];
          destruct (Plain.run odeint ticks plain') as [[p1 o2]|e2];
          simpl in *; congruence.
      * simpl. by rewrite Hstep.
Qed.

End Refinement.

(** The base values hold after construction, [stop_turning] and [reset]. *)
Lemma at_base_init_fields (k : Z) (a f m now : R)
    (net : Loco.CoupledOscillatorNetwork) :
  Loco.init_fields k a f m now = Ok net → at_base net.
Proof.
  unfold Loco.init_fields. destruct (k <? 0)%Z; [done|]. intros [= <-].
  intros i Hi. simpl in *. rewrite !lookup_replicate_2 by done.
  split; f_equal; ring.
Qed.

Lemma at_base_restore_base (net : Loco.CoupledOscillatorNetwork) :
  length (Loco.amplitudes net) = Loco.n net →
  length (Loco.frequencies net) = Loco.n net →
  at_base (Loco.restore_base net).
Proof.
  intros Ha Hf. rewrite restore_base_eq. intros i Hi.
  destruct net as [k A f w m st cw pb fr am g dp tu td tf lu]. simpl in *.
  rewrite !fill_loop_replicate by done. by rewrite !lookup_replicate_2.
Qed.

Lemma hexapod_at_base : at_base hexapod.
Proof.
  intros i Hi. rewrite hexapod_n in Hi.
  change (Loco.amplitudes hexapod) with (replicate 6 (1 * 1)%R).
  change (Loco.frequencies hexapod) with (replicate 6 (1 * 1)%R).
  rewrite hexapod_amplitude, hexapod_base_frequency.
  rewrite !lookup_replicate_2 by done. split; f_equal; ring.
Qed.

Lemma same_network_plain_view (ext : Loco.CoupledOscillatorNetwork) :
  same_network ext (plain_view ext).
Proof. by repeat split. Qed.

Lemma extended_refines_plain_witness :
  same_network hexapod (plain_view hexapod) ∧ at_base hexapod ∧
  (∀ st t,
     Loco.equations hexapod st t = Plain.equations (plain_view hexapod) st t) ∧
  (∀ ticks,
     outputs (Loco.run euler_odeint ticks hexapod)
     = outputs (Plain.run euler_odeint ticks (plain_view hexapod))).
Proof.
  split; [exact (same_network_plain_view hexapod)|].
  split; [exact hexapod_at_base|].
  exact (extended_refines_plain euler_odeint hexapod (plain_view hexapod)
           (same_network_plain_view hexapod) hexapod_at_base).
Defined.

(** * Further properties *)

(** ** Turning and stopping *)

Lemma fill_loop_tabulate (k : nat) (f : nat → R) (l : list R) :
  length l = k → for_range k (fun i l => <[i := f i]> l) l = f <$> seq 0 k.
Proof.
  intros Hl. destruct (fill_loop_spec k f l) as [Hlen Hget]; [lia|].
  apply list_eq. intros i. rewrite Hget, list_lookup_fmap.
  destruct (decide (i < k)).
  - by rewrite lookup_seq_lt.
  - rewrite lookup_seq_ge by lia. simpl. apply lookup_ge_None. lia.
Qed.

Lemma turn_tabulate (d : TurnDirection) (factor : R)
    (net : Loco.CoupledOscillatorNetwork) :
  length (Loco.amplitudes net) = Loco.n net →
  length (Loco.frequencies net) = Loco.n net →
  Loco.turn d factor net
  = Loco.set_frequencies
      (turn_frequency d net (py_max 0 (py_min 1 factor)) <$> seq 0 (Loco.n net))
      (Loco.set_amplitudes
         (turn_amplitude d net (py_max 0 (py_min 1 factor)) <$> seq 0 (Loco.n net))
         (Loco.set_turn_state true (Some d) (py_max 0 (py_min 1 factor)) net)).
Proof.
  intros Ha Hf. destruct d; simpl Loco.turn.
  - pose proof (turn_left_eq factor net) as Heq. simpl in Heq. rewrite Heq.
    by rewrite !fill_loop_tabulate.
  - pose proof (turn_right_eq factor net) as Heq. simpl in Heq. rewrite Heq.
    by rewrite !fill_loop_tabulate.
Qed.

Lemma stop_turning_replicate (net : Loco.CoupledOscillatorNetwork) :
  length (Loco.amplitudes net) = Loco.n net →
  length (Loco.frequencies net) = Loco.n net →
  Loco.stop_turning net
  = Loco.set_frequencies (replicate (Loco.n net) (Loco.base_frequency net))
      (Loco.set_amplitudes (replicate (Loco.n net) (Loco.amplitude net))
         (Loco.set_turn_state false None 0%R net)).
Proof.
  intros Ha Hf. unfold Loco.stop_turning. rewrite restore_base_eq.
  destruct net as [k A f w m st cw pb fr am g dp tu td tf lu]. simpl in *.
  by rewrite !fill_loop_replicate.
Qed.

Lemma turn_lookup (d : TurnDirection) (factor : R)
    (net : Loco.CoupledOscillatorNetwork) (i : nat) :
  length (Loco.amplitudes net) = Loco.n net →
  length (Loco.frequencies net) = Loco.n net →
  i < Loco.n net →
  Loco.amplitudes (Loco.turn d factor net) !! i
  = Some (turn_amplitude d net (py_max 0 (py_min 1 factor)) i) ∧
  Loco.frequencies (Loco.turn d factor net) !! i
  = Some (turn_frequency d net (py_max 0 (py_min 1 factor)) i).
Proof.
  intros Ha Hf Hi. rewrite turn_tabulate by done.
  destruct net as [k A f w m st cw pb fr am g dp tu td tf lu]. simpl in *.
  rewrite !list_lookup_fmap, !lookup_seq_lt by done. done.
Qed.

(** X1.  [stop_turning] undoes a turn: whatever the direction and the
    factor, after [turn] then [stop_turning] every amplitude and frequency
    is exactly the base value, the turn state is inactive, and the network
    is the one [stop_turning] alone would have left. *)
Theorem stop_turning_undoes_turn (d : TurnDirection) (factor : R)
    (net : Loco.CoupledOscillatorNetwork) :
  length (Loco.amplitudes net) = Loco.n net →
  length (Loco.frequencies net) = Loco.n net →
  Loco.stop_turning (Loco.turn d factor net) = Loco.stop_turning net ∧
  Loco.amplitudes (Loco.stop_turning (Loco.turn d factor net))
  = replicate (Loco.n net) (Loco.amplitude net) ∧
  Loco.frequencies (Loco.stop_turning (Loco.turn d factor net))
  = replicate (Loco.n net) (Loco.base_frequency net) ∧
  Loco.turning (Loco.stop_turning (Loco.turn d factor net)) = false ∧
  Loco.turning_direction (Loco.stop_turning (Loco.turn d factor net)) = None ∧
  Loco.turning_factor (Loco.stop_turning (Loco.turn d factor net)) = 0%R.
Proof.
  intros Ha Hf.
  rewrite (stop_turning_replicate net) by done.
  rewrite (turn_tabulate d factor net) by done.
  rewrite stop_turning_replicate.
  - by destruct net.
  - destruct net; simpl in *. by rewrite length_fmap, length_seq.
  - destruct net; simpl in *. by rewrite length_fmap, length_seq.
Qed.

Lemma hexapod_lengths :
  length (Loco.amplitudes hexapod) = Loco.n hexapod ∧
  length (Loco.frequencies hexapod) = Loco.n hexapod.
Proof. split; reflexivity. Qed.

Lemma stop_turning_undoes_turn_witness :
  length (Loco.amplitudes hexapod) = Loco.n hexapod ∧
  length (Loco.frequencies hexapod) = Loco.n hexapod ∧
  Loco.stop_turning (Loco.turn TurnLeft 0.7 hexapod) = Loco.stop_turning hexapod.
Proof.
  split; [exact (proj1 hexapod_lengths)|].
  split; [exact (proj2 hexapod_lengths)|].
  exact (proj1 (stop_turning_undoes_turn TurnLeft 0.7 hexapod
                  (proj1 hexapod_lengths) (proj2 hexapod_lengths))).
Defined.


(** X2.  Whatever factor is passed, a turn keeps every leg within a fixed
    band of its base values: the amplitude between 0.5 and 1.5 times the
    base amplitude, the frequency between 0.7 and 1.3 times the base
    frequency (base values not negative).  No leg is ever stopped or
    reversed by turning. *)
Theorem turn_keeps_legs_in_band (d : TurnDirection) (factor : R)
    (net : Loco.CoupledOscillatorNetwork) (i : nat) :
  length (Loco.amplitudes net) = Loco.n net →
  length (Loco.frequencies net) = Loco.n net →
  i < Loco.n net →
  (0 <= Loco.amplitude net)%R → (0 <= Loco.base_frequency net)%R →
  ∃ a fq,
    Loco.amplitudes (Loco.turn d factor net) !! i = Some a ∧
    Loco.frequencies (Loco.turn d factor net) !! i = Some fq ∧
    (0.5 * Loco.amplitude net <= a <= 1.5 * Loco.amplitude net)%R ∧
    (0.7 * Loco.base_frequency net <= fq <= 1.3 * Loco.base_frequency net)%R.
Proof.
  intros Ha Hf Hi HA HF.
  destruct (turn_lookup d factor net i Ha Hf Hi) as [Hai Hfi].
  destruct (clamp_spec factor) as [_ Hc].
  set (f := py_max 0 (py_min 1 factor)) in *.
  eexists _, _. split; [exact Hai|]. split; [exact Hfi|].
  unfold turn_amplitude, turn_frequency, left_amplitude, left_frequency,
    right_amplitude, right_frequency.
  destruct d; destruct (i mod 2 =? 0); split; nra.
Qed.

Lemma turn_keeps_legs_in_band_witness :
  length (Loco.amplitudes hexapod) = Loco.n hexapod ∧
  length (Loco.frequencies hexapod) = Loco.n hexapod ∧
  3 < Loco.n hexapod ∧
  (0 <= Loco.amplitude hexapod)%R ∧ (0 <= Loco.base_frequency hexapod)%R ∧
  ∃ a fq,
    Loco.amplitudes (Loco.turn TurnRight 5 hexapod) !! 3 = Some a ∧
    Loco.frequencies (Loco.turn TurnRight 5 hexapod) !! 3 = Some fq ∧
    (0.5 * Loco.amplitude hexapod <= a <= 1.5 * Loco.amplitude hexapod)%R ∧
    (0.7 * Loco.base_frequency hexapod <= fq
     <= 1.3 * Loco.base_frequency hexapod)%R.
Proof.
  assert (H3 : 3 < Loco.n hexapod) by (rewrite hexapod_n; lia).
  assert (HA : (0 <= Loco.amplitude hexapod)%R)
    by (rewrite hexapod_amplitude; lra).
  assert (HF : (0 <= Loco.base_frequency hexapod)%R)
    by (rewrite hexapod_base_frequency; lra).
  split; [exact (proj1 hexapod_lengths)|].
  split; [exact (proj2 hexapod_lengths)|].
  split; [exact H3|]. split; [exact HA|]. split; [exact HF|].
  exact (turn_keeps_legs_in_band TurnRight 5 hexapod 3
           (proj1 hexapod_lengths) (proj2 hexapod_lengths) H3 HA HF).
Defined.



(** X4.  The last turn wins: a turn overwrites whatever an earlier turn
    had set, so [turn] after [turn] is the second [turn] alone (and a turn
    repeated is the turn once). *)
Theorem turn_overwrites_turn (d d' : TurnDirection) (factor factor' : R)
    (net : Loco.CoupledOscillatorNetwork) :
  length (Loco.amplitudes net) = Loco.n net →
  length (Loco.frequencies net) = Loco.n net →
  Loco.turn d factor (Loco.turn d' factor' net) = Loco.turn d factor net.
Proof.
  intros Ha Hf.
  rewrite (turn_tabulate d factor net) by done.
  rewrite (turn_tabulate d' factor' net) by done.
  rewrite turn_tabulate.
  - destruct net, d; reflexivity.
  - destruct net; simpl in *. by rewrite length_fmap, length_seq.
  - destruct net; simpl in *. by rewrite length_fmap, length_seq.
Qed.

Lemma turn_overwrites_turn_witness :
  length (Loco.amplitudes hexapod) = Loco.n hexapod ∧
  length (Loco.frequencies hexapod) = Loco.n hexapod ∧
  Loco.turn TurnLeft 0.2 (Loco.turn TurnRight 0.9 hexapod)
  = Loco.turn TurnLeft 0.2 hexapod.
Proof.
  split; [exact (proj1 hexapod_lengths)|].
  split; [exact (proj2 hexapod_lengths)|].
  exact (turn_overwrites_turn TurnLeft TurnRight 0.2 0.9 hexapod
           (proj1 hexapod_lengths) (proj2 hexapod_lengths)).
Defined.

(** ** Direction in cpg_network_loco.py *)

(** X5.  In cpg_network_loco.py the direction methods work: after
    [set_backward(backward)] the direction phase is π or 0, the gait tag is
    kept, and every off-diagonal phase bias is the current gait's value
    plus the direction phase modulo 2π, the diagonal staying 0.  The
    direction last set wins, so backward then forward gives exactly the
    matrix of forward alone, and setting a direction twice changes nothing
    more. *)
Theorem network_loco_direction (backward backward' : bool)
    (net : Loco.CoupledOscillatorNetwork) :
  let net' := NetworkLoco.set_backward backward net in
  Loco.direction_phase net' = (if backward then PI else 0%R) ∧
  Loco.current_gait net' = Loco.current_gait net ∧
  (∀ i j, i < Loco.n net → j < Loco.n net →
     mget (Loco.phase_biases net') i j
     = Some (if decide (i = j) then 0%R
             else Rfmod (gait_phase (Loco.current_gait net) (Loco.n net) i j
                         + (if backward then PI else 0%R)) (2 * PI))) ∧
  NetworkLoco.set_backward backward (NetworkLoco.set_backward backward' net) = net' ∧
  NetworkLoco.set_forward (NetworkLoco.set_backward true net)
  = NetworkLoco.set_forward net ∧
  Loco.phase_biases (NetworkLoco.set_forward net)
  = snd (gait_loops (Loco.current_gait net) (Loco.n net) 1%R).
Proof.
  intros net'. subst net'.
  destruct (nl_set_backward_spec backward net) as (Hdp & Hg & _ & _ & _ & Hcells).
  split; [exact Hdp|]. split; [exact Hg|].
  split; [intros i j Hi Hj; by destruct (Hcells i j Hi Hj)|].
  unfold NetworkLoco.set_forward. rewrite !nl_set_backward_eq.
  destruct net as [k A f w m st cw pb fr am g dp tu td tf lu].
  by destruct backward, backward'.
Qed.



(** ** The gait matrices of cpg_network.py *)

Lemma plain_set_gait_eq (cs : R) (net : Plain.CoupledOscillatorNetwork) :
  Plain.set_tripod_gait cs net
  = Plain.set_matrices (gait_loops Tripod (Plain.n net) cs) net ∧
  Plain.set_wave_gait cs net
  = Plain.set_matrices (gait_loops Wave (Plain.n net) cs) net.
Proof. by destruct net. Qed.





(** ** What the calls of cpg_loconetwork.py keep true *)

Section LocoInvariant.
Import Loco.

Variable odeint : (list R → R → list R) → list R → list R → list (list R).
Variable P : R → Prop.
Hypothesis P_default : P 1%R.

(** Replacing the state, the matrices, the gait tag, the direction phase
    or the time of the last update does not disturb the turn state. *)
Lemma turn_consistent_frame (net net' : CoupledOscillatorNetwork) :
  n net' = n net → amplitude net' = amplitude net →
  base_frequency net' = base_frequency net →
  amplitudes net' = amplitudes net → frequencies net' = frequencies net →
  turning net' = turning net → turning_direction net' = turning_direction net →
  turning_factor net' = turning_factor net →
  turn_consistent net → turn_consistent net'.
Proof.
  destruct net, net'. simpl. intros -> -> -> -> -> -> -> ->. done.
Qed.

Lemma loco_invariant_after_gait (g : Gait) (cs : R)
    (net : CoupledOscillatorNetwork) :
  P cs → length (amplitudes net) = n net → length (frequencies net) = n net →
  turn_consistent net →
  loco_invariant P
    (set_matrices (gait_loops g (n net) cs)
       (set_direction_phase 0%R (set_current_gait g net))).
Proof.
  intros Hcs Ha Hf Ht. unfold loco_invariant.
  split; [by destruct net|]. split; [by destruct net|]. split; [by destruct net|].
  split.
  - apply (turn_consistent_frame net); by destruct net.
  - exists cs. split; [done|]. destruct net; simpl. by destruct (gait_loops _ _ _).
Qed.

Lemma loco_invariant_frame (net net' : CoupledOscillatorNetwork) :
  n net' = n net → amplitude net' = amplitude net →
  base_frequency net' = base_frequency net →
  amplitudes net' = amplitudes net → frequencies net' = frequencies net →
  turning net' = turning net → turning_direction net' = turning_direction net →
  turning_factor net' = turning_factor net →
  direction_phase net' = direction_phase net →
  current_gait net' = current_gait net →
  coupling_weights net' = coupling_weights net →
  phase_biases net' = phase_biases net →
  loco_invariant P net → loco_invariant P net'.
Proof.
  intros Hn HA HF Ha Hf Ht Hd Htf Hdp Hg Hcw Hpb (Idp & Ia & If & It & cs & Hcs & Hm).
  unfold loco_invariant. rewrite Hdp, Ha, Hf, Hn, Hg, Hcw, Hpb.
  split; [done|]. split; [done|]. split; [done|]. split; [|eauto].
  by apply (turn_consistent_frame net).
Qed.

Lemma turn_consistent_turn (d : TurnDirection) (factor : R)
    (net : CoupledOscillatorNetwork) :
  length (amplitudes net) = n net → length (frequencies net) = n net →
  turn_consistent (turn d factor net).
Proof.
  intros Ha Hf. destruct (clamp_spec factor) as [_ Hc].
  assert (Hlook : ∀ i, i < n net →
    amplitudes (turn d factor net) !! i
    = Some (turn_amplitude d net (py_max 0 (py_min 1 factor)) i) ∧
    frequencies (turn d factor net) !! i
    = Some (turn_frequency d net (py_max 0 (py_min 1 factor)) i))
    by (intros i Hi; by apply turn_lookup).
  revert Hlook. rewrite (turn_tabulate d factor net) by done.
  unfold turn_consistent. destruct net, d; simpl; intros Hlook; done.
Qed.

Lemma turn_consistent_base (net : CoupledOscillatorNetwork) :
  turning net = false → turning_direction net = None →
  turning_factor net = 0%R →
  amplitudes net = replicate (n net) (amplitude net) →
  frequencies net = replicate (n net) (base_frequency net) →
  turn_consistent net.
Proof.
  intros Ht Hd Hf Ha Hfr. unfold turn_consistent. rewrite Hd.
  split; [done|]. split; [done|]. intros i Hi. rewrite Ha, Hfr.
  by rewrite !lookup_replicate_2.
Qed.

Lemma reachable_loco_invariant (net : CoupledOscillatorNetwork) :
  LocoNetwork.reachable odeint P net → loco_invariant P net.
Proof.
  induction 1 as
    [fuel k a f m now net Hinit
    |dt now net net' xs _ IH Hup
    |fuel cs rd net net' _ IH Hcs Hset
    |fuel cs rd net net' _ IH Hcs Hset
    |fuel b net net' _ IH Hset
    |fuel net net' _ IH Hset
    |d factor net _ IH
    |net _ IH
    |now net _ IH].
  - apply ln_init_Ok in Hinit as (net0 & H0 & ->).
    rewrite nl_set_tripod_gait_eq.
    pose proof (at_base_init_fields _ _ _ _ _ _ H0) as Hbase.
    unfold init_fields in H0. destruct (k <? 0)%Z; [done|].
    injection H0 as <-.
    apply (loco_invariant_after_gait Tripod 1%R); simpl;
      rewrite ?length_replicate; try done.
  - apply update_frame in Hup. rewrite Hup.
    apply (loco_invariant_frame net); by destruct net.
  - apply ln_set_tripod_gait_Ok in Hset as [-> Hdp].
    destruct IH as (Idp & Ia & If & It & _).
    rewrite nl_set_tripod_gait_eq.
    destruct rd; [by apply (loco_invariant_after_gait Tripod cs)|].
    replace (set_current_gait Tripod net)
      with (set_direction_phase 0%R (set_current_gait Tripod net))
      by (destruct net; simpl in *; by subst).
    by apply (loco_invariant_after_gait Tripod cs).
  - apply ln_set_wave_gait_Ok in Hset as [-> Hdp].
    destruct IH as (Idp & Ia & If & It & _).
    rewrite nl_set_wave_gait_eq.
    destruct rd; [by apply (loco_invariant_after_gait Wave cs)|].
    replace (set_current_gait Wave net)
      with (set_direction_phase 0%R (set_current_gait Wave net))
      by (destruct net; simpl in *; by subst).
    by apply (loco_invariant_after_gait Wave cs).
  - apply ln_set_backward_Ok in Hset as [_ ->].
    destruct IH as (Idp & Ia & If & It & _).
    replace (set_direction_phase 0%R net)
      with (set_direction_phase 0%R (set_current_gait (current_gait net) net))
      by (by destruct net).
    replace (current_gait net)
      with (current_gait (set_current_gait (current_gait net) net)) at 1
      by (by destruct net).
    by apply (loco_invariant_after_gait (current_gait net) 1%R).
  - destruct fuel as [|fuel]; [done|]. simpl in Hset.
    apply ln_set_backward_Ok in Hset as [_ ->].
    destruct IH as (Idp & Ia & If & It & _).
    replace (set_direction_phase 0%R net)
      with (set_direction_phase 0%R (set_current_gait (current_gait net) net))
      by (by destruct net).
    by apply (loco_invariant_after_gait (current_gait net) 1%R).
  - destruct IH as (Idp & Ia & If & It & cs & Hcs & Hm).
    pose proof (turn_consistent_turn d factor net Ia If) as Htc.
    revert Htc. rewrite (turn_tabulate d factor net) by done. intros Htc.
    unfold loco_invariant.
    destruct net; simpl in *. rewrite !length_fmap, !length_seq.
    repeat (split; [done|]). eauto.
  - destruct IH as (Idp & Ia & If & It & cs & Hcs & Hm).
    rewrite stop_turning_replicate by done. unfold loco_invariant.
    split; [by destruct net|].
    split; [destruct net; simpl; by rewrite length_replicate|].
    split; [destruct net; simpl; by rewrite length_replicate|].
    split; [apply turn_consistent_base; by destruct net|].
    exists cs. by destruct net.
  - destruct IH as (Idp & Ia & If & It & cs & Hcs & Hm).
    unfold LocoNetwork.reset. rewrite restore_base_eq.
    unfold loco_invariant.
    destruct net as [k A f w m st cw pb fr am g dp tu td tf lu]. simpl in *.
    rewrite !fill_loop_replicate, !length_replicate by done.
    repeat (split; [done|]). split; [|eauto].
    by apply turn_consistent_base.
Qed.

End LocoInvariant.

Lemma reachable_weaken
    (odeint : (list R → R → list R) → list R → list R → list (list R))
    (P : R → Prop) (net : Loco.CoupledOscillatorNetwork) :
  LocoNetwork.reachable odeint P net →
  LocoNetwork.reachable odeint (fun _ => True) net.
Proof.
  induction 1.
  - by eapply LocoNetwork.reach_init.
  - by eapply LocoNetwork.reach_update.
  - by eapply LocoNetwork.reach_set_tripod_gait.
  - by eapply LocoNetwork.reach_set_wave_gait.
  - by eapply LocoNetwork.reach_set_backward.
  - by eapply LocoNetwork.reach_set_forward.
  - by apply LocoNetwork.reach_turn.
  - by apply LocoNetwork.reach_stop_turning.
  - by apply LocoNetwork.reach_reset.
Qed.

Lemma hexapod_reachable (P : R → Prop) :
  LocoNetwork.reachable euler_odeint P hexapod.
Proof.
  apply (LocoNetwork.reach_init _ _ 2 6 1 1 1 0)%R.
  apply hexapod_constructed_loconetwork.
Qed.



(** X9.  In cpg_loconetwork.py the turn state and the per-leg arrays never
    disagree: after any calls that return, either no turn is recorded
    ([turning] false, direction [None], factor 0) and every amplitude and
    frequency is at its base value, or a turn is recorded with a factor in
    [0, 1] and every leg holds exactly what that direction and factor
    assign to it. *)
Theorem loconetwork_turn_state_consistent
    (odeint : (list R → R → list R) → list R → list R → list (list R))
    (P : R → Prop) (net : Loco.CoupledOscillatorNetwork) :
  LocoNetwork.reachable odeint P net → turn_consistent net.
Proof.
  intros Hr. apply reachable_weaken in Hr.
  by destruct (reachable_loco_invariant odeint (fun _ => True) I net Hr)
    as (_ & _ & _ & Ht & _).
Qed.

Lemma loconetwork_turn_state_consistent_witness :
  LocoNetwork.reachable euler_odeint (fun _ => True)
    (Loco.turn TurnRight 0.5 hexapod) ∧
  turn_consistent (Loco.turn TurnRight 0.5 hexapod).
Proof.
  assert (Hr : LocoNetwork.reachable euler_odeint (fun _ => True)
                 (Loco.turn TurnRight 0.5 hexapod))
    by (apply LocoNetwork.reach_turn, hexapod_reachable).
  split; [exact Hr|].
  exact (loconetwork_turn_state_consistent euler_odeint (fun _ => True) _ Hr).
Defined.



(** ** The derivative function in closed form *)

Lemma interleave_S (fx fy : nat → R) (k : nat) :
  interleave fx fy (S k) = interleave fx fy k ++ [fx k; fy k].
Proof.
  unfold interleave. rewrite seq_S, flat_map_app. reflexivity.
Qed.

Lemma length_interleave (fx fy : nat → R) (k : nat) :
  length (interleave fx fy k) = 2 * k.
Proof.
  induction k as [|k IH]; [done|].
  rewrite interleave_S, length_app, IH. simpl. lia.
Qed.

Lemma interleave_lookup (fx fy : nat → R) (k i : nat) :
  i < k →
  interleave fx fy k !! (2 * i) = Some (fx i) ∧
  interleave fx fy k !! (2 * i + 1) = Some (fy i).
Proof.
  induction k as [|k IH]; [lia|]. intros Hi.
  rewrite interleave_S. destruct (decide (i = k)) as [->|Hne].
  - rewrite !lookup_app_r by (rewrite length_interleave; lia).
    rewrite length_interleave.
    replace (2 * k - 2 * k) with 0 by lia.
    replace (2 * k + 1 - 2 * k) with 1 by lia. done.
  - destruct IH as [H0 H1]; [lia|].
    rewrite !lookup_app_l by (rewrite length_interleave; lia). done.
Qed.

(** The loop that writes [derivatives[2*i]] and [derivatives[2*i + 1]]
    fills the vector pair by pair. *)
Lemma interleave_loop (fx fy : nat → R) (k : nat) (l : list R) :
  length l = 2 * k →
  for_range k (fun i d => <[2 * i + 1 := fy i]> (<[2 * i := fx i]> d)) l
  = interleave fx fy k.
Proof.
  intros Hl.
  pose proof (for_range_ind (fun m d =>
    length d = 2 * k ∧
    ∀ i, i < m → d !! (2 * i) = Some (fx i) ∧ d !! (2 * i + 1) = Some (fy i)) k
    (fun i d => <[2 * i + 1 := fy i]> (<[2 * i := fx i]> d)) l) as Hloop.
  destruct Hloop as [Hlen Hget].
  - split; [done|]. intros i Hi. lia.
  - intros m d Hm [Hlen Hget]. split; [by rewrite !length_insert|].
    intros i Hi. destruct (decide (i = m)) as [->|Hne].
    + split.
      * rewrite list_lookup_insert_ne by lia.
        apply list_lookup_insert_eq. lia.
      * apply list_lookup_insert_eq. rewrite length_insert. lia.
    + rewrite !list_lookup_insert_ne by lia. apply Hget. lia.
  - apply list_eq. intros m.
    destruct (decide (m < 2 * k)) as [Hm|Hm].
    + destruct (Nat.Even_or_Odd m) as [[i ->]|[i ->]].
      * destruct (Hget i) as [-> _]; [lia|].
        by destruct (interleave_lookup fx fy k i) as [-> _]; [lia|].
      * destruct (Hget i) as [_ ->]; [lia|].
        by destruct (interleave_lookup fx fy k i) as [_ ->]; [lia|].
    + rewrite !(proj2 (lookup_ge_None _ _)); [done| |].
      * rewrite length_interleave. lia.
      * lia.
Qed.

Section EquationsClosedForm.
Import Loco.

(** The inner loop over [j] adds up the pulls of all other oscillators;
    the test [coupling_weights[i, j] != 0] only skips terms that are 0. *)
Lemma coupling_loop (net : CoupledOscillatorNetwork) (st : list R) (i k : nat)
    (dx dy : R) :
  for_range k (fun j '(dx_i, dy_i) =>
    if negb (i =? j)%nat then
      if Req_dec_T ((coupling_weights net !!! i) !!! j) 0 then (dx_i, dy_i)
      else
        let x_j := st !!! (2 * j)%nat in
        let y_j := st !!! (2 * j + 1)%nat in
        let phase_bias := (phase_biases net !!! i) !!! j in
        let coupling_term_x := (x_j * cos phase_bias - y_j * sin phase_bias)%R in
        let coupling_term_y := (x_j * sin phase_bias + y_j * cos phase_bias)%R in
        ((dx_i + (coupling_weights net !!! i) !!! j
                 * (coupling_term_x - st !!! (2 * i)%nat))%R,
         (dy_i + (coupling_weights net !!! i) !!! j
                 * (coupling_term_y - st !!! (2 * i + 1)%nat))%R)
    else (dx_i, dy_i)) (dx, dy)
  = ((dx + sum_below (coupling_x net st i) k)%R,
     (dy + sum_below (coupling_y net st i) k)%R).
Proof.
  induction k as [|k IH].
  - unfold for_range. simpl. apply (f_equal2 pair); ring.
  - rewrite for_range_S, IH. simpl sum_below.
    destruct (Nat.eqb_spec i k) as [->|Hne]; cbn [negb].
    + assert (Hx : coupling_x net st k k = 0%R)
        by (unfold coupling_x; by rewrite decide_True).
      assert (Hy : coupling_y net st k k = 0%R)
        by (unfold coupling_y; by rewrite decide_True).
      rewrite Hx, Hy. apply (f_equal2 pair); ring.
    + set (sx := sum_below (coupling_x net st i) k).
      set (sy := sum_below (coupling_y net st i) k).
      unfold coupling_x, coupling_y. rewrite !decide_False by done.
      destruct (Req_dec_T _ _) as [H0|_].
      * rewrite H0. apply (f_equal2 pair); ring.
      * apply (f_equal2 pair); ring.
Qed.

Lemma equations_interleave (net : CoupledOscillatorNetwork) (st : list R) (t : R) :
  length st = 2 * n net →
  equations net st t
  = interleave
      (fun i => (free_x net st i + sum_below (coupling_x net st i) (n net))%R)
      (fun i => (free_y net st i + sum_below (coupling_y net st i) (n net))%R)
      (n net).
Proof.
  intros Hlen. unfold equations.
  rewrite <- (interleave_loop _ _ (n net) (zeros (length st)))
    by (unfold zeros; rewrite length_replicate; lia).
  apply for_range_ext. intros i d Hi.
  rewrite coupling_loop. unfold free_x, free_y. reflexivity.
Qed.

End EquationsClosedForm.

(** X11.  The derivative function in closed form.  For a state vector of
    [2n] entries the result has [2n] entries, and for every oscillator [i]
    the entries [2i] and [2i + 1] are the free Hopf field of oscillator [i]
    (with its own amplitude and frequency) plus the sum, over all other
    oscillators [j], of the weight times the difference between oscillator
    [j] rotated by the phase bias and oscillator [i]. *)
Theorem equations_closed_form (net : Loco.CoupledOscillatorNetwork)
    (st : list R) (t : R) (i : nat) :
  length st = 2 * Loco.n net → i < Loco.n net →
  length (Loco.equations net st t) = length st ∧
  Loco.equations net st t !! (2 * i)
  = Some (free_x net st i + sum_below (coupling_x net st i) (Loco.n net))%R ∧
  Loco.equations net st t !! (2 * i + 1)
  = Some (free_y net st i + sum_below (coupling_y net st i) (Loco.n net))%R.
Proof.
  intros Hlen Hi. rewrite equations_interleave by done.
  split; [rewrite length_interleave; lia|].
  by apply interleave_lookup.
Qed.

Lemma equations_closed_form_witness :
  length (Loco.state hexapod) = 2 * Loco.n hexapod ∧ 3 < Loco.n hexapod ∧
  length (Loco.equations hexapod (Loco.state hexapod) 0)
  = length (Loco.state hexapod) ∧
  Loco.equations hexapod (Loco.state hexapod) 0 !! (2 * 3)
  = Some (free_x hexapod (Loco.state hexapod) 3
          + sum_below (coupling_x hexapod (Loco.state hexapod) 3)
              (Loco.n hexapod))%R ∧
  Loco.equations hexapod (Loco.state hexapod) 0 !! (2 * 3 + 1)
  = Some (free_y hexapod (Loco.state hexapod) 3
          + sum_below (coupling_y hexapod (Loco.state hexapod) 3)
              (Loco.n hexapod))%R.
Proof.
  assert (Hl : length (Loco.state hexapod) = 2 * Loco.n hexapod) by reflexivity.
  assert (H3 : 3 < Loco.n hexapod) by (rewrite hexapod_n; lia).
  split; [exact Hl|]. split; [exact H3|].
  exact (equations_closed_form hexapod (Loco.state hexapod) 0 3 Hl H3).
Defined.

(** ** Equilibrium and gait patterns *)

Lemma interleave_ext (fx fy gx gy : nat → R) (k : nat) :
  (∀ i, i < k → fx i = gx i ∧ fy i = gy i) →
  interleave fx fy k = interleave gx gy k.
Proof.
  induction k as [|k IH]; intros H; [done|].
  rewrite !interleave_S, IH by (intros; apply H; lia).
  destruct (H k) as [-> ->]; [lia|done].
Qed.


Lemma interleave_zero (k : nat) :
  interleave (fun _ => 0%R) (fun _ => 0%R) k = zeros (2 * k).
Proof.
  apply list_eq. intros m. unfold zeros.
  destruct (decide (m < 2 * k)) as [Hm|Hm].
  - rewrite lookup_replicate_2 by done.
    destruct (Nat.Even_or_Odd m) as [[i ->]|[i ->]].
    + by destruct (interleave_lookup (fun _ => 0%R) (fun _ => 0%R) k i)
        as [-> _]; [lia|].
    + by destruct (interleave_lookup (fun _ => 0%R) (fun _ => 0%R) k i)
        as [_ ->]; [lia|].
  - rewrite !(proj2 (lookup_ge_None _ _)); [done| |].
    + rewrite length_replicate. lia.
    + rewrite length_interleave. lia.
Qed.

Lemma zeros_total (k m : nat) : zeros k !!! m = 0%R.
Proof.
  unfold zeros. rewrite list_lookup_total_alt.
  destruct (decide (m < k)).
  - by rewrite lookup_replicate_2.
  - by rewrite (proj1 (lookup_replicate_None k 0%R m)) by lia.
Qed.

Lemma sum_below_zero (f : nat → R) (k : nat) :
  (∀ j, j < k → f j = 0%R) → sum_below f k = 0%R.
Proof.
  induction k as [|k IH]; intros H; [done|]. simpl.
  rewrite IH, H by (intros; try apply H; lia). ring.
Qed.

(** X12.  The origin is an equilibrium of every network: whatever the
    coupling weights, phase biases, amplitudes and frequencies, the
    derivative of the all-zero state vector is the all-zero vector.  The
    constructor and [reset] seed every oscillator at x = 0.1, off this
    point. *)
Theorem origin_is_equilibrium (net : Loco.CoupledOscillatorNetwork) (t : R) :
  Loco.equations net (zeros (2 * Loco.n net)) t = zeros (2 * Loco.n net).
Proof.
  rewrite equations_interleave by apply length_replicate.
  etransitivity; [|apply interleave_zero]. apply interleave_ext. intros i Hi.
  rewrite !sum_below_zero.
  - unfold free_x, free_y. rewrite !zeros_total. split; ring.
  - intros j _. unfold coupling_y. destruct (decide (i = j)); [done|].
    rewrite !zeros_total. ring.
  - intros j _. unfold coupling_x. destruct (decide (i = j)); [done|].
    rewrite !zeros_total. ring.
Qed.










(** ** What the backward shift does to the consistency of the biases *)



(** ** One oscillator *)

(** X16.  A network of one oscillator is the single Hopf oscillator of
    cpg_single_hopf.py: whatever gait was set, its derivative at [x, y] is
    the field of a [HopfOscillator] with the amplitude and frequency of
    oscillator 0. *)
Theorem single_oscillator_network_is_hopf
    (net : Loco.CoupledOscillatorNetwork) (x y t : R) :
  Loco.n net = 1 →
  let osc := Hopf.mkHopf (Loco.amplitudes net !!! 0)
               (2 * PI * (Loco.frequencies net !!! 0)) (Loco.mu net) x y 0 in
  Loco.equations net [x; y] t
  = [fst (Hopf.equations osc (x, y) t); snd (Hopf.equations osc (x, y) t)].
Proof.
  intros Hn osc. rewrite equations_interleave by (rewrite Hn; done).
  rewrite Hn. unfold interleave. simpl flat_map.
  unfold free_x, free_y, coupling_x, coupling_y, osc. simpl.
  f_equal; [|f_equal]; ring.
Qed.

Lemma single_oscillator_network_is_hopf_witness :
  Loco.n single_oscillator = 1 ∧
  Loco.equations single_oscillator [0.1; 0]%R 0
  = [fst (Hopf.equations
            (Hopf.mkHopf (Loco.amplitudes single_oscillator !!! 0)
               (2 * PI * (Loco.frequencies single_oscillator !!! 0))
               (Loco.mu single_oscillator) 0.1 0 0) (0.1, 0)%R 0);
     snd (Hopf.equations
            (Hopf.mkHopf (Loco.amplitudes single_oscillator !!! 0)
               (2 * PI * (Loco.frequencies single_oscillator !!! 0))
               (Loco.mu single_oscillator) 0.1 0 0) (0.1, 0)%R 0)].
Proof.
  split; [reflexivity|].
  exact (single_oscillator_network_is_hopf single_oscillator 0.1 0 0 eq_refl).
Defined.

(** ** Runs of ticks *)

Lemma x_values_spec (k : nat) (st xs : list R) :
  x_values k st = Some xs →
  length xs = k ∧ ∀ i, i < k → xs !! i = st !! (2 * i).
Proof.
  unfold x_values. intros Hm. apply mapM_Some_1 in Hm.
  pose proof (Forall2_length _ _ _ Hm) as Hlen. rewrite length_seq in Hlen.
  split; [done|]. intros i Hi.
  destruct (xs !! i) as [v|] eqn:Hv.
  - pose proof (Forall2_lookup_lr _ _ _ i i v Hm) as Hl.
    rewrite Hl; [done| |done]. by rewrite lookup_seq_lt.
  - apply lookup_ge_None in Hv. lia.
Qed.

Section Runs.
Import Loco.

Variable odeint : (list R → R → list R) → list R → list R → list (list R).

Lemma run_frame (ticks : list (option R * R))
    (net net' : CoupledOscillatorNetwork) (outs : list (list R)) :
  run odeint ticks net = Ok (net', outs) →
  length outs = length ticks ∧
  Forall (fun xs => length xs = n net) outs ∧
  net' = set_state (state net') (set_last_update_time (last_update_time net') net).
Proof.
  revert net net' outs.
  induction ticks as [|[dt now] ticks IH]; intros net net' outs.
  - intros [= <- <-]. split; [done|]. split; [done|]. by destruct net.
  - simpl. destruct (update odeint dt now net) as [[net1 xs]|] eqn:Hup; [|done].
    simpl. destruct (run odeint ticks net1) as [[net2 out2]|] eqn:Hrun; [|done].
    simpl. intros [= <- <-].
    destruct (IH _ _ _ Hrun) as (Hlen & Hall & Hfr).
    pose proof (update_output _ _ _ _ _ _ Hup) as Hxs.
    apply x_values_spec in Hxs as [Hxl _].
    apply update_frame in Hup.
    assert (Hn : n net1 = n net) by (rewrite Hup; by destruct net).
    split; [simpl; lia|]. split.
    + constructor; [lia|]. by rewrite <- Hn.
    + rewrite Hfr. rewrite Hup. by destruct net.
Qed.

(** X17.  A run of ticks returns one output vector per tick, each of
    exactly [n] values, and changes nothing in the network but the state
    vector and the time of the last update: gait, direction, matrices,
    amplitudes, frequencies and turn state come out as they went in.  A
    [reset] after the run therefore gives what a [reset] before it would
    have given. *)
Theorem run_shape_and_frame (ticks : list (option R * R)) (now : R)
    (net net' : CoupledOscillatorNetwork) (outs : list (list R)) :
  run odeint ticks net = Ok (net', outs) →
  length outs = length ticks ∧
  Forall (fun xs => length xs = n net) outs ∧
  net' = set_state (state net') (set_last_update_time (last_update_time net') net) ∧
  LocoNetwork.reset now net' = LocoNetwork.reset now net.
Proof.
  intros Hrun. destruct (run_frame _ _ _ _ Hrun) as (Hlen & Hall & Hfr).
  split; [done|]. split; [done|]. split; [done|].
  rewrite Hfr. unfold LocoNetwork.reset. rewrite !restore_base_eq.
  by destruct net.
Qed.


End Runs.

Lemma update_zero_dt_noop_aux
    (odeint : (list R → R → list R) → list R → list R → list (list R)) :
  (∀ func y0, last (odeint func y0 [0%R; 0%R]) = Some y0) →
  ∀ (net : Loco.CoupledOscillatorNetwork) (now : R),
    length (Loco.state net) = 2 * Loco.n net →
    ∃ xs, Loco.update odeint (Some 0%R) now net = Ok (net, xs).
Proof.
  intros Hzero net now Hlen.
  destruct (x_values_is_Some (Loco.n net) (Loco.state net)) as [xs Hxs]; [lia|].
  exists xs. unfold Loco.update. rewrite Hzero. simpl.
  replace (Loco.n (Loco.set_state (Loco.state net) net)) with (Loco.n net)
    by (by destruct net).
  replace (Loco.state (Loco.set_state (Loco.state net) net)) with (Loco.state net)
    by (by destruct net).
  rewrite Hxs. by destruct net.
Qed.

Lemma hexapod_zero_tick :
  ∃ xs, Loco.run euler_odeint [(Some 0%R, 1%R)] hexapod = Ok (hexapod, [xs]).
Proof.
  destruct (update_zero_dt_noop_aux euler_odeint euler_odeint_zero_step hexapod 1)
    as (xs & Hup); [reflexivity|].
  exists xs. cbn [Loco.run]. by rewrite Hup.
Qed.

Lemma run_shape_and_frame_witness :
  ∃ xs,
    Loco.run euler_odeint [(Some 0%R, 1%R)] hexapod = Ok (hexapod, [xs]) ∧
    length [xs] = 1 ∧
    Forall (fun xs => length xs = Loco.n hexapod) [xs] ∧
    LocoNetwork.reset 0 hexapod = LocoNetwork.reset 0 hexapod.
Proof.
  destruct hexapod_zero_tick as [xs Hrun]. exists xs.
  split; [exact Hrun|].
  destruct (run_shape_and_frame euler_odeint _ 0%R _ _ _ Hrun)
    as (H1 & H2 & _ & H4).
  split; [exact H1|]. split; [exact H2|exact H4].
Defined.

(** ** The two constructors *)

Lemma run_coincides
    (odeint : (list R → R → list R) → list R → list R → list (list R))
    (ticks : list (option R * R))
    (ext : Loco.CoupledOscillatorNetwork) (plain : Plain.CoupledOscillatorNetwork) :
  same_network ext plain → at_base ext →
  outputs (Loco.run odeint ticks ext) = outputs (Plain.run odeint ticks plain).
Proof.
  revert ext plain.
  induction ticks as [|[dt now] ticks IH]; intros ext plain Hsame Hbase.
  - reflexivity.
  - pose proof (update_coincides odeint dt now ext plain Hsame Hbase) as Hstep.
    cbn [Loco.run Plain.run].
    destruct (Loco.update odeint dt now ext) as [[ext' xs]|e];
      destruct (Plain.update odeint dt now plain) as [[plain' ys]|e'];
      try done.
    + destruct Hstep as (Hsame' & Hbase' & ->). simpl.
      specialize (IH ext' plain' Hsame' Hbase').
      destruct (Loco.run odeint ticks ext') as [[e1 o1]|e1];
        destruct (Plain.run odeint ticks plain') as [[p1 o2]|e2];
        simpl in *; congruence.
    + simpl. by rewrite Hstep.
Qed.

Lemma same_network_gait (g : Gait) (cs : R)
    (ext : Loco.CoupledOscillatorNetwork) (plain : Plain.CoupledOscillatorNetwork) :
  same_network ext plain →
  same_network
    (match g with
     | Tripod => NetworkLoco.set_tripod_gait cs true ext
     | Wave => NetworkLoco.set_wave_gait cs true ext
     end)
    (match g with
     | Tripod => Plain.set_tripod_gait cs plain
     | Wave => Plain.set_wave_gait cs plain
     end).
Proof.
  intros (Hn & Ha & Hw & Hm & Hs & Hcw & Hpb & Ht).
  destruct (plain_set_gait_eq cs plain) as [Ht1 Ht2].
  destruct g.
  - rewrite nl_set_tripod_gait_eq, Ht1, Hn.
    destruct ext, plain; simpl in *. by repeat split.
  - rewrite nl_set_wave_gait_eq, Ht2, Hn.
    destruct ext, plain; simpl in *. by repeat split.
Qed.

Lemma at_base_gait (g : Gait) (cs : R) (ext : Loco.CoupledOscillatorNetwork) :
  at_base ext →
  at_base (match g with
           | Tripod => NetworkLoco.set_tripod_gait cs true ext
           | Wave => NetworkLoco.set_wave_gait cs true ext
           end).
Proof.
  destruct g; [rewrite nl_set_tripod_gait_eq|rewrite nl_set_wave_gait_eq];
    by destruct ext.
Qed.

Lemma same_network_init (k : Z) (a f m now : R)
    (ext0 : Loco.CoupledOscillatorNetwork) :
  Loco.init_fields k a f m now = Ok ext0 →
  Plain.__init__ k a f m now
  = Ok (Plain.set_tripod_gait 1%R (plain_view ext0)).
Proof.
  unfold Loco.init_fields, Plain.__init__.
  destruct (k <? 0)%Z; [done|]. by intros [= <-].
Qed.

Lemma plain_hexapod_constructed : Plain.__init__ 6 1 1 1 0 = Ok plain_hexapod.
Proof. reflexivity. Qed.

(** X19.  The constructor of cpg_network.py and the one of
    cpg_loconetwork.py, called with the same arguments at the same time,
    build the same network: same size, amplitude, angular frequency, mu,
    state, matrices and clock.  From there the two classes cannot be told
    apart by their outputs: every run of ticks gives the same output
    vectors or the same error, also after both have switched to the same
    gait with the same coupling strength. *)
Theorem constructors_agree
    (odeint : (list R → R → list R) → list R → list R → list (list R))
    (fuel : nat) (k : Z) (a f m now : R)
    (ext : Loco.CoupledOscillatorNetwork) (plain : Plain.CoupledOscillatorNetwork) :
  LocoNetwork.__init__ fuel k a f m now = Ok ext →
  Plain.__init__ k a f m now = Ok plain →
  same_network ext plain ∧
  (∀ ticks,
     outputs (Loco.run odeint ticks ext) = outputs (Plain.run odeint ticks plain)) ∧
  (∀ cs ticks,
     outputs (Loco.run odeint ticks (NetworkLoco.set_wave_gait cs true ext))
     = outputs (Plain.run odeint ticks (Plain.set_wave_gait cs plain))) ∧
  (∀ cs ticks,
     outputs (Loco.run odeint ticks (NetworkLoco.set_tripod_gait cs true ext))
     = outputs (Plain.run odeint ticks (Plain.set_tripod_gait cs plain))).
Proof.
  intros Hext Hplain.
  apply ln_init_Ok in Hext as (ext0 & H0 & ->).
  rewrite (same_network_init _ _ _ _ _ _ H0) in Hplain. injection Hplain as <-.
  pose proof (same_network_gait Tripod 1 ext0 (plain_view ext0)
                (same_network_plain_view ext0)) as Hsame.
  pose proof (at_base_gait Tripod 1 ext0 (at_base_init_fields _ _ _ _ _ _ H0))
    as Hbase.
  cbv beta iota in Hsame, Hbase.
  split; [done|]. split; [|split].
  - intros ticks. by apply run_coincides.
  - intros cs ticks. apply run_coincides.
    + exact (same_network_gait Wave cs _ _ Hsame).
    + exact (at_base_gait Wave cs _ Hbase).
  - intros cs ticks. apply run_coincides.
    + exact (same_network_gait Tripod cs _ _ Hsame).
    + exact (at_base_gait Tripod cs _ Hbase).
Qed.

Lemma constructors_agree_witness :
  LocoNetwork.__init__ 2 6 1 1 1 0 = Ok hexapod ∧
  Plain.__init__ 6 1 1 1 0 = Ok plain_hexapod ∧
  same_network hexapod plain_hexapod ∧
  ∀ ticks,
    outputs (Loco.run euler_odeint ticks hexapod)
    = outputs (Plain.run euler_odeint ticks plain_hexapod).
Proof.
  split; [exact (hexapod_constructed_loconetwork 0)|].
  split; [exact plain_hexapod_constructed|].
  destruct (constructors_agree euler_odeint 2 6 1 1 1 0 hexapod plain_hexapod
              (hexapod_constructed_loconetwork 0) plain_hexapod_constructed)
    as (H1 & H2 & _).
  split; [exact H1|exact H2].
Defined.

(** ** Legs and commands *)

Lemma leg_name_ge (i : nat) :
  6 ≤ i → Controller.leg_name i = Controller.Raise (Controller.KeyError i).
Proof.
  intros Hi. unfold Controller.leg_name, Controller.leg_names.
  cbn [list_to_map foldr fst snd].
  by rewrite !lookup_insert_ne, lookup_empty by lia.
Qed.

Lemma leg_name_lt (i : nat) :
  i < 6 → ∃ name, Controller.leg_name i = Controller.Return name.
Proof.
  intros Hi.
  do 6 (destruct i as [|i]; [eexists; reflexivity|]). lia.
Qed.

Lemma size_leg_names : size Controller.leg_names = 6.
Proof. reflexivity. Qed.

Lemma bind_return {A B : Type} (a : A) (k : A → Controller.outcome B) :
  (Controller.Return a ≫= k) = k a.
Proof. reflexivity. Qed.

Lemma bind_raise {A B : Type} (e : Controller.exception)
    (k : A → Controller.outcome B) :
  (Controller.Raise e ≫= k) = Controller.Raise e.
Proof. reflexivity. Qed.

Lemma raise_loop {A B : Type} (body : Controller.outcome B → A → Controller.outcome B)
    (l : list A) (e : Controller.exception) :
  (∀ a, body (Controller.Raise e) a = Controller.Raise e) →
  fold_left body l (Controller.Raise e) = Controller.Raise e.
Proof. intros Hb. induction l as [|a l IH]; simpl; [done|]. by rewrite Hb. Qed.

(** One step of a loop that collects the active legs, on either outcome
    of the index expression. *)
Lemma collect_step (th : R) (k : nat) (v : R) (acc : list string) :
  Controller.append_if_active th k v acc
  = names ← names_of k (above th [v]); mret (acc ++ names).
Proof.
  unfold Controller.append_if_active, above. simpl.
  destruct (Rlt_dec th v).
  - destruct (Controller.leg_name k); reflexivity.
  - simpl. by rewrite app_nil_r.
Qed.

Lemma names_of_app (k : nat) (m1 m2 : list bool) :
  names_of k (m1 ++ m2)
  = n1 ← names_of k m1; n2 ← names_of (k + length m1) m2; mret (n1 ++ n2).
Proof.
  revert k. induction m1 as [|b m1 IH]; intros k; simpl.
  - rewrite Nat.add_0_r. by destruct (names_of k m2).
  - replace (k + S (length m1)) with (S k + length m1) by lia.
    destruct b.
    + destruct (Controller.leg_name k) as [name|]; [|done]. simpl.
      rewrite IH. destruct (names_of (S k) m1) as [n1|]; [|done]. simpl.
      by destruct (names_of _ m2).
    + apply IH.
Qed.

(** The [for i in range(n)] loops of [get_active_legs] and [update]. *)
Lemma range_loop (th : R) (value_at : nat → option R) (m : nat) :
  ∀ (k : nat) (vals : list R) (acc : list string),
    length vals = m →
    (∀ j, j < m → value_at (k + j) = vals !! j) →
    fold_left (fun (s : Controller.outcome (list string)) i =>
        active_legs ← s;
        match value_at i with
        | Some x => Controller.append_if_active th i x active_legs
        | None => Controller.Raise (Controller.NetworkError IndexError)
        end) (seq k m) (Controller.Return acc)
    = names ← names_of k (above th vals); mret (acc ++ names).
Proof.
  induction m as [|m IH]; intros k vals acc Hlen Hlook.
  - destruct vals; [|done]. simpl. by rewrite app_nil_r.
  - destruct vals as [|v vals]; [done|]. cbn [seq fold_left].
    pose proof (Hlook 0 ltac:(lia)) as H0. rewrite Nat.add_0_r in H0.
    change ((v :: vals) !! 0) with (Some v) in H0.
    rewrite bind_return, H0, collect_step.
    change (above th (v :: vals)) with (above th [v] ++ above th vals).
    rewrite names_of_app.
    destruct (names_of k (above th [v])) as [n1|e].
    + rewrite !bind_return. unfold mret at 1, Controller.outcome_ret at 1.
      rewrite (IH (S k) vals (acc ++ n1)).
      * replace (k + length (above th [v])) with (S k) by (simpl; lia).
        destruct (names_of (S k) (above th vals)); [|done]. simpl.
        by rewrite app_assoc.
      * simpl in Hlen. lia.
      * intros j Hj. replace (S k + j) with (k + S j) by lia.
        rewrite Hlook by lia. done.
    + rewrite !bind_raise. by apply raise_loop.
Qed.

(** The [for i, output in enumerate(outputs)] loop of the translator. *)
Lemma enumerate_loop (th : R) (outputs : list R) :
  ∀ (k : nat) (acc : list string),
    fold_left (fun (s : Controller.outcome (list string)) '(i, output) =>
        active_legs ← s;
        Controller.append_if_active th i output active_legs)
      (imap (fun i o => (k + i, o)) outputs) (Controller.Return acc)
    = names ← names_of k (above th outputs); mret (acc ++ names).
Proof.
  induction outputs as [|v vals IH]; intros k acc.
  - simpl. by rewrite app_nil_r.
  - rewrite imap_cons. cbn [fold_left]. rewrite Nat.add_0_r.
    rewrite bind_return, collect_step.
    change (above th (v :: vals)) with (above th [v] ++ above th vals).
    rewrite names_of_app.
    rewrite (imap_ext _ (fun i o => (S k + i, o)))
      by (intros; simpl; f_equal; lia).
    destruct (names_of k (above th [v])) as [n1|e].
    + rewrite !bind_return. unfold mret at 1, Controller.outcome_ret at 1.
      rewrite IH.
      replace (k + length (above th [v])) with (S k) by (simpl; lia).
      destruct (names_of (S k) (above th vals)); [|done]. simpl.
      by rewrite app_assoc.
    + rewrite !bind_raise. apply raise_loop. by intros [i o].
Qed.

Lemma leg_command_translator_flags (outputs : list R) (th : R) :
  Controller.leg_command_translator outputs th = command_of (above th outputs).
Proof.
  unfold Controller.leg_command_translator, command_of.
  rewrite (imap_ext _ (fun i o => (0 + i, o))) by done.
  change (@mret Controller.outcome _ (list string) [])
    with (@Controller.Return (list string) []).
  rewrite enumerate_loop.
  destruct (names_of 0 (above th outputs)) as [names|]; [|done].
  simpl. rewrite size_leg_names. done.
Qed.

Lemma all_flags_complete (m : list bool) : m ∈ all_flags (length m).
Proof.
  induction m as [|b m IH]; [apply list_elem_of_here|].
  cbn [length all_flags]. apply list_elem_of_In, in_flat_map.
  exists m. split; [by apply list_elem_of_In|].
  destruct b; simpl; auto.
Qed.

Lemma short_flags_complete (m : list bool) :
  length m ≤ 6 → m ∈ flat_map all_flags (seq 0 7).
Proof.
  intros Hm. apply list_elem_of_In, in_flat_map. exists (length m). split.
  - apply in_seq. lia.
  - apply list_elem_of_In, all_flags_complete.
Qed.

Lemma above_lookup (th : R) (values : list R) (i : nat) :
  above th values !! i = Some true ↔ active th values i.
Proof.
  unfold above, active. rewrite list_lookup_fmap.
  destruct (values !! i) as [v|]; simpl.
  - destruct (Rlt_dec th v); split.
    + intros _. eauto.
    + done.
    + done.
    + intros (v' & [= <-] & Hv). done.
  - split; [done|]. by intros (v' & ? & _).
Qed.

Lemma length_above (th : R) (values : list R) :
  length (above th values) = length values.
Proof. apply length_map. Qed.

Lemma command_of_short :
  forallb (fun m =>
    match command_of m with
    | Controller.Return cmd =>
        bool_decide
          ((cmd = "off" ↔ Forall (fun i => m !! i ≠ Some true) (seq 0 6)) ∧
           (cmd = "all" ↔ Forall (fun i => m !! i = Some true) (seq 0 6)))
    | Controller.Raise _ => false
    end) (flat_map all_flags (seq 0 7)) = true.
Proof. vm_compute. reflexivity. Qed.

Lemma command_of_injective :
  forallb (fun m =>
    forallb (fun m' =>
      bool_decide
        (command_of m = command_of m' →
         Forall (fun i => m !! i = Some true ↔ m' !! i = Some true) (seq 0 6)))
      (flat_map all_flags (seq 0 7))) (flat_map all_flags (seq 0 7)) = true.
Proof. vm_compute. reflexivity. Qed.

Lemma flags_below_six (m : list bool) (i : nat) :
  length m ≤ 6 → m !! i = Some true → i ∈ seq 0 6.
Proof.
  intros Hm Hi. apply lookup_lt_Some in Hi. apply list_elem_of_In, in_seq. lia.
Qed.

(** X20.  On at most six outputs [leg_command_translator] always returns
    a command.  The command is "off" exactly when no output lies above the
    threshold, and "all" exactly when there are six outputs and every one
    lies above it; a comma-separated list of leg names is never one of
    these two words. *)
Theorem leg_command_off_and_all (outputs : list R) (th : R) :
  length outputs ≤ 6 →
  ∃ cmd,
    Controller.leg_command_translator outputs th = Controller.Return cmd ∧
    (cmd = "off" ↔ ∀ i, ¬ active th outputs i) ∧
    (cmd = "all" ↔ ∀ i, i < 6 → active th outputs i).
Proof.
  intros Hlen. rewrite leg_command_translator_flags.
  pose proof command_of_short as Hall.
  rewrite forallb_forall in Hall.
  specialize (Hall (above th outputs)).
  destruct (command_of (above th outputs)) as [cmd|e].
  - exists cmd. split; [done|].
    apply bool_decide_eq_true in Hall as [Hoff Hon].
    + rewrite Hoff, Hon, !Forall_forall. split; split.
      * intros H i Hi. apply above_lookup in Hi.
        apply (H i); [|done].
        apply (flags_below_six (above th outputs)); [|done].
        by rewrite length_above.
      * intros H i _ Hi. by apply (H i), above_lookup.
      * intros H i Hi. apply above_lookup, H, list_elem_of_In, in_seq. lia.
      * intros H i Hi. apply above_lookup, H.
        apply list_elem_of_In, in_seq in Hi. lia.
    + apply list_elem_of_In, short_flags_complete. by rewrite length_above.
  - discriminate Hall.
    apply list_elem_of_In, short_flags_complete. by rewrite length_above.
Qed.

Lemma names_of_false (k j : nat) :
  names_of k (replicate j false) = Controller.Return [].
Proof. revert k. induction j as [|j IH]; intros k; [done|]. apply IH. Qed.

(** From leg 6 on there are no names: the loop gets past an index only if
    its flag is off. *)
Lemma names_of_beyond (k : nat) (m : list bool) :
  6 ≤ k →
  match names_of k m with
  | Controller.Return names => names = [] ∧ ∀ i, m !! i ≠ Some true
  | Controller.Raise e =>
      ∃ j, e = Controller.KeyError (k + j) ∧ m !! j = Some true ∧
           ∀ i, i < j → m !! i ≠ Some true
  end.
Proof.
  revert k. induction m as [|b m IH]; intros k Hk.
  - simpl. split; [done|]. by intros i.
  - destruct b.
    + simpl. rewrite leg_name_ge by done. simpl.
      exists 0. rewrite Nat.add_0_r. split; [done|]. split; [done|]. lia.
    + simpl. specialize (IH (S k) ltac:(lia)).
      destruct (names_of (S k) m) as [names|e].
      * destruct IH as [-> Hm]. split; [done|].
        intros [|i]; [done|]. apply Hm.
      * destruct IH as (j & -> & Hj & Hbefore). exists (S j).
        split; [f_equal; lia|]. split; [done|].
        intros [|i] Hi; [done|]. apply Hbefore. lia.
Qed.

Lemma names_of_short (k : nat) (m : list bool) :
  k + length m ≤ 6 → ∃ names, names_of k m = Controller.Return names.
Proof.
  revert k. induction m as [|b m IH]; intros k Hk; [by eexists|].
  simpl in Hk. destruct (IH (S k) ltac:(lia)) as [names Hn].
  destruct b; simpl.
  - destruct (leg_name_lt k ltac:(lia)) as [name ->]. rewrite Hn. by eexists.
  - eauto.
Qed.

Lemma command_of_names (m : list bool) :
  match names_of 0 m with
  | Controller.Return _ => ∃ cmd, command_of m = Controller.Return cmd
  | Controller.Raise e => command_of m = Controller.Raise e
  end.
Proof.
  unfold command_of. destruct (names_of 0 m) as [names|e]; [|done].
  simpl. repeat case_decide; by eexists.
Qed.

(** The first six flags decide the command whenever there is one. *)
Lemma command_of_take (m : list bool) :
  match names_of 6 (drop 6 m) with
  | Controller.Return _ =>
      command_of m = command_of (take 6 m) ∧
      ∀ i, m !! i = Some true ↔ take 6 m !! i = Some true
  | Controller.Raise e => command_of m = Controller.Raise e
  end.
Proof.
  pose proof (names_of_beyond 6 (drop 6 m) ltac:(lia)) as Hb.
  destruct (decide (length m ≤ 6)) as [Hle|Hgt].
  { rewrite drop_ge, take_ge by lia. simpl.
    split; [reflexivity|intros i; reflexivity]. }
  assert (Hlt : length (take 6 m) = 6) by (rewrite length_take; lia).
  destruct (names_of_short 0 (take 6 m) ltac:(lia)) as [n1 Hn1].
  assert (Hsplit : names_of 0 m
    = n1' ← names_of 0 (take 6 m); n2 ← names_of 6 (drop 6 m); mret (n1' ++ n2)).
  { rewrite <- (take_drop 6 m) at 1. rewrite names_of_app, Hlt. done. }
  destruct (names_of 6 (drop 6 m)) as [n2|e].
  2:{ unfold command_of. by rewrite Hsplit, Hn1. }
  destruct Hb as [-> Hfalse]. split.
  - unfold command_of. rewrite Hsplit, Hn1. simpl. by rewrite app_nil_r.
  - intros i. destruct (decide (i < 6)) as [Hi|Hi].
    + by rewrite lookup_take_lt.
    + rewrite lookup_take_ge by lia. split; [|done].
      intros Hm. exfalso. apply (Hfalse (i - 6)).
      rewrite lookup_drop. by replace (6 + (i - 6)) with i by lia.
Qed.

(** X21.  The command string tells which legs are active: two calls of
    [leg_command_translator] that return the same command, on whatever
    outputs and thresholds, have the same set of oscillators above their
    threshold.  Beyond the sixth output nothing is active when a command
    is returned at all. *)
Theorem leg_command_determines_active_legs
    (outputs outputs' : list R) (th th' : R) (cmd : string) :
  Controller.leg_command_translator outputs th = Controller.Return cmd →
  Controller.leg_command_translator outputs' th' = Controller.Return cmd →
  ∀ i, active th outputs i ↔ active th' outputs' i.
Proof.
  rewrite !leg_command_translator_flags. intros H1 H2 i.
  rewrite <- !above_lookup.
  pose proof (command_of_take (above th outputs)) as T1.
  pose proof (command_of_take (above th' outputs')) as T2.
  destruct (names_of 6 (drop 6 (above th outputs))); [|congruence].
  destruct (names_of 6 (drop 6 (above th' outputs'))); [|congruence].
  destruct T1 as [E1 L1], T2 as [E2 L2]. rewrite L1, L2.
  set (m := take 6 (above th outputs)) in *.
  set (m' := take 6 (above th' outputs')) in *.
  assert (Hm : length m ≤ 6) by (unfold m; rewrite length_take; lia).
  assert (Hm' : length m' ≤ 6) by (unfold m'; rewrite length_take; lia).
  pose proof command_of_injective as Hinj.
  rewrite forallb_forall in Hinj.
  specialize (Hinj m (proj1 (list_elem_of_In _ _) (short_flags_complete m Hm))).
  rewrite forallb_forall in Hinj.
  specialize (Hinj m' (proj1 (list_elem_of_In _ _) (short_flags_complete m' Hm'))).
  apply bool_decide_eq_true in Hinj.
  rewrite Forall_forall in Hinj.
  destruct (decide (i < 6)) as [Hi|Hi].
  - apply Hinj; [congruence|]. apply list_elem_of_In, in_seq. lia.
  - split; intros Hl; apply lookup_lt_Some in Hl; lia.
Qed.

(** X22.  [leg_command_translator] raises exactly when an output beyond
    the sixth lies above the threshold, and then it is the [KeyError] of
    the first such index: the dictionary of leg names has the keys 0 to 5
    only.  Whatever the first six outputs are, they raise nothing. *)
Theorem leg_command_key_error (outputs : list R) (th : R)
    (e : Controller.exception) :
  Controller.leg_command_translator outputs th = Controller.Raise e ↔
  ∃ k, e = Controller.KeyError k ∧ 6 ≤ k ∧ active th outputs k ∧
       ∀ i, 6 ≤ i < k → ¬ active th outputs i.
Proof.
  rewrite leg_command_translator_flags.
  pose proof (command_of_take (above th outputs)) as T.
  pose proof (names_of_beyond 6 (drop 6 (above th outputs)) ltac:(lia)) as Hb.
  destruct (names_of 6 (drop 6 (above th outputs))) as [n2|e'].
  - destruct T as [-> _]. destruct Hb as [_ Hfalse].
    destruct (names_of_short 0 (take 6 (above th outputs))) as [n1 Hn1].
    { rewrite length_take. lia. }
    pose proof (command_of_names (take 6 (above th outputs))) as Hc.
    rewrite Hn1 in Hc. destruct Hc as [cmd ->]. split; [done|].
    intros (k & _ & Hk & Hact & _). exfalso.
    apply above_lookup in Hact. apply (Hfalse (k - 6)).
    rewrite lookup_drop. by replace (6 + (k - 6)) with k by lia.
  - rewrite T. destruct Hb as (j & -> & Hj & Hbefore).
    rewrite lookup_drop in Hj. split.
    + intros [= <-]. exists (6 + j). split; [done|]. split; [lia|].
      split; [by apply above_lookup|].
      intros i Hi Hact. apply above_lookup in Hact.
      apply (Hbefore (i - 6)); [lia|].
      rewrite lookup_drop. by replace (6 + (i - 6)) with i by lia.
    + intros (k & -> & Hk & Hact & Hfirst). f_equal. f_equal.
      apply above_lookup in Hact.
      destruct (Nat.lt_trichotomy k (6 + j)) as [Hlt|[Heq|Hgt]]; [|done|].
      * exfalso. apply (Hbefore (k - 6)); [lia|].
        rewrite lookup_drop. by replace (6 + (k - 6)) with k by lia.
      * exfalso. apply (Hfirst (6 + j)); [lia|]. by apply above_lookup.
Qed.

(** ** The controller *)

Lemma send_command_eq (command : string) (c : Controller.HexapodController) :
  Controller._send_command command c
  = Controller.mkController (Controller.cpg c) (Controller.last_active_legs c)
      (Controller.serial_enabled c)
      (Controller.log c ++ send_events (Controller.serial_enabled c) [command]).
Proof.
  destruct c as [net last [] l]; unfold Controller._send_command, Controller.emit;
    simpl; by rewrite <- ?app_assoc.
Qed.

Lemma send_events_app (serial : bool) (l1 l2 : list string) :
  send_events serial (l1 ++ l2) = send_events serial l1 ++ send_events serial l2.
Proof. apply flat_map_app. Qed.

(** The loop [for leg in active_legs: if leg not in self.last_active_legs:
    self._send_command(leg)]. *)
Lemma send_loop (legs : list string) (c : Controller.HexapodController) :
  fold_left (fun c leg =>
      if decide (leg ∉ Controller.last_active_legs c)
      then Controller._send_command leg c else c) legs c
  = Controller.mkController (Controller.cpg c) (Controller.last_active_legs c)
      (Controller.serial_enabled c)
      (Controller.log c
       ++ send_events (Controller.serial_enabled c)
            (filter (fun leg => leg ∉ Controller.last_active_legs c) legs)).
Proof.
  revert c. induction legs as [|leg legs IH]; intros c.
  - destruct c; simpl. by rewrite app_nil_r.
  - cbn [fold_left]. rewrite IH, filter_cons.
    destruct (decide (leg ∉ Controller.last_active_legs c)).
    + rewrite send_command_eq. cbn [Controller.cpg Controller.last_active_legs
        Controller.serial_enabled Controller.log].
      change (leg :: filter _ legs)
        with ([leg]
              ++ filter (fun leg => leg ∉ Controller.last_active_legs c) legs).
      by rewrite send_events_app, app_assoc.
    + done.
Qed.

Lemma filter_old_legs (l : list string) : filter (fun leg => leg ∉ l) l = [].
Proof.
  destruct (filter (fun leg => leg ∉ l) l) as [|x rest] eqn:Hf; [done|].
  assert (Hx : x ∈ filter (fun leg => leg ∉ l) l) by (rewrite Hf; left).
  apply list_elem_of_filter in Hx as [Hn Hin]. done.
Qed.

Lemma names_of_members (m : list bool) :
  ∀ (k : nat) (names : list string),
    names_of k m = Controller.Return names →
    ∀ name, name ∈ names ↔
      ∃ j, Controller.leg_name (k + j) = Controller.Return name ∧ m !! j = Some true.
Proof.
  induction m as [|b m IH]; intros k names Hn name.
  - injection Hn as <-. split; [by intros ?%elem_of_nil|]. by intros (j & _ & ?).
  - simpl in Hn. destruct b.
    + destruct (Controller.leg_name k) as [name0|] eqn:Hk; [|done]. simpl in Hn.
      destruct (names_of (S k) m) as [rest|] eqn:Hrest; [|done].
      injection Hn as <-. rewrite elem_of_cons, (IH _ _ Hrest). split.
      * intros [->|(j & Hj & Hm)].
        -- exists 0. by rewrite Nat.add_0_r.
        -- exists (S j). by replace (k + S j) with (S k + j) by lia.
      * intros ([|j] & Hj & Hm).
        -- left. rewrite Nat.add_0_r in Hj. congruence.
        -- right. exists j. by replace (S k + j) with (k + S j) by lia.
    + rewrite (IH _ _ Hn). split.
      * intros (j & Hj & Hm). exists (S j).
        by replace (k + S j) with (S k + j) by lia.
      * intros ([|j] & Hj & Hm); [done|]. exists j.
        by replace (S k + j) with (k + S j) by lia.
Qed.

Section ControllerUpdate.
Import Controller.

Variable odeint : (list R → R → list R) → list R → list R → list (list R).

(** [update] in one formula: the tick, the active legs, and what the two
    branches after them send. *)
Lemma controller_update_eq (dt : option R) (now : R) (c : HexapodController) :
  update odeint dt now c
  = match Loco.update odeint dt now (cpg c) with
    | Err e => Raise (NetworkError e)
    | Ok (net, outputs) =>
        active_legs ← names_of 0 (above 0.5 outputs);
        Return
          (mkController net active_legs (serial_enabled c)
             (log c
              ++ send_events (serial_enabled c)
                   (filter (fun leg => leg ∉ last_active_legs c) active_legs
                    ++ (if decide (active_legs = [] ∧ last_active_legs c ≠ [])
                        then ["off"] else []))),
           active_legs)
    end.
Proof.
  unfold update.
  destruct (Loco.update odeint dt now (cpg c)) as [[net outputs]|e] eqn:Hup;
    [|done].
  pose proof (update_output _ _ _ _ _ _ Hup) as Hxs.
  apply x_values_spec in Hxs as [Hlen _].
  cbn [cpg set_cpg last_active_legs serial_enabled log].
  unfold for_range.
  change (@mret outcome _ (list string) []) with (@Return (list string) []).
  rewrite (range_loop 0.5 (fun i => outputs !! i) (Loco.n net) 0 outputs [] Hlen)
    by done.
  destruct (names_of 0 (above 0.5 outputs)) as [active_legs|e]; [|done].
  rewrite !bind_return. cbn [app mret outcome_ret].
  destruct (decide (active_legs ≠ last_active_legs c)) as [Hne|He].
  - rewrite send_loop.
    cbn [cpg set_cpg last_active_legs serial_enabled log].
    destruct (decide (active_legs = [])) as [Hnil|Hnil].
    + rewrite send_command_eq, decide_True by (split; congruence).
      cbn [cpg set_cpg set_last_active_legs last_active_legs serial_enabled log].
      by rewrite send_events_app, app_assoc.
    + rewrite decide_False by (by intros [? _]).
      cbn [cpg set_cpg set_last_active_legs last_active_legs serial_enabled log].
      by rewrite app_nil_r.
  - assert (Heq : active_legs = last_active_legs c)
      by (destruct (decide (active_legs = last_active_legs c)); done).
    rewrite decide_False by (intros [? ?]; congruence).
    rewrite Heq, filter_old_legs. simpl. rewrite !app_nil_r.
    by destruct c.
Qed.

(** The active legs of a network, from its outputs. *)
Lemma get_active_legs_flags (th : R) (net : Loco.CoupledOscillatorNetwork)
    (xs : list R) :
  x_values (Loco.n net) (Loco.state net) = Some xs →
  get_active_legs th net = names_of 0 (above th xs).
Proof.
  intros Hxs. apply x_values_spec in Hxs as [Hlen Hget].
  unfold get_active_legs, for_range.
  change (@mret outcome _ (list string) []) with (@Return (list string) []).
  rewrite (range_loop th (fun i => Loco.state net !! (2 * i)) (Loco.n net) 0 xs []
             Hlen).
  - by destruct (names_of 0 (above th xs)).
  - intros j Hj. by rewrite Hget.
Qed.

(** X23.  When the network has at most six oscillators and its tick
    returns, [HexapodController.update] returns as well: the controller
    holds the network after the tick, the serial setting is unchanged, and
    the list returned, which is also the new [last_active_legs], consists
    of exactly the names of the legs whose output is above 0.5. *)
Theorem controller_update_active_legs (dt : option R) (now : R)
    (c : HexapodController) (net : Loco.CoupledOscillatorNetwork)
    (outputs : list R) :
  Loco.n (cpg c) ≤ 6 →
  Loco.update odeint dt now (cpg c) = Ok (net, outputs) →
  ∃ c' active_legs,
    update odeint dt now c = Return (c', active_legs) ∧
    cpg c' = net ∧
    serial_enabled c' = serial_enabled c ∧
    last_active_legs c' = active_legs ∧
    ∀ name, name ∈ active_legs ↔
      ∃ i, leg_name i = Return name ∧ active 0.5 outputs i.
Proof.
  intros Hn Hup. rewrite controller_update_eq, Hup.
  pose proof (update_output _ _ _ _ _ _ Hup) as Hxs.
  apply x_values_spec in Hxs as [Hlen _].
  pose proof (update_frame _ _ _ _ _ _ Hup) as Hfr.
  assert (Hn' : Loco.n net = Loco.n (cpg c)) by (rewrite Hfr; by destruct (cpg c)).
  destruct (names_of_short 0 (above 0.5 outputs)) as [active_legs Hnames].
  { rewrite length_above. lia. }
  rewrite Hnames. eexists _, active_legs. split; [reflexivity|].
  split; [done|]. split; [done|]. split; [done|].
  intros name. rewrite (names_of_members _ _ _ Hnames).
  by setoid_rewrite above_lookup.
Qed.

(** X24.  What [update] sends: one command for each leg that is active
    now and was not active at the previous update, in leg order, then
    "off" if no leg is active now and some leg was before; each command is
    printed and, when the serial port is enabled, written to it followed
    by a line feed.  Nothing else is logged, so an update that finds the
    same active legs as the previous one sends nothing, and a leg that
    becomes inactive while another stays active is not reported. *)
Theorem controller_update_commands (dt : option R) (now : R)
    (c c' : HexapodController) (active_legs : list string) :
  update odeint dt now c = Return (c', active_legs) →
  log c'
  = log c
    ++ send_events (serial_enabled c)
         (filter (fun leg => leg ∉ last_active_legs c) active_legs
          ++ (if decide (active_legs = [] ∧ last_active_legs c ≠ [])
              then ["off"] else [])) ∧
  (active_legs = last_active_legs c → log c' = log c).
Proof.
  rewrite controller_update_eq.
  destruct (Loco.update odeint dt now (cpg c)) as [[net outputs]|e]; [|done].
  destruct (names_of 0 (above 0.5 outputs)) as [names|e]; [|done].
  rewrite bind_return. intros [= <- <-]. split; [done|].
  intros Heq. cbn [log]. rewrite Heq, filter_old_legs.
  rewrite decide_False by (intros [? ?]; congruence).
  simpl. by rewrite app_nil_r.
Qed.

(** After a tick the controller's list is the network's. *)
Lemma controller_update_in_step (dt : option R) (now : R)
    (c c' : HexapodController) (active_legs : list string) :
  update odeint dt now c = Return (c', active_legs) →
  get_active_legs 0.5 (cpg c') = Return (last_active_legs c').
Proof.
  rewrite controller_update_eq.
  destruct (Loco.update odeint dt now (cpg c)) as [[net outputs]|e] eqn:Hup;
    [|done].
  destruct (names_of 0 (above 0.5 outputs)) as [names|e] eqn:Hnames; [|done].
  rewrite bind_return. intros [= <- <-]. cbn [cpg last_active_legs].
  rewrite (get_active_legs_flags _ _ outputs); [done|].
  by apply (update_output _ _ _ _ _ _ Hup).
Qed.

End ControllerUpdate.

Lemma x_values_seed_state (k : nat) :
  x_values k (seed_state k) = Some (replicate k 0.1%R).
Proof.
  destruct (seed_state_spec k) as [Hlen Hget].
  destruct (x_values_is_Some k (seed_state k)) as [xs Hxs]; [lia|].
  rewrite Hxs. f_equal.
  apply x_values_spec in Hxs as [Hl Hx].
  apply list_eq. intros i. destruct (decide (i < k)) as [Hi|Hi].
  - rewrite Hx, lookup_replicate_2 by done. by apply Hget.
  - rewrite (proj2 (lookup_ge_None xs i)) by lia.
    symmetry. apply lookup_replicate_None. lia.
Qed.

Lemma above_replicate (th v : R) (k : nat) :
  above th (replicate k v)
  = replicate k (if Rlt_dec th v then true else false).
Proof. induction k as [|k IH]; [done|]. simpl. by rewrite <- IH. Qed.

Lemma names_of_all_legs (k : nat) :
  names_of 0 (replicate k true)
  = if decide (k ≤ 6)
    then Controller.Return
           (take k ["frontright"; "frontleft"; "midright"; "midleft";
                    "backright"; "backleft"])
    else Controller.Raise (Controller.KeyError 6).
Proof.
  destruct (decide (k ≤ 6)) as [Hk|Hk].
  - do 7 (destruct k as [|k]; [reflexivity|]). lia.
  - replace k with (6 + S (k - 7)) by lia.
    rewrite replicate_add, names_of_app. reflexivity.
Qed.

Section ControllerReset.
Import Controller.

Lemma get_active_legs_seeded (th : R) (net : Loco.CoupledOscillatorNetwork) :
  Loco.state net = seed_state (Loco.n net) →
  get_active_legs th net
  = names_of 0 (replicate (Loco.n net) (if Rlt_dec th 0.1 then true else false)).
Proof.
  intros Hst.
  rewrite (get_active_legs_flags th net (replicate (Loco.n net) 0.1%R)).
  - by rewrite above_replicate.
  - rewrite Hst. apply x_values_seed_state.
Qed.

Lemma ledlocotest_reset_seeded (now : R) (net : Loco.CoupledOscillatorNetwork) :
  Loco.n (LedLocoTest.reset now net) = Loco.n net ∧
  Loco.state (LedLocoTest.reset now net) = seed_state (Loco.n net).
Proof.
  unfold LedLocoTest.reset. rewrite restore_base_eq. by destruct net.
Qed.

(** X25.  Right after [reset] of the network every oscillator outputs
    0.1.  So [get_active_legs] returns the empty list for every threshold
    of 0.1 or more, the names of all legs (the first [n] names, in order)
    for a threshold below 0.1 on a network of at most six oscillators, and
    raises [KeyError] 6 for such a threshold on a larger network. *)
Theorem active_legs_after_reset (now th : R) (net : Loco.CoupledOscillatorNetwork) :
  ((0.1 <= th)%R →
   get_active_legs th (LedLocoTest.reset now net) = Return []) ∧
  ((th < 0.1)%R → Loco.n net ≤ 6 →
   get_active_legs th (LedLocoTest.reset now net)
   = Return (take (Loco.n net)
               ["frontright"; "frontleft"; "midright"; "midleft";
                "backright"; "backleft"])) ∧
  ((th < 0.1)%R → 6 < Loco.n net →
   get_active_legs th (LedLocoTest.reset now net) = Raise (KeyError 6)).
Proof.
  destruct (ledlocotest_reset_seeded now net) as [Hn Hst].
  rewrite <- Hn in Hst.
  rewrite (get_active_legs_seeded th _ Hst), Hn.
  split; [|split].
  - intros Hth. destruct (Rlt_dec th 0.1); [lra|]. apply names_of_false.
  - intros Hth Hk. destruct (Rlt_dec th 0.1); [|lra].
    rewrite names_of_all_legs. by rewrite decide_True.
  - intros Hth Hk. destruct (Rlt_dec th 0.1); [|lra].
    rewrite names_of_all_legs. by rewrite decide_False by lia.
Qed.

Lemma controller_reset_eq (now : R) (c : HexapodController) :
  reset now c
  = mkController (LedLocoTest.reset now (cpg c)) [] (serial_enabled c)
      (log c ++ send_events (serial_enabled c) ["off"]
       ++ [Print "Controller reset"]).
Proof.
  unfold reset. rewrite send_command_eq. unfold emit.
  cbn [cpg set_cpg set_last_active_legs last_active_legs serial_enabled log].
  by rewrite <- app_assoc.
Qed.

Lemma filter_no_old_legs (l : list string) :
  filter (fun leg : string => leg ∉ []) l = l.
Proof.
  induction l as [|x l IH]; [done|].
  rewrite filter_cons, decide_True by (by intros ?%elem_of_nil). by rewrite IH.
Qed.

Lemma half_not_below_seed : (0.1 <= 0.5)%R.
Proof. lra. Qed.

(** X26.  A controller [reset] followed by an [update]: the log grows by
    the "off" command of the reset, the line "Controller reset", and then
    one command for every leg that the update finds active, since the
    reset has emptied [last_active_legs]; when no leg is active the update
    sends no second "off". *)
Theorem controller_reset_then_update
    (odeint : (list R → R → list R) → list R → list R → list (list R))
    (dt : option R) (now now' : R) (c c' : HexapodController)
    (active_legs : list string) :
  update odeint dt now' (reset now c) = Return (c', active_legs) →
  last_active_legs c' = active_legs ∧
  log c'
  = log c ++ send_events (serial_enabled c) ["off"]
    ++ [Print "Controller reset"]
    ++ send_events (serial_enabled c) active_legs.
Proof.
  rewrite controller_update_eq, controller_reset_eq.
  set (off := send_events (serial_enabled c) ["off"]).
  cbn [cpg last_active_legs serial_enabled log].
  destruct (Loco.update odeint dt now' _) as [[net outputs]|e]; [|done].
  destruct (names_of 0 (above 0.5 outputs)) as [names|e]; [|done].
  rewrite bind_return. intros [= <- <-]. split; [done|].
  cbn [log]. rewrite decide_False by (by intros [_ ?]).
  rewrite filter_no_old_legs, (app_nil_r names).
  subst off. destruct (serial_enabled c); simpl; by rewrite <- app_assoc.
Qed.

(** X27.  The controller and its network stay in step:
    [last_active_legs] equals what [get_active_legs(0.5)] of the network
    returns after construction, after every [update] that returns, after
    [reset], and [stop_turning] keeps it so. *)
Theorem controller_in_step
    (odeint : (list R → R → list R) → list R → list R → list (list R)) :
  (∀ fuel port now c,
     __init__ fuel port now = Return c →
     get_active_legs 0.5 (cpg c) = Return (last_active_legs c)) ∧
  (∀ dt now c c' active_legs,
     update odeint dt now c = Return (c', active_legs) →
     get_active_legs 0.5 (cpg c') = Return (last_active_legs c')) ∧
  (∀ now c,
     get_active_legs 0.5 (cpg (reset now c))
     = Return (last_active_legs (reset now c))) ∧
  (∀ c,
     get_active_legs 0.5 (cpg c) = Return (last_active_legs c) →
     get_active_legs 0.5 (cpg (stop_turning c))
     = Return (last_active_legs (stop_turning c))).
Proof.
  split; [|split; [|split]].
  - intros fuel port now c. unfold __init__.
    destruct (LocoNetwork.__init__ fuel 6 1 1 1 now) as [net|] eqn:Hinit; [|done].
    intros [= <-]. cbn [cpg last_active_legs].
    apply ln_init_Ok in Hinit as (net0 & H0 & ->).
    rewrite get_active_legs_seeded.
    + destruct (Rlt_dec 0.5 0.1); [lra|]. apply names_of_false.
    + unfold Loco.init_fields in H0. simpl in H0. injection H0 as <-.
      reflexivity.
  - intros dt now c c' active_legs. apply controller_update_in_step.
  - intros now c. rewrite controller_reset_eq. cbn [cpg last_active_legs].
    by apply active_legs_after_reset, half_not_below_seed.
  - intros c Hc. unfold stop_turning, emit.
    cbn [cpg set_cpg last_active_legs]. rewrite <- Hc.
    unfold get_active_legs, Loco.stop_turning. rewrite restore_base_eq.
    by destruct (cpg c).
Qed.

End ControllerReset.

(** ** Sample legs and controllers *)

Lemma sample_command_one_leg :
  Controller.leg_command_translator [1; 0]%R 0.5
  = Controller.Return "frontright".
Proof.
  rewrite leg_command_translator_flags. unfold above. simpl.
  destruct (Rlt_dec 0.5 1); [|lra]. destruct (Rlt_dec 0.5 0); [lra|].
  reflexivity.
Qed.

Lemma sample_command_one_leg_of_three :
  Controller.leg_command_translator [2; 0; 0]%R 1
  = Controller.Return "frontright".
Proof.
  rewrite leg_command_translator_flags. unfold above. simpl.
  destruct (Rlt_dec 1 2); [|lra]. destruct (Rlt_dec 1 0); [lra|].
  reflexivity.
Qed.

(** A tick of no duration on a controller whose network is in its seed
    state and that has no leg recorded as active. *)
Lemma seeded_zero_tick (now : R) (c : Controller.HexapodController) :
  Loco.state (Controller.cpg c) = seed_state (Loco.n (Controller.cpg c)) →
  Controller.last_active_legs c = [] →
  Loco.update euler_odeint (Some 0%R) now (Controller.cpg c)
  = Ok (Controller.cpg c, replicate (Loco.n (Controller.cpg c)) 0.1%R) ∧
  Controller.update euler_odeint (Some 0%R) now c = Controller.Return (c, []).
Proof.
  intros Hst Hlast.
  destruct (seed_state_spec (Loco.n (Controller.cpg c))) as [Hlen _].
  destruct (update_zero_dt_noop_aux euler_odeint euler_odeint_zero_step
              (Controller.cpg c) now) as (xs & Hup).
  { by rewrite Hst. }
  pose proof (update_output _ _ _ _ _ _ Hup) as Hxs.
  rewrite Hst, x_values_seed_state in Hxs. injection Hxs as <-.
  split; [done|].
  rewrite controller_update_eq, Hup, above_replicate.
  destruct (Rlt_dec 0.5 0.1); [lra|]. rewrite names_of_false, bind_return.
  rewrite Hlast. destruct c as [net last s l]. simpl in *. subst last.
  by rewrite app_nil_r.
Qed.

Lemma hexapod_seeded : Loco.state hexapod = seed_state (Loco.n hexapod).
Proof. reflexivity. Qed.

Lemma leg_command_off_and_all_witness :
  length [1; 0; 1; 0; 1; 0]%R ≤ 6 ∧
  ∃ cmd,
    Controller.leg_command_translator [1; 0; 1; 0; 1; 0]%R 0.5
    = Controller.Return cmd ∧
    (cmd = "off" ↔ ∀ i, ¬ active 0.5 [1; 0; 1; 0; 1; 0]%R i) ∧
    (cmd = "all" ↔ ∀ i, i < 6 → active 0.5 [1; 0; 1; 0; 1; 0]%R i).
Proof.
  split; [simpl; lia|].
  apply (leg_command_off_and_all [1; 0; 1; 0; 1; 0]%R 0.5). simpl. lia.
Defined.

Lemma leg_command_determines_active_legs_witness :
  Controller.leg_command_translator [1; 0]%R 0.5
  = Controller.Return "frontright" ∧
  Controller.leg_command_translator [2; 0; 0]%R 1
  = Controller.Return "frontright" ∧
  ∀ i, active 0.5 [1; 0]%R i ↔ active 1 [2; 0; 0]%R i.
Proof.
  split; [exact sample_command_one_leg|].
  split; [exact sample_command_one_leg_of_three|].
  exact (leg_command_determines_active_legs _ _ _ _ _
           sample_command_one_leg sample_command_one_leg_of_three).
Defined.

Lemma controller_update_active_legs_witness :
  Loco.n (Controller.cpg hexapod_controller) ≤ 6 ∧
  Loco.update euler_odeint (Some 0%R) 1 (Controller.cpg hexapod_controller)
  = Ok (hexapod, replicate 6 0.1%R) ∧
  ∃ c' active_legs,
    Controller.update euler_odeint (Some 0%R) 1 hexapod_controller
    = Controller.Return (c', active_legs) ∧
    Controller.cpg c' = hexapod ∧
    Controller.serial_enabled c'
    = Controller.serial_enabled hexapod_controller ∧
    Controller.last_active_legs c' = active_legs ∧
    ∀ name, name ∈ active_legs ↔
      ∃ i, Controller.leg_name i = Controller.Return name ∧
           active 0.5 (replicate 6 0.1%R) i.
Proof.
  assert (Hn : Loco.n (Controller.cpg hexapod_controller) ≤ 6).
  { change (Loco.n hexapod ≤ 6). rewrite hexapod_n. lia. }
  pose proof (proj1 (seeded_zero_tick 1 hexapod_controller hexapod_seeded eq_refl))
    as Hup.
  change (Loco.n (Controller.cpg hexapod_controller)) with (Loco.n hexapod) in Hup.
  rewrite hexapod_n in Hup.
  split; [exact Hn|]. split; [exact Hup|].
  exact (controller_update_active_legs euler_odeint (Some 0%R) 1
           hexapod_controller hexapod (replicate 6 0.1%R) Hn Hup).
Defined.

Lemma controller_update_commands_witness :
  Controller.update euler_odeint (Some 0%R) 1 hexapod_controller
  = Controller.Return (hexapod_controller, []) ∧
  Controller.log hexapod_controller
  = Controller.log hexapod_controller
    ++ send_events (Controller.serial_enabled hexapod_controller)
         (filter (fun leg => leg ∉ Controller.last_active_legs hexapod_controller)
            (@nil string)
          ++ (if decide (@nil string = []
                         ∧ Controller.last_active_legs hexapod_controller ≠ [])
              then ["off"] else [])) ∧
  (([] : list string) = Controller.last_active_legs hexapod_controller →
   Controller.log hexapod_controller = Controller.log hexapod_controller).
Proof.
  pose proof (proj2 (seeded_zero_tick 1 hexapod_controller hexapod_seeded eq_refl))
    as Hup.
  split; [exact Hup|].
  exact (controller_update_commands euler_odeint (Some 0%R) 1
           hexapod_controller hexapod_controller [] Hup).
Defined.

Lemma reset_controller_seeded :
  Loco.state (Controller.cpg (Controller.reset 0 hexapod_controller))
  = seed_state (Loco.n (Controller.cpg (Controller.reset 0 hexapod_controller))).
Proof.
  rewrite controller_reset_eq. cbn [Controller.cpg].
  destruct (ledlocotest_reset_seeded 0 (Controller.cpg hexapod_controller))
    as [Hn Hst].
  by rewrite Hn.
Qed.

Lemma reset_controller_no_legs :
  Controller.last_active_legs (Controller.reset 0 hexapod_controller) = [].
Proof. by rewrite controller_reset_eq. Qed.

Lemma controller_reset_then_update_witness :
  Controller.update euler_odeint (Some 0%R) 1 (Controller.reset 0 hexapod_controller)
  = Controller.Return (Controller.reset 0 hexapod_controller, []) ∧
  Controller.last_active_legs (Controller.reset 0 hexapod_controller) = [] ∧
  Controller.log (Controller.reset 0 hexapod_controller)
  = Controller.log hexapod_controller
    ++ send_events (Controller.serial_enabled hexapod_controller) ["off"]
    ++ [Controller.Print "Controller reset"]
    ++ send_events (Controller.serial_enabled hexapod_controller) [].
Proof.
  pose proof (proj2 (seeded_zero_tick 1 (Controller.reset 0 hexapod_controller)
                       reset_controller_seeded reset_controller_no_legs)) as Hup.
  split; [exact Hup|].
  exact (controller_reset_then_update euler_odeint (Some 0%R) 0 1
           hexapod_controller (Controller.reset 0 hexapod_controller) [] Hup).
Defined.

(** ** Back to the constructed network *)

Section FactoryReset.
Import Loco.

Variable odeint : (list R → R → list R) → list R → list R → list (list R).
Variable P : R → Prop.

(** No method assigns [omega] or [base_frequency] after the constructor. *)
Lemma reachable_omega (net : CoupledOscillatorNetwork) :
  LocoNetwork.reachable odeint P net →
  omega net = (2 * PI * base_frequency net)%R.
Proof.
  induction 1 as
    [fuel k a f m now net Hinit
    |dt now net net' xs _ IH Hup
    |fuel cs rd net net' _ IH Hcs Hset
    |fuel cs rd net net' _ IH Hcs Hset
    |fuel b net net' _ IH Hset
    |fuel net net' _ IH Hset
    |d factor net _ IH
    |net _ IH
    |now net _ IH].
  - apply ln_init_Ok in Hinit as (net0 & H0 & ->).
    rewrite nl_set_tripod_gait_eq.
    unfold init_fields in H0. destruct (k <? 0)%Z; [done|].
    by injection H0 as <-.
  - apply update_frame in Hup. rewrite Hup. by destruct net.
  - apply ln_set_tripod_gait_Ok in Hset as [-> _].
    rewrite nl_set_tripod_gait_eq. by destruct net, rd.
  - apply ln_set_wave_gait_Ok in Hset as [-> _].
    rewrite nl_set_wave_gait_eq. by destruct net, rd.
  - apply ln_set_backward_Ok in Hset as [_ ->]. by destruct net.
  - destruct fuel as [|fuel]; [done|]. simpl in Hset.
    apply ln_set_backward_Ok in Hset as [_ ->]. by destruct net.
  - destruct d; simpl turn.
    + pose proof (turn_left_eq factor net) as Heq. simpl in Heq. rewrite Heq.
      by destruct net.
    + pose proof (turn_right_eq factor net) as Heq. simpl in Heq. rewrite Heq.
      by destruct net.
  - unfold stop_turning. rewrite restore_base_eq. by destruct net.
  - unfold LocoNetwork.reset. rewrite restore_base_eq. by destruct net.
Qed.

Lemma reset_fields (now : R) (net : CoupledOscillatorNetwork) :
  length (amplitudes net) = n net → length (frequencies net) = n net →
  LocoNetwork.reset now net
  = mkNetwork (n net) (amplitude net) (base_frequency net) (omega net) (mu net)
      (seed_state (n net)) (coupling_weights net) (phase_biases net)
      (replicate (n net) (base_frequency net)) (replicate (n net) (amplitude net))
      (current_gait net) (direction_phase net) false None 0%R now.
Proof.
  intros Ha Hf. unfold LocoNetwork.reset. rewrite restore_base_eq.
  destruct net as [k A f w m st cw pb fr am g dp tu td tf lu]. simpl in *.
  by rewrite !fill_loop_replicate.
Qed.

(** X28.  In cpg_loconetwork.py [reset()] followed by [set_tripod_gait()]
    brings every network a caller can hold back to exactly what the
    constructor builds, at the time of the reset, from the network's own
    size, amplitude, frequency and mu: state, matrices, gait, direction,
    per-leg amplitudes and frequencies, turn state and clock.  The call
    returns at every stack depth of one or more. *)
Theorem reset_then_tripod_is_construction (fuel : nat) (now : R)
    (net : CoupledOscillatorNetwork) :
  LocoNetwork.reachable odeint P net →
  LocoNetwork.set_tripod_gait (S fuel) 1 true (LocoNetwork.reset now net)
  = LocoNetwork.__init__ (S (S fuel)) (Z.of_nat (n net)) (amplitude net)
      (base_frequency net) (mu net) now ∧
  ∃ net',
    LocoNetwork.set_tripod_gait (S fuel) 1 true (LocoNetwork.reset now net)
    = Ok net'.
Proof.
  intros Hreach.
  pose proof (reachable_omega net Hreach) as Hw.
  destruct (reachable_loco_invariant odeint (fun _ => True) I net
              (reachable_weaken odeint P net Hreach)) as (_ & Ha & Hf & _).
  rewrite ln_set_tripod_gait_forward by (by left).
  split; [|by eexists].
  unfold LocoNetwork.__init__, init_fields.
  replace (Z.of_nat (n net) <? 0)%Z with false by (symmetry; apply Z.ltb_ge; lia).
  rewrite Nat2Z.id.
  change (Ok ?x ≫= ?k) with (k x). cbv beta.
  rewrite ln_set_tripod_gait_forward by (by left). f_equal.
  rewrite !nl_set_tripod_gait_eq, reset_fields by done.
  rewrite !Rmult_1_l, <- Hw. reflexivity.
Qed.

End FactoryReset.

Lemma reset_then_tripod_is_construction_witness :
  LocoNetwork.reachable euler_odeint (fun _ => True) hexapod ∧
  LocoNetwork.set_tripod_gait 1 1 true (LocoNetwork.reset 0 hexapod)
  = LocoNetwork.__init__ 2 (Z.of_nat (Loco.n hexapod)) (Loco.amplitude hexapod)
      (Loco.base_frequency hexapod) (Loco.mu hexapod) 0 ∧
  ∃ net',
    LocoNetwork.set_tripod_gait 1 1 true (LocoNetwork.reset 0 hexapod) = Ok net'.
Proof.
  split; [exact (hexapod_reachable (fun _ => True))|].
  exact (reset_then_tripod_is_construction euler_odeint (fun _ => True) 0 0 hexapod
           (hexapod_reachable (fun _ => True))).
Defined.
